(** * Connect-4 agent: board rules, heuristic and game-tree searches

    A shallow embedding of [game_logic.py], [ai_terminal.py],
    [connect4_evaluation.py] and the search part of [pygame_gui.py],
    followed by the properties established about them.

    Conventions.
    - Python integers are [Z]; a board is the 6x7 numpy array, kept as a
      list of rows, row 0 being the top of the grid.
    - [float('-inf')], [float('inf')] and integer scores live in [ext].
    - The search depth is a [nat]: the callers pass 1..8 and the functions
      count it down to the [depth == 0] test.
    - The mutable node counter [counter['nodes']] is threaded through the
      searches as an explicit accumulator. *)

From Stdlib Require Import ZArith List Bool Lia Orders OrdersTac.
Import ListNotations.
Local Open Scope Z_scope.

(** ** Python and numpy building blocks *)

(** [range(lo, hi)]. *)
Definition zrange (lo hi : Z) : list Z :=
  map (fun k => lo + Z.of_nat k) (seq 0 (Z.to_nat (hi - lo))).

(** Result of an indexing operation that numpy may reject. *)
Inductive pyres (A : Type) : Type :=
| Ok (a : A)
| IndexError.
Arguments Ok {A} a.
Arguments IndexError {A}.

(** numpy's index normalisation along an axis of length [len]: indices in
    [0, len) are taken as they are, indices in [-len, 0) count from the end,
    anything else raises [IndexError]. *)
Definition np_index (len : nat) (i : Z) : option nat :=
  if (0 <=? i) && (i <? Z.of_nat len) then Some (Z.to_nat i)
  else if (- Z.of_nat len <=? i) && (i <? 0) then Some (Z.to_nat (i + Z.of_nat len))
  else None.

(** Functional update of position [n] of a list (nothing happens past the end). *)
Fixpoint list_set {A : Type} (n : nat) (x : A) (l : list A) : list A :=
  match l, n with
  | [], _ => []
  | _ :: t, O => x :: t
  | h :: t, S k => h :: list_set k x t
  end.

(** Scores: Python integers together with the two float infinities. *)
Inductive ext : Type :=
| NegInf
| Fin (z : Z)
| PosInf.

(** [a < b]. *)
Definition ext_ltb (a b : ext) : bool :=
  match a, b with
  | NegInf, NegInf => false
  | NegInf, _ => true
  | Fin _, NegInf => false
  | Fin x, Fin y => x <? y
  | Fin _, PosInf => true
  | PosInf, _ => false
  end.

(** [a <= b]. *)
Definition ext_leb (a b : ext) : bool := negb (ext_ltb b a).

(** Python's [max(a, b)]: the first argument unless the second is greater. *)
Definition ext_max (a b : ext) : ext := if ext_ltb a b then b else a.

(** Python's [min(a, b)]: the first argument unless the second is smaller. *)
Definition ext_min (a b : ext) : ext := if ext_ltb b a then b else a.

(** ** game_logic.py *)

Module GameLogic.

Definition ROWS : Z := 6.
Definition COLS : Z := 7.

Definition board : Type := list (list Z).

(** A board has the shape numpy gave it: [ROWS] rows of [COLS] cells. *)
Definition wf_board (b : board) : Prop :=
  length b = Z.to_nat ROWS /\ Forall (fun row => length row = Z.to_nat COLS) b.

Definition create_board : board :=
  repeat (repeat 0 (Z.to_nat COLS)) (Z.to_nat ROWS).

(** [board[r][c]] (also written [board[r, c]]) for indices [0 <= r < ROWS],
    [0 <= c < COLS]: the reads of the scans below, whose indices come from
    [range] loops or sit behind a bounds test, so that numpy never rejects
    them on a 6x7 array. *)
Definition cell (b : board) (r c : Z) : Z :=
  nth (Z.to_nat c) (nth (Z.to_nat r) b []) 0.

(** [board[r][c]] for indices supplied by the caller: numpy checks them
    against the shape of the array. *)
Definition getitem (b : board) (r c : Z) : pyres Z :=
  match np_index (length b) r with
  | None => IndexError
  | Some i =>
      let row := nth i b [] in
      match np_index (length row) c with
      | None => IndexError
      | Some j => Ok (nth j row 0)
      end
  end.

(** [board[r][c] = v], with the same checks. *)
Definition setitem (b : board) (r c v : Z) : pyres board :=
  match np_index (length b) r with
  | None => IndexError
  | Some i =>
      let row := nth i b [] in
      match np_index (length row) c with
      | None => IndexError
      | Some j => Ok (list_set i (list_set j v row) b)
      end
  end.

Definition is_valid_location (b : board) (col : Z) : bool :=
  if (col <? 0) || (col >=? COLS) then false
  else cell b 0 col =? 0.

(** The [for r in range(ROWS - 1, -1, -1)] loop of [get_next_open_row]:
    [Ok (Some r)] is [return r]; [Ok None] is the fall-through at the end of
    the loop, where Python returns [None]. *)
Fixpoint first_open (b : board) (col : Z) (rows : list Z) : pyres (option Z) :=
  match rows with
  | [] => Ok None
  | r :: rest =>
      match getitem b r col with
      | IndexError => IndexError
      | Ok v => if v =? 0 then Ok (Some r) else first_open b col rest
      end
  end.

Definition get_next_open_row (b : board) (col : Z) : pyres (option Z) :=
  first_open b col (rev (zrange 0 ROWS)).

(** [drop_piece] writes the cell it is given and returns the board; the
    functional update stands for the in-place write. *)
Definition drop_piece (b : board) (row col player : Z) : pyres board :=
  setitem b row col player.

Definition check_win (b : board) (player : Z) : bool :=
  (* horizontal win *)
  existsb (fun r => existsb (fun c =>
    forallb (fun i => cell b r (c + i) =? player) (zrange 0 4))
    (zrange 0 (COLS - 3))) (zrange 0 ROWS)
  (* vertical win *)
  || existsb (fun r => existsb (fun c =>
    forallb (fun i => cell b (r + i) c =? player) (zrange 0 4))
    (zrange 0 COLS)) (zrange 0 (ROWS - 3))
  (* positive diagonal win *)
  || existsb (fun r => existsb (fun c =>
    forallb (fun i => cell b (r + i) (c + i) =? player) (zrange 0 4))
    (zrange 0 (COLS - 3))) (zrange 0 (ROWS - 3))
  (* negative diagonal win *)
  || existsb (fun r => existsb (fun c =>
    forallb (fun i => cell b (r - i) (c + i) =? player) (zrange 0 4))
    (zrange 0 (COLS - 3))) (zrange 3 ROWS).

Definition is_draw (b : board) : bool :=
  forallb (fun c => negb (cell b 0 c =? 0)) (zrange 0 COLS).

(** The idiom shared by [get_children] and by the root loops of the callers:
    [row = get_next_open_row(board, c)], [new_board = board.copy()],
    [drop_piece(new_board, row, c, player)].  It is always run behind
    [is_valid_location(board, c)], where (lemma [place_valid]) the row is an
    integer and both indices are in range on a well-shaped board; [None]
    stands for the other outcomes, which that test excludes. *)
Definition place (b : board) (c player : Z) : option board :=
  match get_next_open_row b c with
  | Ok (Some row) =>
      match drop_piece b row c player with
      | Ok new_board => Some new_board
      | IndexError => None
      end
  | _ => None
  end.

Definition get_children (b : board) (player : Z) : list board :=
  flat_map (fun c =>
    if is_valid_location b c then
      match place b c player with
      | Some new_board => [new_board]
      | None => []
      end
    else []) (zrange 0 COLS).

End GameLogic.

(** ** ai_terminal.py *)

Module AiTerminal.
Import GameLogic.

(** [window.count(x)]. *)
Definition count (x : Z) (window : list Z) : Z :=
  Z.of_nat (length (filter (Z.eqb x) window)).

Definition score_window (window : list Z) (player : Z) : Z :=
  let opponent := if player =? 1 then 2 else 1 in
  let score := 0 in
  (* scoring for the players own opportunities *)
  let score :=
    if count player window =? 4 then score + 1000
    else if (count player window =? 3) && (count 0 window =? 1) then score + 100
    else if (count player window =? 2) && (count 0 window =? 2) then score + 10
    else score in
  (* scoring for threats by opponent *)
  let score :=
    if count opponent window =? 4 then score - 1500
    else if (count opponent window =? 3) && (count 0 window =? 1) then score - 100
    else if (count opponent window =? 2) && (count 0 window =? 2) then score - 10
    else score in
  score.

(** One [for r in rs: for c in cs: score += f(r, c)] double loop. *)
Definition scan (rs cs : list Z) (f : Z -> Z -> Z) (score : Z) : Z :=
  fold_left (fun s r => fold_left (fun s c => s + f r c) cs s) rs score.

Definition heuristic (b : board) (player : Z) : Z :=
  let score := 0 in
  (* horizontal *)
  let score := scan (zrange 0 ROWS) (zrange 0 (COLS - 3)) (fun r c =>
    score_window (map (fun i => cell b r (c + i)) (zrange 0 4)) player) score in
  (* vertical *)
  let score := scan (zrange 0 (ROWS - 3)) (zrange 0 COLS) (fun r c =>
    score_window (map (fun i => cell b (r + i) c) (zrange 0 4)) player) score in
  (* positive diagonal *)
  let score := scan (zrange 0 (ROWS - 3)) (zrange 0 (COLS - 3)) (fun r c =>
    score_window (map (fun i => cell b (r + i) (c + i)) (zrange 0 4)) player) score in
  (* negative diagonal *)
  let score := scan (zrange 3 ROWS) (zrange 0 (COLS - 3)) (fun r c =>
    score_window (map (fun i => cell b (r - i) (c + i)) (zrange 0 4)) player) score in
  score.

Definition evaluate_board (b : board) (player : Z) : ext :=
  let opponent := if player =? 1 then 2 else 1 in
  if check_win b player then PosInf
  else if check_win b opponent then NegInf
  else if is_draw b then Fin 0
  else Fin (heuristic b player).

(** The maximizing loop of [minimax]; [rec child alpha beta] is the recursive
    call on [child] at [depth - 1] for the minimizing player. *)
Fixpoint max_loop (rec : board -> ext -> ext -> ext) (beta : ext)
    (children : list board) (alpha max_eval : ext) : ext :=
  match children with
  | [] => max_eval
  | child :: rest =>
      let eval := rec child alpha beta in
      let max_eval := ext_max max_eval eval in
      let alpha := ext_max alpha eval in
      if ext_leb beta alpha then max_eval
      else max_loop rec beta rest alpha max_eval
  end.

(** The minimizing loop of [minimax]. *)
Fixpoint min_loop (rec : board -> ext -> ext -> ext) (alpha : ext)
    (children : list board) (beta min_eval : ext) : ext :=
  match children with
  | [] => min_eval
  | child :: rest =>
      let eval := rec child alpha beta in
      let min_eval := ext_min min_eval eval in
      let beta := ext_min beta eval in
      if ext_leb beta alpha then min_eval
      else min_loop rec alpha rest beta min_eval
  end.

Fixpoint minimax (depth : nat) (b : board) (alpha beta : ext)
    (maximizing_player : bool) : ext :=
  match depth with
  | O => Fin (heuristic b 1)
  | S d =>
      if check_win b 1 || check_win b 2 || is_draw b then Fin (heuristic b 1)
      else if maximizing_player then
        max_loop (fun child a be => minimax d child a be false)
          beta (get_children b 1) alpha NegInf
      else
        min_loop (fun child a be => minimax d child a be true)
          alpha (get_children b 2) beta PosInf
  end.

(** The [for c in range(COLS)] loop of the AI move in [play_game_vs_ai];
    [score temp_board] is [minimax(temp_board, depth - 1, -inf, inf, False)]. *)
Fixpoint root_loop (score : board -> ext) (b : board) (cols : list Z)
    (best_score : ext) (best_col : option Z) : ext * option Z :=
  match cols with
  | [] => (best_score, best_col)
  | c :: rest =>
      if is_valid_location b c then
        match place b c 1 with
        | Some temp_board =>
            let s := score temp_board in
            if ext_ltb best_score s then root_loop score b rest s (Some c)
            else root_loop score b rest best_score best_col
        | None => root_loop score b rest best_score best_col
        end
      else root_loop score b rest best_score best_col
  end.

(** The move selection of [play_game_vs_ai]: [best_col] when the loop ends
    ([None] is Python's [None]).  [depth] is at least 1 there (2, 4 or 6). *)
Definition choose_move (b : board) (depth : nat) : option Z :=
  snd (root_loop (fun temp_board => minimax (depth - 1) temp_board NegInf PosInf false)
         b (zrange 0 COLS) NegInf None).

End AiTerminal.

(** ** connect4_evaluation.py *)

Module Evaluation.
Import GameLogic.
Import AiTerminal.

(** The loops of [minimax_no_pruning]; [rec child counter] is the recursive
    call and returns the score with the counter as the call left it. *)
Fixpoint np_max_loop (rec : board -> nat -> ext * nat)
    (children : list board) (value : ext) (counter : nat) : ext * nat :=
  match children with
  | [] => (value, counter)
  | child :: rest =>
      let '(v, counter) := rec child counter in
      let value := if ext_ltb value v then v else value in
      np_max_loop rec rest value counter
  end.

Fixpoint np_min_loop (rec : board -> nat -> ext * nat)
    (children : list board) (value : ext) (counter : nat) : ext * nat :=
  match children with
  | [] => (value, counter)
  | child :: rest =>
      let '(v, counter) := rec child counter in
      let value := if ext_ltb v value then v else value in
      np_min_loop rec rest value counter
  end.

Fixpoint minimax_no_pruning (depth : nat) (b : board) (maximizing_player : bool)
    (counter : nat) : ext * nat :=
  let counter := S counter in
  match depth with
  | O => (Fin (heuristic b 1), counter)
  | S d =>
      if check_win b 1 || check_win b 2 || is_draw b
      then (Fin (heuristic b 1), counter)
      else if maximizing_player then
        np_max_loop (fun child k => minimax_no_pruning d child false k)
          (get_children b 1) NegInf counter
      else
        np_min_loop (fun child k => minimax_no_pruning d child true k)
          (get_children b 2) PosInf counter
  end.

(** The loops of [minimax_ab]. *)
Fixpoint ab_max_loop (rec : board -> ext -> ext -> nat -> ext * nat) (beta : ext)
    (children : list board) (alpha value : ext) (counter : nat) : ext * nat :=
  match children with
  | [] => (value, counter)
  | child :: rest =>
      let '(v, counter) := rec child alpha beta counter in
      let value := if ext_ltb value v then v else value in
      let alpha := ext_max alpha v in
      if ext_leb beta alpha then (value, counter)
      else ab_max_loop rec beta rest alpha value counter
  end.

Fixpoint ab_min_loop (rec : board -> ext -> ext -> nat -> ext * nat) (alpha : ext)
    (children : list board) (beta value : ext) (counter : nat) : ext * nat :=
  match children with
  | [] => (value, counter)
  | child :: rest =>
      let '(v, counter) := rec child alpha beta counter in
      let value := if ext_ltb v value then v else value in
      let beta := ext_min beta v in
      if ext_leb beta alpha then (value, counter)
      else ab_min_loop rec alpha rest beta value counter
  end.

Fixpoint minimax_ab (depth : nat) (b : board) (alpha beta : ext)
    (maximizing_player : bool) (counter : nat) : ext * nat :=
  let counter := S counter in
  match depth with
  | O => (Fin (heuristic b 1), counter)
  | S d =>
      if check_win b 1 || check_win b 2 || is_draw b
      then (Fin (heuristic b 1), counter)
      else if maximizing_player then
        ab_max_loop (fun child a be k => minimax_ab d child a be false k)
          beta (get_children b 1) alpha NegInf counter
      else
        ab_min_loop (fun child a be k => minimax_ab d child a be true k)
          alpha (get_children b 2) beta PosInf counter
  end.

End Evaluation.

(** The same search with the bookkeeping needed to speak about cutoffs: next
    to the node counter it records how many times a [break] was taken and how
    many successors those breaks left unvisited.  Lemma [ab_trace_agrees]
    ties it to [minimax_ab]. *)

Module Trace.
Import GameLogic.
Import AiTerminal.

Record stats : Type := mkStats {
  nodes : nat;    (* counter['nodes'] *)
  breaks : nat;   (* executions of [break] *)
  skipped : nat   (* successors left in the loop when a [break] was taken *)
}.

Definition tick (st : stats) : stats :=
  mkStats (S (nodes st)) (breaks st) (skipped st).

Definition cut (left : nat) (st : stats) : stats :=
  mkStats (nodes st) (S (breaks st)) (left + skipped st).

Fixpoint tr_max_loop (rec : board -> ext -> ext -> stats -> ext * stats) (beta : ext)
    (children : list board) (alpha value : ext) (st : stats) : ext * stats :=
  match children with
  | [] => (value, st)
  | child :: rest =>
      let '(v, st) := rec child alpha beta st in
      let value := if ext_ltb value v then v else value in
      let alpha := ext_max alpha v in
      if ext_leb beta alpha then (value, cut (length rest) st)
      else tr_max_loop rec beta rest alpha value st
  end.

Fixpoint tr_min_loop (rec : board -> ext -> ext -> stats -> ext * stats) (alpha : ext)
    (children : list board) (beta value : ext) (st : stats) : ext * stats :=
  match children with
  | [] => (value, st)
  | child :: rest =>
      let '(v, st) := rec child alpha beta st in
      let value := if ext_ltb v value then v else value in
      let beta := ext_min beta v in
      if ext_leb beta alpha then (value, cut (length rest) st)
      else tr_min_loop rec alpha rest beta value st
  end.

Fixpoint ab_trace (depth : nat) (b : board) (alpha beta : ext)
    (maximizing_player : bool) (st : stats) : ext * stats :=
  let st := tick st in
  match depth with
  | O => (Fin (heuristic b 1), st)
  | S d =>
      if check_win b 1 || check_win b 2 || is_draw b
      then (Fin (heuristic b 1), st)
      else if maximizing_player then
        tr_max_loop (fun child a be k => ab_trace d child a be false k)
          beta (get_children b 1) alpha NegInf st
      else
        tr_min_loop (fun child a be k => ab_trace d child a be true k)
          alpha (get_children b 2) beta PosInf st
  end.

End Trace.

(** ** pygame_gui.py (search and AI turn) *)

Module PygameGui.
Import GameLogic.

Definition count (x : Z) (window : list Z) : Z :=
  Z.of_nat (length (filter (Z.eqb x) window)).

Definition score_window (window : list Z) (player : Z) : Z :=
  let opponent := if player =? 1 then 2 else 1 in
  let score := 0 in
  let score :=
    if count player window =? 4 then score + 1000
    else if (count player window =? 3) && (count 0 window =? 1) then score + 100
    else if (count player window =? 2) && (count 0 window =? 2) then score + 10
    else score in
  let score :=
    if count opponent window =? 4 then score - 1500
    else if (count opponent window =? 3) && (count 0 window =? 1) then score - 100
    else if (count opponent window =? 2) && (count 0 window =? 2) then score - 10
    else score in
  score.

Definition scan (rs cs : list Z) (f : Z -> Z -> Z) (score : Z) : Z :=
  fold_left (fun s r => fold_left (fun s c => s + f r c) cs s) rs score.

Definition heuristic (b : board) (player : Z) : Z :=
  let score := 0 in
  let score := scan (zrange 0 ROWS) (zrange 0 (COLS - 3)) (fun r c =>
    score_window (map (fun i => cell b r (c + i)) (zrange 0 4)) player) score in
  let score := scan (zrange 0 (ROWS - 3)) (zrange 0 COLS) (fun r c =>
    score_window (map (fun i => cell b (r + i) c) (zrange 0 4)) player) score in
  let score := scan (zrange 0 (ROWS - 3)) (zrange 0 (COLS - 3)) (fun r c =>
    score_window (map (fun i => cell b (r + i) (c + i)) (zrange 0 4)) player) score in
  let score := scan (zrange 3 ROWS) (zrange 0 (COLS - 3)) (fun r c =>
    score_window (map (fun i => cell b (r - i) (c + i)) (zrange 0 4)) player) score in
  score.

(** [[c for c in range(COLS) if is_valid_location(board, c)]]. *)
Definition valid_locations (b : board) : list Z :=
  filter (is_valid_location b) (zrange 0 COLS).

(** The maximizing loop of [minimax_with_col]; [rec temp alpha beta] is the
    score component of the recursive call (its column is discarded). *)
Fixpoint wc_max_loop (rec : board -> ext -> ext -> ext) (b : board) (mover : Z)
    (beta : ext) (cols : list Z) (alpha value : ext) (best_col : option Z)
    : option Z * ext :=
  match cols with
  | [] => (best_col, value)
  | col :: rest =>
      match place b col mover with
      | Some temp =>
          let score := rec temp alpha beta in
          let '(value, best_col) :=
            if ext_ltb value score then (score, Some col) else (value, best_col) in
          let alpha := ext_max alpha value in
          if ext_leb beta alpha then (best_col, value)
          else wc_max_loop rec b mover beta rest alpha value best_col
      | None => wc_max_loop rec b mover beta rest alpha value best_col
      end
  end.

(** The minimizing loop of [minimax_with_col]. *)
Fixpoint wc_min_loop (rec : board -> ext -> ext -> ext) (b : board) (mover : Z)
    (alpha : ext) (cols : list Z) (beta value : ext) (best_col : option Z)
    : option Z * ext :=
  match cols with
  | [] => (best_col, value)
  | col :: rest =>
      match place b col mover with
      | Some temp =>
          let score := rec temp alpha beta in
          let '(value, best_col) :=
            if ext_ltb score value then (score, Some col) else (value, best_col) in
          let beta := ext_min beta value in
          if ext_leb beta alpha then (best_col, value)
          else wc_min_loop rec b mover alpha rest beta value best_col
      | None => wc_min_loop rec b mover alpha rest beta value best_col
      end
  end.

(** [best_col = valid_locations[0]] is [hd_error]: past the terminal test the
    list is never empty (lemma [valid_locations_nonempty]). *)
Fixpoint minimax_with_col (depth : nat) (b : board) (alpha beta : ext)
    (maximizing : bool) (ai_player : Z) : option Z * ext :=
  let terminal := check_win b 1 || check_win b 2 || is_draw b in
  match depth with
  | O => (None, Fin (heuristic b ai_player))
  | S d =>
      if terminal then (None, Fin (heuristic b ai_player))
      else if maximizing then
        wc_max_loop (fun temp a be => snd (minimax_with_col d temp a be false ai_player))
          b ai_player beta (valid_locations b) alpha NegInf
          (hd_error (valid_locations b))
      else
        let opponent := if ai_player =? 2 then 1 else 2 in
        wc_min_loop (fun temp a be => snd (minimax_with_col d temp a be true ai_player))
          b opponent alpha (valid_locations b) beta PosInf
          (hd_error (valid_locations b))
  end.

(** The AI turn of [run_pygame_game]: the board after the block guarded by
    [best_col is not None and is_valid_location(board, best_col)]. *)
Definition ai_turn (b : board) (depth : nat) (ai : Z) : board :=
  let '(best_col, _) := minimax_with_col depth b NegInf PosInf true ai in
  match best_col with
  | Some c =>
      if is_valid_location b c then
        match place b c ai with
        | Some moved => moved
        | None => b
        end
      else b
  | None => b
  end.

End PygameGui.

(** ** Vocabulary of the specification *)

Module Spec.
Import GameLogic.

(** [a <= b] and [a < b] on scores, as propositions. *)
Definition ext_le (a b : ext) : Prop := ext_leb a b = true.
Definition ext_lt (a b : ext) : Prop := ext_ltb a b = true.

Definition in_board (r c : Z) : Prop := 0 <= r < ROWS /\ 0 <= c < COLS.

(** Four consecutive cells from [(r, c)] in direction [(dr, dc)], all on the
    board and all holding [p]. *)
Definition run4 (b : board) (p r c dr dc : Z) : Prop :=
  forall i, 0 <= i < 4 ->
    in_board (r + i * dr) (c + i * dc) /\ cell b (r + i * dr) (c + i * dc) = p.

(** Some length-4 run of [p] along a row, a column or either diagonal. *)
Definition has_run (b : board) (p : Z) : Prop :=
  exists r c,
    run4 b p r c 0 1 \/ run4 b p r c 1 0 \/ run4 b p r c 1 1 \/ run4 b p r c (-1) 1.

(** The terminal test of the searches. *)
Definition is_terminal (b : board) : bool :=
  check_win b 1 || check_win b 2 || is_draw b.

(** Every cell of column [c] is occupied. *)
Definition column_full (b : board) (c : Z) : Prop :=
  forall r, 0 <= r < ROWS -> cell b r c <> 0.

(** Gravity: in every column the empty cells are exactly the rows above some
    level [k], the occupied ones the rows from [k] down to the bottom. *)
Definition gravity (b : board) : Prop :=
  forall c, 0 <= c < COLS ->
    exists k, 0 <= k <= ROWS /\
      forall r, 0 <= r < ROWS -> (cell b r c = 0 <-> r < k).

(** [c0] is the lowest-indexed legal column whose score is maximal. *)
Definition lowest_best (b : board) (score : Z -> ext) (c0 : Z) : Prop :=
  is_valid_location b c0 = true
  /\ (forall c, is_valid_location b c = true -> ext_le (score c) (score c0))
  /\ (forall c, is_valid_location b c = true -> c < c0 -> ext_lt (score c) (score c0)).

(** Score the root loop of [play_game_vs_ai] gives to column [c]. *)
Definition terminal_root_score (b : board) (depth : nat) (c : Z) : ext :=
  match place b c 1 with
  | Some temp_board => AiTerminal.minimax (depth - 1) temp_board NegInf PosInf false
  | None => NegInf
  end.

(** Score of column [c] at the root of [minimax_with_col]: the value of the
    position after the move, searched over the full window. *)
Definition gui_root_score (b : board) (depth : nat) (ai : Z) (c : Z) : ext :=
  match place b c ai with
  | Some temp =>
      snd (PygameGui.minimax_with_col (depth - 1) temp NegInf PosInf false ai)
  | None => NegInf
  end.

(** Fail-soft reading of a windowed result [r] against the exact value [m]:
    below the window [r] is an upper bound, above it a lower bound, inside
    it the value itself. *)
Definition bounds (alpha beta r m : ext) : Prop :=
  (ext_le r alpha -> ext_le m r)
  /\ (ext_le beta r -> ext_le r m)
  /\ (ext_lt alpha r -> ext_lt r beta -> r = m).

(** Exact value of a maximizing (minimizing) node whose successors [cs] are
    worth [value_of child] each. *)
Definition max_of (value_of : board -> ext) (cs : list board) : ext :=
  fold_right (fun child acc => ext_max (value_of child) acc) NegInf cs.

Definition min_of (value_of : board -> ext) (cs : list board) : ext :=
  fold_right (fun child acc => ext_min (value_of child) acc) PosInf cs.

(** Boards used in the examples below. *)
Definition rowA : list Z := [1; 1; 2; 2; 1; 1; 2].
Definition rowB : list Z := [2; 2; 1; 1; 2; 2; 1].

(** A full board without any four-in-a-row. *)
Definition drawn_board : board := [rowA; rowB; rowA; rowB; rowA; rowB].

(** A full board on which player 2 holds the top row's first four cells. *)
Definition full_won_board : board :=
  [[2; 2; 2; 2; 1; 1; 1]; rowA; rowB; rowA; rowB; rowA].

(** Player 1 (resp. player 2) holds columns 0-2 of the bottom row. *)
Definition empty_row : list Z := [0; 0; 0; 0; 0; 0; 0].

Definition three_for_1 : board :=
  [empty_row; empty_row; empty_row; empty_row; empty_row; [1; 1; 1; 0; 0; 0; 0]].

Definition three_for_2 : board :=
  [empty_row; empty_row; empty_row; empty_row; empty_row; [2; 2; 2; 0; 0; 0; 0]].

(** Three cells left: two in column 0, one in column 1. *)
Definition late_board : board :=
  [[0; 0; 2; 2; 1; 1; 2]; [0; 2; 1; 1; 2; 2; 1]; rowA; rowB; rowA; rowB].

End Spec.

(** ** Further vocabulary *)

Module Notions.
Import GameLogic.

(** Exchanging the two players' pieces. *)
Definition swap_player (v : Z) : Z :=
  if v =? 1 then 2 else if v =? 2 then 1 else v.

Definition swap_board (b : board) : board := map (map swap_player) b.

(** An integer score within the range of the heuristic. *)
Definition score_in_range (e : ext) : Prop :=
  exists z, e = Fin z /\ -103500 <= z <= 69000.

End Notions.

(** ** connect4_evaluation.py: random test boards *)

Module TestBoards.
Import GameLogic.

Section RandomBoard.
(** The generator of the [random] module is kept abstract: a state [rng] and
    [choice g seq], the element [random.choice(seq)] returns in state [g]
    together with the next state.  Seeding fixes the initial state. *)
Variable rng : Type.
Variable choice : rng -> list Z -> Z * rng.

(** The [while moves_played < moves] loop of [generate_random_board];
    [moves_left] is [moves - moves_played].  The branches on [IndexError] and
    on a missing row stand for outcomes that the test on [valid_cols]
    excludes on a board. *)
Fixpoint random_moves (g : rng) (b : board) (player : Z) (moves_left : nat) : board :=
  match moves_left with
  | O => b
  | S n =>
      let valid_cols := filter (is_valid_location b) (zrange 0 COLS) in
      match valid_cols with
      | [] => b
      | _ :: _ =>
          let '(col, g) := choice g valid_cols in
          match get_next_open_row b col with
          | Ok (Some row) =>
              match drop_piece b row col player with
              | Ok moved =>
                  if check_win moved player then
                    match setitem moved row col 0 with
                    | Ok undone => undone
                    | IndexError => moved
                    end
                  else random_moves g moved (if player =? 2 then 1 else 2) n
              | IndexError => b
              end
          | _ => b
          end
      end
  end.

Definition generate_random_board (g : rng) (moves : nat) : board :=
  let '(player, g) := choice g [1; 2] in
  random_moves g create_board player moves.

(** A cell of the heat map of [run_experiments]: the score of the pruned
    search at depth [d] on a random board. *)
Definition heatmap_score (g : rng) (moves d : nat) : ext :=
  fst (Evaluation.minimax_ab d (generate_random_board g moves) NegInf PosInf true 0).

End RandomBoard.

End TestBoards.

(** ** ai_terminal.py: the game loop *)

Module TerminalGame.
Import GameLogic.

Inductive outcome : Type :=
| AiWins (b : board)          (* "AI wins!" *)
| HumanWins (b : board)       (* "You win!" *)
| Draw (b : board)            (* "It's a draw!" *)
| NoMove (b : board)          (* [best_col] is [None]: the move cannot be played *)
| EndOfInput (b : board)      (* the answers ran out while a column was asked for *)
| OutOfFuel (b : board).      (* the bound on the number of rounds was reached *)

(** The [while not valid_move] loop: answers are read until one is a legal
    column; [None] is an answer [int] rejects with [ValueError]. *)
Fixpoint read_column (b : board) (answers : list (option Z))
    : option (Z * list (option Z)) :=
  match answers with
  | [] => None
  | None :: rest => read_column b rest
  | Some col :: rest =>
      if is_valid_location b col then Some (col, rest) else read_column b rest
  end.

(** [play_game_vs_ai] from board [b] on, one round per unit of [fuel]: the
    AI (player 1) moves, then the human (player 2) on the next legal answer. *)
Fixpoint play_rounds (fuel : nat) (depth : nat) (b : board)
    (answers : list (option Z)) : outcome :=
  match fuel with
  | O => OutOfFuel b
  | S n =>
      match AiTerminal.choose_move b depth with
      | None => NoMove b
      | Some best_col =>
          match place b best_col 1 with
          | None => NoMove b
          | Some b1 =>
              if check_win b1 1 then AiWins b1
              else if is_draw b1 then Draw b1
              else
                match read_column b1 answers with
                | None => EndOfInput b1
                | Some (col, rest) =>
                    match place b1 col 2 with
                    | None => NoMove b1
                    | Some b2 =>
                        if check_win b2 2 then HumanWins b2
                        else if is_draw b2 then Draw b2
                        else play_rounds n depth b2 rest
                    end
                end
          end
      end
  end.

Definition play_game_vs_ai (fuel : nat) (depth : nat) (answers : list (option Z))
    : outcome :=
  play_rounds fuel depth create_board answers.

End TerminalGame.

(** ** pygame_gui.py: the game loop *)

Module GuiGame.
Import GameLogic.

Definition SQUARESIZE : Z := 100.
Definition SIDE_PADDING : Z := 60.

Definition HOVER_AREA_HEIGHT : Z := 100.

(** Left and top edges of the square [draw_board] draws for column [c] and
    row [r], and the centre of the piece it draws there. *)
Definition cell_x (c : Z) : Z := SIDE_PADDING + c * SQUARESIZE.
Definition cell_y (r : Z) : Z := HOVER_AREA_HEIGHT + r * SQUARESIZE.
Definition piece_centre (r c : Z) : Z * Z :=
  (cell_x c + SQUARESIZE / 2, cell_y r + SQUARESIZE / 2).

(** The [while y < target_y] loop of [animate_drop]: the ordinates at which
    the falling piece is drawn, one per pass; [None] when [fuel] passes do
    not end the loop. *)
Fixpoint animate_loop (fuel : nat) (y target_y : Z) : option (list Z) :=
  match fuel with
  | O => None
  | S n =>
      if y <? target_y then
        let y := y + 20 in
        let y := if y >? target_y then target_y else y in
        match animate_loop n y target_y with
        | Some ys => Some (y :: ys)
        | None => None
        end
      else Some []
  end.

(** Centres of the circles [animate_drop] draws for a piece falling to
    [row] in column [col]. *)
Definition animate_drop (fuel : nat) (col row : Z) : option (list (Z * Z)) :=
  let x_center := SIDE_PADDING + col * SQUARESIZE + SQUARESIZE / 2 in
  let target_y := HOVER_AREA_HEIGHT + row * SQUARESIZE + SQUARESIZE / 2 in
  match animate_loop fuel (HOVER_AREA_HEIGHT / 2) target_y with
  | Some ys => Some (map (fun y => (x_center, y)) ys)
  | None => None
  end.

(** Column under a click at abscissa [posx] ([//] is the floor division). *)
Definition click_column (posx : Z) : Z := (posx - SIDE_PADDING) / SQUARESIZE.

(** Column of the hovering piece: the same, clamped into the board. *)
Definition hover_column (posx : Z) : Z :=
  Z.max 0 (Z.min (COLS - 1) (click_column posx)).

Inductive event : Type :=
| Quit
| MouseMotion (posx : Z)
| MouseButtonDown (posx : Z)
| OtherEvent.

Record state : Type := mkState {
  board_of : board;
  current_turn : Z;     (* 0 = human, 1 = AI *)
  game_over : bool
}.

(** Roles fixed by the turn selection screen ([turn] is 0 when the human
    goes first). *)
Definition human_of (turn : Z) : Z := if turn =? 0 then 1 else 2.
Definition ai_of (turn : Z) : Z := if human_of turn =? 1 then 2 else 1.

Definition initial_state (turn : Z) : state :=
  mkState create_board (if turn =? 0 then 0 else 1) false.

(** The board after a move of [player], with the two tests that end the
    game. *)
Definition after_move (moved : board) (player next_turn : Z) (st : state) : state :=
  if check_win moved player then mkState moved (current_turn st) true
  else if is_draw moved then mkState moved (current_turn st) true
  else mkState moved next_turn false.

(** A [MOUSEBUTTONDOWN] event. *)
Definition click (human : Z) (st : state) (posx : Z) : state :=
  if current_turn st =? 0 then
    let col := click_column posx in
    if is_valid_location (board_of st) col then
      match place (board_of st) col human with
      | Some moved => after_move moved human 1 st
      | None => st
      end
    else st
  else st.

(** The [for event in py.event.get()] loop of one frame; [None] is
    [sys.exit()].  The loop stops ([break]) as soon as a click ended the
    game. *)
Fixpoint handle_events (human : Z) (st : state) (events : list event) : option state :=
  match events with
  | [] => Some st
  | Quit :: _ => None
  | MouseButtonDown posx :: rest =>
      let st' := click human st posx in
      if game_over st' then Some st' else handle_events human st' rest
  | _ :: rest => handle_events human st rest
  end.

(** The AI turn of a frame. *)
Definition ai_step (depth : nat) (ai : Z) (st : state) : state :=
  if (current_turn st =? 1) && negb (game_over st) then
    match fst (PygameGui.minimax_with_col depth (board_of st) NegInf PosInf true ai) with
    | Some best_col =>
        if is_valid_location (board_of st) best_col then
          match place (board_of st) best_col ai with
          | Some moved => after_move moved ai 0 st
          | None => st
          end
        else st
    | None => st
    end
  else st.

(** One pass of the [while not game_over] loop. *)
Definition frame (depth : nat) (turn : Z) (st : state) (events : list event)
    : option state :=
  match handle_events (human_of turn) st events with
  | None => None
  | Some st' => Some (ai_step depth (ai_of turn) st')
  end.

(** States the loop can be in: the initial one, and the one after a frame
    entered while the game was not over. *)
Inductive reachable (depth : nat) (turn : Z) : state -> Prop :=
| reach_initial : reachable depth turn (initial_state turn)
| reach_frame (st st' : state) (events : list event) :
    reachable depth turn st -> game_over st = false ->
    frame depth turn st events = Some st' ->
    reachable depth turn st'.

End GuiGame.

(** ** Counting cells *)

Module Counting.
Import GameLogic.

(** Number of cells of the board holding [v]. *)
Definition count_cells (v : Z) (b : board) : nat :=
  list_sum (map (fun row => length (filter (Z.eqb v) row)) b).

Definition pieces (b : board) : nat := (count_cells 1 b + count_cells 2 b)%nat.

(** A position of a game in progress: a 6x7 board that obeys gravity and
    whose cells all hold 0, 1 or 2. *)
Definition legal_position (b : board) : Prop :=
  wf_board b /\ Spec.gravity b
  /\ (count_cells 0 b + pieces b = Z.to_nat (ROWS * COLS))%nat.

(** Piece counts when it is [p]'s turn, player 1 having moved first. *)
Definition on_move (p : Z) (b : board) : Prop :=
  if p =? 1 then count_cells 1 b = count_cells 2 b
  else count_cells 1 b = S (count_cells 2 b).

(** Piece counts just after [p] has moved. *)
Definition has_moved (p : Z) (b : board) : Prop :=
  if p =? 1 then count_cells 1 b = S (count_cells 2 b)
  else count_cells 1 b = count_cells 2 b.

End Counting.

(** ** What the graphical loop keeps true *)

Module GuiNotions.
Import GameLogic Counting GuiGame.

(** Player whose move the loop is waiting for. *)
Definition to_move (turn : Z) (st : state) : Z :=
  if current_turn st =? 0 then human_of turn else ai_of turn.

Definition gui_invariant (turn : Z) (st : state) : Prop :=
  legal_position (board_of st)
  /\ (current_turn st = 0 \/ current_turn st = 1)
  /\ game_over st = Spec.is_terminal (board_of st)
  /\ (count_cells 1 (board_of st) = count_cells 2 (board_of st)
      \/ count_cells 1 (board_of st) = S (count_cells 2 (board_of st)))
  /\ (game_over st = false -> on_move (to_move turn st) (board_of st)).

End GuiNotions.

(** ** Scores form a total order *)

Module ExtOrd.
Import Spec.
Definition t := ext.
Definition eq := @Logic.eq ext.
Definition lt := Spec.ext_lt.
Definition le := Spec.ext_le.
Lemma eq_equiv : Equivalence eq.
Proof. unfold eq. split; congruence. Qed.
Lemma lt_strorder : StrictOrder lt.
Proof.
  split.
  - intros x. unfold complement, lt, ext_lt. destruct x; simpl; try discriminate.
    rewrite Z.ltb_irrefl. discriminate.
  - intros x y z. unfold lt, ext_lt.
    destruct x, y, z; simpl; try discriminate; try reflexivity.
    rewrite !Z.ltb_lt. lia.
Qed.
Lemma lt_compat : Proper (eq ==> eq ==> iff) lt.
Proof. intros a b -> c d ->. reflexivity. Qed.
Lemma le_lteq : forall x y, le x y <-> lt x y \/ eq x y.
Proof.
  intros x y. unfold le, lt, eq, ext_le, ext_lt, ext_leb.
  destruct x, y; simpl; split; intros H; try discriminate; auto;
    try (destruct H as [H|H]; discriminate).
  - apply negb_true_iff in H. apply Z.ltb_ge in H.
    destruct (Z.eq_dec z z0) as [->|Hne]; [right; reflexivity|].
    left. apply Z.ltb_lt. lia.
  - apply negb_true_iff. apply Z.ltb_ge. destruct H as [H|H].
    + apply Z.ltb_lt in H. lia.
    + inversion H. lia.
Qed.
Lemma lt_total : forall x y, lt x y \/ eq x y \/ lt y x.
Proof.
  intros x y. unfold lt, eq, ext_lt.
  destruct x, y; simpl; auto.
  destruct (Z.lt_total z z0) as [H|[H|H]].
  - left. apply Z.ltb_lt. exact H.
  - right; left. congruence.
  - right; right. apply Z.ltb_lt. exact H.
Qed.
End ExtOrd.
(** The [order] tactic of the Standard Library, on scores. *)
Module ExtTac := MakeOrderTac ExtOrd ExtOrd.

(** * Properties *)

Import GameLogic Spec.

#[global] Arguments AiTerminal.heuristic : simpl never.
#[global] Arguments PygameGui.heuristic : simpl never.
#[global] Arguments check_win : simpl never.
#[global] Arguments is_draw : simpl never.
#[global] Arguments get_children : simpl never.
#[global] Arguments PygameGui.valid_locations : simpl never.

(** ** Ranges, lists and indices *)

Lemma In_zrange (x lo hi : Z) : In x (zrange lo hi) <-> lo <= x < hi.
Proof.
  unfold zrange. rewrite in_map_iff. split.
  - intros [k [<- Hk]]. apply in_seq in Hk. lia.
  - intros H. exists (Z.to_nat (x - lo)). split; [lia|].
    apply in_seq. lia.
Qed.

Lemma zrange_rows : zrange 0 ROWS = [0; 1; 2; 3; 4; 5].
Proof. reflexivity. Qed.

Lemma zrange_cols : zrange 0 COLS = [0; 1; 2; 3; 4; 5; 6].
Proof. reflexivity. Qed.

Lemma length_list_set {A : Type} (n : nat) (x : A) (l : list A) :
  length (list_set n x l) = length l.
Proof.
  revert n. induction l as [|h t IH]; intros [|n]; simpl; auto.
Qed.

Lemma nth_list_set_same {A : Type} (n : nat) (x d : A) (l : list A) :
  (n < length l)%nat -> nth n (list_set n x l) d = x.
Proof.
  revert n. induction l as [|h t IH]; intros [|n] H; simpl in *; try lia; auto.
  apply IH. lia.
Qed.

Lemma nth_list_set_other {A : Type} (n m : nat) (x d : A) (l : list A) :
  n <> m -> nth m (list_set n x l) d = nth m l d.
Proof.
  revert n m. induction l as [|h t IH]; intros [|n] [|m] H; simpl; auto; try lia.
Qed.

Lemma Forall_list_set {A : Type} (P : A -> Prop) (n : nat) (x : A) (l : list A) :
  Forall P l -> P x -> Forall P (list_set n x l).
Proof.
  intros Hl Hx. revert n.
  induction Hl as [|h t Hh Ht IH]; intros [|n]; simpl; constructor; auto.
Qed.

Lemma np_index_in (len : nat) (i : Z) :
  0 <= i < Z.of_nat len -> np_index len i = Some (Z.to_nat i).
Proof.
  intros H. unfold np_index.
  replace ((0 <=? i) && (i <? Z.of_nat len)) with true; [reflexivity|].
  symmetry. apply andb_true_iff. split; [apply Z.leb_le | apply Z.ltb_lt]; lia.
Qed.

Lemma np_index_out (len : nat) (i : Z) :
  Z.of_nat len <= i \/ i < - Z.of_nat len -> np_index len i = None.
Proof.
  intros H. unfold np_index.
  destruct (0 <=? i) eqn:E1, (i <? Z.of_nat len) eqn:E2,
           (- Z.of_nat len <=? i) eqn:E3, (i <? 0) eqn:E4; simpl; try reflexivity;
    try apply Z.leb_le in E1; try apply Z.ltb_lt in E2;
    try apply Z.leb_le in E3; try apply Z.ltb_lt in E4; lia.
Qed.

Lemma np_index_lt (len : nat) (i : Z) (n : nat) :
  np_index len i = Some n -> (n < len)%nat.
Proof.
  unfold np_index.
  destruct ((0 <=? i) && (i <? Z.of_nat len)) eqn:E1.
  - apply andb_true_iff in E1. destruct E1 as [E1 E2].
    apply Z.leb_le in E1. apply Z.ltb_lt in E2. intros H. inversion H. lia.
  - destruct ((- Z.of_nat len <=? i) && (i <? 0)) eqn:E2; [|discriminate].
    apply andb_true_iff in E2. destruct E2 as [E2 E3].
    apply Z.leb_le in E2. apply Z.ltb_lt in E3. intros H. inversion H. lia.
Qed.

(** ** Reading and writing cells of a well-shaped board *)

Lemma wf_board_length (b : board) : wf_board b -> length b = 6%nat.
Proof. intros [H _]. exact H. Qed.

Lemma wf_board_row (b : board) (r : Z) :
  wf_board b -> 0 <= r < ROWS -> length (nth (Z.to_nat r) b []) = 7%nat.
Proof.
  intros [Hl Hr] H. unfold ROWS in *.
  rewrite Forall_forall in Hr. apply Hr. apply nth_In. rewrite Hl.
  change (Z.to_nat 6) with 6%nat. lia.
Qed.

Lemma wf_create_board : wf_board create_board.
Proof.
  split; [reflexivity|]. apply Forall_forall. intros row H.
  apply repeat_spec in H. subst. reflexivity.
Qed.

Lemma getitem_cell (b : board) (r c : Z) :
  wf_board b -> 0 <= r < ROWS -> 0 <= c < COLS -> getitem b r c = Ok (cell b r c).
Proof.
  intros Hwf Hr Hc. unfold getitem, cell.
  rewrite (wf_board_length b Hwf).
  rewrite np_index_in by (unfold ROWS in Hr; lia).
  rewrite (wf_board_row b r Hwf Hr).
  rewrite np_index_in by (unfold COLS in Hc; lia).
  reflexivity.
Qed.

Lemma getitem_col_error (b : board) (r c : Z) :
  wf_board b -> 0 <= r < ROWS -> COLS <= c \/ c < - COLS ->
  getitem b r c = IndexError.
Proof.
  intros Hwf Hr Hc. unfold getitem.
  rewrite (wf_board_length b Hwf).
  rewrite np_index_in by (unfold ROWS in Hr; lia).
  rewrite (wf_board_row b r Hwf Hr).
  rewrite np_index_out by (unfold COLS in Hc; lia).
  reflexivity.
Qed.

Lemma setitem_col_error (b : board) (r c v : Z) :
  wf_board b -> COLS <= c \/ c < - COLS -> setitem b r c v = IndexError.
Proof.
  intros Hwf Hc. unfold setitem.
  destruct (np_index (length b) r) as [i|] eqn:Hi; [|reflexivity].
  assert (Hlen : length (nth i b []) = 7%nat).
  { destruct Hwf as [Hl Hrows]. rewrite Forall_forall in Hrows.
    apply Hrows. apply nth_In. eapply np_index_lt; eauto. }
  rewrite Hlen. rewrite np_index_out by (unfold COLS in Hc; lia). reflexivity.
Qed.

Lemma setitem_ok (b : board) (r c v : Z) :
  wf_board b -> 0 <= r < ROWS -> 0 <= c < COLS ->
  setitem b r c v =
    Ok (list_set (Z.to_nat r) (list_set (Z.to_nat c) v (nth (Z.to_nat r) b [])) b).
Proof.
  intros Hwf Hr Hc. unfold setitem.
  rewrite (wf_board_length b Hwf).
  rewrite np_index_in by (unfold ROWS in Hr; lia).
  rewrite (wf_board_row b r Hwf Hr).
  rewrite np_index_in by (unfold COLS in Hc; lia).
  reflexivity.
Qed.

Lemma wf_setitem (b b' : board) (r c v : Z) :
  wf_board b -> setitem b r c v = Ok b' -> wf_board b'.
Proof.
  intros Hwf. unfold setitem.
  destruct (np_index (length b) r) as [i|] eqn:Hi; [|discriminate].
  destruct (np_index (length (nth i b [])) c) as [j|] eqn:Hj; [|discriminate].
  intros H. inversion H. subst b'. clear H.
  assert (Hib : (i < length b)%nat) by (eapply np_index_lt; eauto).
  destruct Hwf as [Hl Hrows]. split.
  - rewrite length_list_set. exact Hl.
  - apply Forall_list_set; [exact Hrows|].
    rewrite length_list_set.
    rewrite Forall_forall in Hrows. apply Hrows. now apply nth_In.
Qed.

Lemma cell_list_set (b : board) (r c v r' c' : Z) :
  wf_board b -> 0 <= r < ROWS -> 0 <= c < COLS -> 0 <= r' -> 0 <= c' ->
  cell (list_set (Z.to_nat r) (list_set (Z.to_nat c) v (nth (Z.to_nat r) b [])) b) r' c'
  = if (r' =? r) && (c' =? c) then v else cell b r' c'.
Proof.
  intros Hwf Hr Hc Hr' Hc'. unfold cell.
  destruct (Z.eqb_spec r' r) as [->|Hne]; simpl.
  - rewrite nth_list_set_same
      by (rewrite (wf_board_length b Hwf); unfold ROWS in Hr; lia).
    destruct (Z.eqb_spec c' c) as [->|Hnc].
    + apply nth_list_set_same. rewrite (wf_board_row b r Hwf Hr).
      unfold COLS in Hc. lia.
    + apply nth_list_set_other. lia.
  - rewrite nth_list_set_other by lia. reflexivity.
Qed.

(** ** The landing row *)

Lemma first_open_find (b : board) (c : Z) (rows : list Z) :
  wf_board b -> 0 <= c < COLS -> Forall (fun r => 0 <= r < ROWS) rows ->
  first_open b c rows =
    Ok (find (fun r => cell b r c =? 0) rows).
Proof.
  intros Hwf Hc Hrows. induction Hrows as [|r rest Hr Hrest IH]; simpl.
  - reflexivity.
  - rewrite (getitem_cell b r c Hwf Hr Hc).
    destruct (cell b r c =? 0); [reflexivity | exact IH].
Qed.

Lemma get_next_open_row_find (b : board) (c : Z) :
  wf_board b -> 0 <= c < COLS ->
  get_next_open_row b c = Ok (find (fun r => cell b r c =? 0) [5; 4; 3; 2; 1; 0]).
Proof.
  intros Hwf Hc. unfold get_next_open_row.
  change (rev (zrange 0 ROWS)) with [5; 4; 3; 2; 1; 0].
  apply first_open_find; auto.
  repeat constructor; unfold ROWS; lia.
Qed.

(** On a board, for a column in range, [get_next_open_row] returns the lowest
    empty row of the column, or [None] when the column has no empty cell. *)
Lemma get_next_open_row_spec (b : board) (c : Z) :
  wf_board b -> 0 <= c < COLS ->
  (column_full b c /\ get_next_open_row b c = Ok None)
  \/ (exists r, 0 <= r < ROWS /\ get_next_open_row b c = Ok (Some r)
        /\ cell b r c = 0 /\ forall r', r < r' < ROWS -> cell b r' c <> 0).
Proof.
  intros Hwf Hc. rewrite (get_next_open_row_find b c Hwf Hc). simpl.
  destruct (Z.eqb_spec (cell b 5 c) 0) as [E5|E5];
    [right; exists 5; unfold ROWS; repeat split; auto; try lia; intros; lia|].
  destruct (Z.eqb_spec (cell b 4 c) 0) as [E4|E4];
    [right; exists 4; unfold ROWS; repeat split; auto; try lia; intros r' Hr';
     assert (r' = 5) as -> by lia; assumption|].
  destruct (Z.eqb_spec (cell b 3 c) 0) as [E3|E3];
    [right; exists 3; unfold ROWS; repeat split; auto; try lia; intros r' Hr';
     assert (r' = 4 \/ r' = 5) as [-> | ->] by lia; assumption|].
  destruct (Z.eqb_spec (cell b 2 c) 0) as [E2|E2];
    [right; exists 2; unfold ROWS; repeat split; auto; try lia; intros r' Hr';
     assert (r' = 3 \/ r' = 4 \/ r' = 5) as [-> | [-> | ->]] by lia; assumption|].
  destruct (Z.eqb_spec (cell b 1 c) 0) as [E1|E1];
    [right; exists 1; unfold ROWS; repeat split; auto; try lia; intros r' Hr';
     assert (r' = 2 \/ r' = 3 \/ r' = 4 \/ r' = 5) as [-> | [-> | [-> | ->]]] by lia;
     assumption|].
  destruct (Z.eqb_spec (cell b 0 c) 0) as [E0|E0];
    [right; exists 0; unfold ROWS; repeat split; auto; try lia; intros r' Hr';
     assert (r' = 1 \/ r' = 2 \/ r' = 3 \/ r' = 4 \/ r' = 5)
       as [-> | [-> | [-> | [-> | ->]]]] by lia; assumption|].
  left. split; [|reflexivity].
  intros r Hr. unfold ROWS in Hr.
  assert (r = 0 \/ r = 1 \/ r = 2 \/ r = 3 \/ r = 4 \/ r = 5)
    as [-> | [-> | [-> | [-> | [-> | ->]]]]] by lia; assumption.
Qed.

Lemma is_valid_location_spec (b : board) (c : Z) :
  is_valid_location b c = true <-> 0 <= c < COLS /\ cell b 0 c = 0.
Proof.
  unfold is_valid_location.
  destruct (Z.ltb_spec c 0); destruct (Z.geb_spec c COLS); simpl;
    try (split; [discriminate | lia]).
  rewrite Z.eqb_eq. split; [intros; split; [lia | assumption] | tauto].
Qed.

(** Behind [is_valid_location] the three-line idiom always produces a board:
    the piece lands on the lowest empty row and nothing else changes. *)
Lemma place_valid (b : board) (c player : Z) :
  wf_board b -> is_valid_location b c = true ->
  exists r b',
    place b c player = Some b' /\ wf_board b' /\ 0 <= r < ROWS
    /\ get_next_open_row b c = Ok (Some r)
    /\ cell b r c = 0 /\ (forall r', r < r' < ROWS -> cell b r' c <> 0)
    /\ (forall r' c', 0 <= r' -> 0 <= c' ->
          cell b' r' c' = if (r' =? r) && (c' =? c) then player else cell b r' c').
Proof.
  intros Hwf Hv. apply is_valid_location_spec in Hv. destruct Hv as [Hc Htop].
  destruct (get_next_open_row_spec b c Hwf Hc) as [[Hfull _]|[r [Hr [Hg [Hz Hbelow]]]]].
  - exfalso. apply (Hfull 0); [unfold ROWS; lia | exact Htop].
  - exists r.
    exists (list_set (Z.to_nat r) (list_set (Z.to_nat c) player (nth (Z.to_nat r) b [])) b).
    unfold place, drop_piece. rewrite Hg, (setitem_ok b r c player Hwf Hr Hc).
    repeat split; auto; try lia.
    + rewrite length_list_set. apply Hwf.
    + eapply wf_setitem; [exact Hwf | apply (setitem_ok b r c player Hwf Hr Hc)].
    + intros r' c' Hr' Hc'. apply cell_list_set; auto.
Qed.

(** ** Winning lines *)

Lemma all4_spec (f : Z -> Z) (p : Z) :
  forallb (fun i => f i =? p) (zrange 0 4) = true <-> forall i, 0 <= i < 4 -> f i = p.
Proof.
  rewrite forallb_forall. split.
  - intros H i Hi. apply Z.eqb_eq. apply H. apply In_zrange. exact Hi.
  - intros H i Hi. apply Z.eqb_eq. apply H. apply In_zrange in Hi. exact Hi.
Qed.

Lemma scan_exists (rs cs : list Z) (f : Z -> Z -> bool) :
  existsb (fun r => existsb (fun c => f r c) cs) rs = true
  <-> exists r c, In r rs /\ In c cs /\ f r c = true.
Proof.
  rewrite existsb_exists. split.
  - intros [r [Hr H]]. apply existsb_exists in H. destruct H as [c [Hc H]].
    exists r, c. auto.
  - intros [r [c [Hr [Hc H]]]]. exists r. split; [exact Hr|].
    apply existsb_exists. exists c. auto.
Qed.

Lemma check_win_cases (b : board) (p : Z) :
  check_win b p = true <->
    (exists r c, (0 <= r < ROWS /\ 0 <= c < COLS - 3)
       /\ forall i, 0 <= i < 4 -> cell b r (c + i) = p)
    \/ (exists r c, (0 <= r < ROWS - 3 /\ 0 <= c < COLS)
       /\ forall i, 0 <= i < 4 -> cell b (r + i) c = p)
    \/ (exists r c, (0 <= r < ROWS - 3 /\ 0 <= c < COLS - 3)
       /\ forall i, 0 <= i < 4 -> cell b (r + i) (c + i) = p)
    \/ (exists r c, (3 <= r < ROWS /\ 0 <= c < COLS - 3)
       /\ forall i, 0 <= i < 4 -> cell b (r - i) (c + i) = p).
Proof.
  unfold check_win. rewrite !orb_true_iff, !scan_exists.
  assert (E : forall (rs cs : list Z) (P : Z -> Z -> Prop) (g : Z -> Z -> Z -> Z),
    (forall r c, In r rs /\ In c cs <-> P r c) ->
    ((exists r c, In r rs /\ In c cs
        /\ forallb (fun i => g r c i =? p) (zrange 0 4) = true)
     <-> (exists r c, P r c /\ forall i, 0 <= i < 4 -> g r c i = p))).
  { intros rs cs P g HP. split.
    - intros [r [c [Hr [Hc H]]]]. exists r, c. split; [apply HP; auto|].
      apply (all4_spec (g r c) p). exact H.
    - intros [r [c [H1 H2]]]. apply HP in H1. destruct H1 as [Hr Hc].
      exists r, c. repeat split; auto. apply (all4_spec (g r c) p). exact H2. }
  rewrite (E _ _ (fun r c => 0 <= r < ROWS /\ 0 <= c < COLS - 3)
             (fun r c i => cell b r (c + i)))
    by (intros; rewrite !In_zrange; tauto).
  rewrite (E _ _ (fun r c => 0 <= r < ROWS - 3 /\ 0 <= c < COLS)
             (fun r c i => cell b (r + i) c))
    by (intros; rewrite !In_zrange; tauto).
  rewrite (E _ _ (fun r c => 0 <= r < ROWS - 3 /\ 0 <= c < COLS - 3)
             (fun r c i => cell b (r + i) (c + i)))
    by (intros; rewrite !In_zrange; tauto).
  rewrite (E _ _ (fun r c => 3 <= r < ROWS /\ 0 <= c < COLS - 3)
             (fun r c i => cell b (r - i) (c + i)))
    by (intros; rewrite !In_zrange; tauto).
  tauto.
Qed.

(** C5. [check_win b p] holds exactly when some four consecutive cells of the
    board, taken along a row, a column or one of the two diagonal directions
    and all lying on the board, hold [p]. *)
Theorem check_win_iff_run (b : board) (p : Z) :
  check_win b p = true <-> has_run b p.
Proof.
  rewrite check_win_cases. unfold has_run, run4, in_board, ROWS, COLS. split.
  - intros [H|[H|[H|H]]]; destruct H as [r [c [Hrc H]]]; exists r, c.
    + left. intros i Hi. split; [lia|].
      replace (r + i * 0) with r by lia. replace (c + i * 1) with (c + i) by lia. auto.
    + right; left. intros i Hi. split; [lia|].
      replace (r + i * 1) with (r + i) by lia. replace (c + i * 0) with c by lia. auto.
    + right; right; left. intros i Hi. split; [lia|].
      replace (r + i * 1) with (r + i) by lia. replace (c + i * 1) with (c + i) by lia.
      auto.
    + right; right; right. intros i Hi. split; [lia|].
      replace (r + i * -1) with (r - i) by lia. replace (c + i * 1) with (c + i) by lia.
      auto.
  - intros [r [c [H|[H|[H|H]]]]];
      pose proof (H 0 ltac:(lia)) as [B0 _]; pose proof (H 3 ltac:(lia)) as [B3 _].
    + left. exists r, c. split; [lia|]. intros i Hi. destruct (H i Hi) as [_ E].
      replace (r + i * 0) with r in E by lia. replace (c + i * 1) with (c + i) in E by lia.
      exact E.
    + right; left. exists r, c. split; [lia|]. intros i Hi. destruct (H i Hi) as [_ E].
      replace (r + i * 1) with (r + i) in E by lia. replace (c + i * 0) with c in E by lia.
      exact E.
    + right; right; left. exists r, c. split; [lia|]. intros i Hi.
      destruct (H i Hi) as [_ E].
      replace (r + i * 1) with (r + i) in E by lia.
      replace (c + i * 1) with (c + i) in E by lia. exact E.
    + right; right; right. exists r, c. split; [lia|]. intros i Hi.
      destruct (H i Hi) as [_ E].
      replace (r + i * -1) with (r - i) in E by lia.
      replace (c + i * 1) with (c + i) in E by lia. exact E.
Qed.

(** ** Draws *)

(** [is_draw b] holds exactly when the top cell of every column is occupied;
    the test reads the top row only and never looks at winning lines. *)
Theorem is_draw_iff_top_row_full (b : board) :
  is_draw b = true <-> forall c, 0 <= c < COLS -> cell b 0 c <> 0.
Proof.
  unfold is_draw. rewrite forallb_forall. split.
  - intros H c Hc. apply In_zrange in Hc. apply H in Hc.
    apply negb_true_iff in Hc. apply Z.eqb_neq. exact Hc.
  - intros H c Hc. apply In_zrange in Hc. apply negb_true_iff. apply Z.eqb_neq.
    apply H. exact Hc.
Qed.

(** C6. The code departs from the claim and from the docstring of [is_draw]
    ("True if the board is full with no winner, and False otherwise"): on
    [full_won_board], a full board on which player 2 holds the first four
    cells of row 0, [is_draw] answers true although [check_win] answers true
    for player 2. *)
Lemma is_draw_not_exclusive_with_win :
  wf_board full_won_board
  /\ is_draw full_won_board = true /\ check_win full_won_board 2 = true.
Proof.
  split; [|split; reflexivity].
  split; [reflexivity|]. repeat constructor.
Qed.

Lemma is_terminal_false (b : board) :
  is_terminal b = false ->
  check_win b 1 = false /\ check_win b 2 = false /\ is_draw b = false.
Proof.
  unfold is_terminal. intros H.
  apply orb_false_iff in H. destruct H as [H H3].
  apply orb_false_iff in H. tauto.
Qed.

(** A board that is not drawn has a legal column. *)
Lemma not_draw_valid (b : board) :
  is_draw b = false -> exists c, is_valid_location b c = true.
Proof.
  intros H. destruct (is_valid_location b 0) eqn:E0; [eauto|].
  destruct (is_valid_location b 1) eqn:E1; [eauto|].
  destruct (is_valid_location b 2) eqn:E2; [eauto|].
  destruct (is_valid_location b 3) eqn:E3; [eauto|].
  destruct (is_valid_location b 4) eqn:E4; [eauto|].
  destruct (is_valid_location b 5) eqn:E5; [eauto|].
  destruct (is_valid_location b 6) eqn:E6; [eauto|].
  exfalso. unfold is_draw in H. rewrite zrange_cols in H.
  unfold is_valid_location in *. simpl in *.
  rewrite E0, E1, E2, E3, E4, E5, E6 in H. discriminate.
Qed.

(** ** Columns out of range and full columns *)

(** C7 (amended). On a board, a column index at or beyond [COLS] (or below
    [-COLS]) makes both [get_next_open_row] and [drop_piece] raise
    [IndexError] at once.  A full column in range raises nothing:
    [get_next_open_row] falls through and returns [None], and [drop_piece]
    writes whatever cell it is given, replacing the piece that was there. *)
Theorem full_or_outside_column (b : board) (col : Z) (Hwf : wf_board b) :
  (COLS <= col \/ col < - COLS ->
     get_next_open_row b col = IndexError
     /\ forall row player, drop_piece b row col player = IndexError)
  /\ (0 <= col < COLS -> column_full b col ->
     is_valid_location b col = false
     /\ get_next_open_row b col = Ok None
     /\ forall row player, 0 <= row < ROWS ->
          exists b', drop_piece b row col player = Ok b'
                     /\ cell b' row col = player).
Proof.
  split.
  - intros Hc. split.
    + unfold get_next_open_row. change (rev (zrange 0 ROWS)) with [5; 4; 3; 2; 1; 0].
      simpl. rewrite getitem_col_error; auto. unfold ROWS; lia.
    + intros row player. apply setitem_col_error; auto.
  - intros Hc Hfull. split; [|split].
    + destruct (is_valid_location b col) eqn:E; [|reflexivity].
      apply is_valid_location_spec in E. exfalso.
      apply (Hfull 0); [unfold ROWS; lia | tauto].
    + destruct (get_next_open_row_spec b col Hwf Hc) as [[_ H]|[r [Hr [_ [Hz _]]]]].
      * exact H.
      * exfalso. apply (Hfull r Hr Hz).
    + intros row player Hrow. unfold drop_piece.
      rewrite (setitem_ok b row col player Hwf Hrow Hc).
      eexists. split; [reflexivity|].
      rewrite cell_list_set by (auto; lia).
      rewrite !Z.eqb_refl. reflexivity.
Qed.

Lemma wf_drawn_board : wf_board drawn_board.
Proof. split; [reflexivity|]. repeat constructor. Qed.

Lemma column_full_drawn_board (c : Z) : 0 <= c < COLS -> column_full drawn_board c.
Proof.
  intros Hc r Hr. unfold ROWS, COLS in *.
  assert (r = 0 \/ r = 1 \/ r = 2 \/ r = 3 \/ r = 4 \/ r = 5)
    as [-> | [-> | [-> | [-> | [-> | ->]]]]] by lia;
  assert (c = 0 \/ c = 1 \/ c = 2 \/ c = 3 \/ c = 4 \/ c = 5 \/ c = 6)
    as [-> | [-> | [-> | [-> | [-> | [-> | ->]]]]]] by lia; discriminate.
Qed.

Lemma full_or_outside_column_witness :
  (get_next_open_row drawn_board 7 = IndexError
   /\ forall row player, drop_piece drawn_board row 7 player = IndexError)
  /\ (is_valid_location drawn_board 3 = false
      /\ get_next_open_row drawn_board 3 = Ok None
      /\ forall row player, 0 <= row < ROWS ->
           exists b', drop_piece drawn_board row 3 player = Ok b'
                      /\ cell b' row 3 = player).
Proof.
  destruct (full_or_outside_column drawn_board 7 wf_drawn_board) as [H7 _].
  destruct (full_or_outside_column drawn_board 3 wf_drawn_board) as [_ H3].
  split.
  - apply H7. left. unfold COLS. lia.
  - apply H3; [unfold COLS; lia|]. apply column_full_drawn_board. unfold COLS. lia.
Defined.

(** C7, as stated, fails: on a full column nothing is signalled.
    [get_next_open_row] returns [None] and [drop_piece] overwrites the top
    cell of the column. *)
Lemma full_column_not_rejected :
  wf_board drawn_board /\ column_full drawn_board 0
  /\ get_next_open_row drawn_board 0 = Ok None
  /\ drop_piece drawn_board 0 0 2
     = Ok ([2; 1; 2; 2; 1; 1; 2] :: tl drawn_board).
Proof.
  split; [exact wf_drawn_board|]. split.
  - apply column_full_drawn_board. unfold COLS. lia.
  - split; reflexivity.
Qed.

(** ** The opening move *)

(** C3 (amended). On the empty board at depth 1 every column gets the score
    0 (a lone piece completes no scoring window), so the strict comparison
    keeps the first column examined: the root loop of [play_game_vs_ai]
    returns column 0, and so does [minimax_with_col] for player 1. *)
Theorem opening_move_depth_1 :
  map (terminal_root_score create_board 1) (zrange 0 COLS)
    = [Fin 0; Fin 0; Fin 0; Fin 0; Fin 0; Fin 0; Fin 0]
  /\ AiTerminal.choose_move create_board 1 = Some 0
  /\ PygameGui.minimax_with_col 1 create_board NegInf PosInf true 1 = (Some 0, Fin 0).
Proof. split; [|split]; vm_compute; reflexivity. Qed.

(** C3, as stated, fails: the column chosen on the empty board is not the
    centre column. *)
Lemma opening_move_not_centre :
  AiTerminal.choose_move create_board 1 <> Some 3
  /\ fst (PygameGui.minimax_with_col 1 create_board NegInf PosInf true 1) <> Some 3.
Proof. split; vm_compute; discriminate. Qed.

(** ** Base case of the move-returning search *)

Lemma minimax_with_col_S (d : nat) (b : board) (alpha beta : ext)
    (maximizing : bool) (ai : Z) :
  PygameGui.minimax_with_col (S d) b alpha beta maximizing ai =
    if is_terminal b then (None, Fin (PygameGui.heuristic b ai))
    else if maximizing then
      PygameGui.wc_max_loop
        (fun temp a be => snd (PygameGui.minimax_with_col d temp a be false ai))
        b ai beta (PygameGui.valid_locations b) alpha NegInf
        (hd_error (PygameGui.valid_locations b))
    else
      PygameGui.wc_min_loop
        (fun temp a be => snd (PygameGui.minimax_with_col d temp a be true ai))
        b (if ai =? 2 then 1 else 2) alpha (PygameGui.valid_locations b) beta PosInf
        (hd_error (PygameGui.valid_locations b)).
Proof. reflexivity. Qed.

(** C10. At depth 0, and at any depth on a terminal board, [minimax_with_col]
    returns no column together with the heuristic of the board for the AI
    player; the AI turn of the GUI then leaves the board as it is. *)
Theorem minimax_with_col_base (b : board) (depth : nat) (alpha beta : ext)
    (maximizing : bool) (ai : Z) :
  depth = 0%nat \/ is_terminal b = true ->
  PygameGui.minimax_with_col depth b alpha beta maximizing ai
    = (None, Fin (PygameGui.heuristic b ai))
  /\ PygameGui.ai_turn b depth ai = b.
Proof.
  intros H.
  assert (E : forall al be m, PygameGui.minimax_with_col depth b al be m ai
                = (None, Fin (PygameGui.heuristic b ai))).
  { intros al be m. destruct H as [-> | H]; [reflexivity|].
    destruct depth as [|d]; [reflexivity|].
    rewrite minimax_with_col_S, H. reflexivity. }
  split; [apply E|].
  unfold PygameGui.ai_turn. rewrite E. reflexivity.
Qed.

Lemma minimax_with_col_base_witness :
  PygameGui.minimax_with_col 4 full_won_board NegInf PosInf true 1
    = (None, Fin (PygameGui.heuristic full_won_board 1))
  /\ PygameGui.ai_turn full_won_board 4 1 = full_won_board.
Proof.
  apply (minimax_with_col_base full_won_board 4 NegInf PosInf true 1).
  right. vm_compute. reflexivity.
Defined.

(** The two copies of the heuristic agree. *)
Lemma score_window_copies_agree (window : list Z) (player : Z) :
  PygameGui.score_window window player = AiTerminal.score_window window player.
Proof. reflexivity. Qed.

Lemma scan_ext (rs cs : list Z) (f g : Z -> Z -> Z) (score : Z) :
  (forall r c, f r c = g r c) ->
  PygameGui.scan rs cs f score = AiTerminal.scan rs cs g score.
Proof.
  intros H. unfold PygameGui.scan, AiTerminal.scan. revert score.
  induction rs as [|r rs IH]; intros score; simpl; [reflexivity|].
  rewrite <- IH. f_equal. clear IH. revert score.
  induction cs as [|c cs IHc]; intros score; simpl; [reflexivity|].
  rewrite H. apply IHc.
Qed.

Lemma heuristic_copies_agree (b : board) (player : Z) :
  PygameGui.heuristic b player = AiTerminal.heuristic b player.
Proof.
  unfold PygameGui.heuristic, AiTerminal.heuristic.
  rewrite (scan_ext _ _ _ (fun r c =>
    AiTerminal.score_window (map (fun i => cell b r (c + i)) (zrange 0 4)) player) 0)
    by (intros; apply score_window_copies_agree).
  rewrite (scan_ext (zrange 0 (ROWS - 3)) (zrange 0 COLS) _ (fun r c =>
    AiTerminal.score_window (map (fun i => cell b (r + i) c) (zrange 0 4)) player))
    by (intros; apply score_window_copies_agree).
  rewrite (scan_ext (zrange 0 (ROWS - 3)) (zrange 0 (COLS - 3)) _ (fun r c =>
    AiTerminal.score_window (map (fun i => cell b (r + i) (c + i)) (zrange 0 4)) player))
    by (intros; apply score_window_copies_agree).
  apply scan_ext. intros; apply score_window_copies_agree.
Qed.

(** ** Successor boards and gravity *)

Lemma in_get_children (b : board) (player : Z) (child : board) :
  In child (get_children b player) <->
  exists c, is_valid_location b c = true /\ place b c player = Some child.
Proof.
  unfold get_children. rewrite in_flat_map. split.
  - intros [c [_ H]]. exists c.
    destruct (is_valid_location b c); [|destruct H].
    destruct (place b c player) as [nb|]; [|destruct H].
    destruct H as [H|[]]. subst. auto.
  - intros [c [Hv Hp]]. exists c. split.
    + apply In_zrange. apply is_valid_location_spec in Hv. tauto.
    + rewrite Hv, Hp. left. reflexivity.
Qed.

Lemma place_gravity (b child : board) (c player : Z) :
  wf_board b -> gravity b -> is_valid_location b c = true ->
  place b c player = Some child -> gravity child.
Proof.
  intros Hwf Hg Hv Hp.
  destruct (place_valid b c player Hwf Hv)
    as [r [b' [Hp' [_ [Hr [_ [Hz [Hbelow Hcell]]]]]]]].
  rewrite Hp in Hp'. inversion Hp'. subst b'. clear Hp'.
  apply is_valid_location_spec in Hv. destruct Hv as [Hc _].
  intros c' Hc'. destruct (Hg c' Hc') as [k [Hk Hcol]].
  destruct (Z.eq_dec c' c) as [->|Hne].
  - (* the column that received the piece *)
    assert (Hkr : k = r + 1).
    { assert (r < k) by (apply Hcol; auto).
      destruct (Z.eq_dec r (ROWS - 1)) as [E|E]; [lia|].
      assert (Hn : cell b (r + 1) c <> 0) by (apply Hbelow; lia).
      assert (~ r + 1 < k) by (intro Hlt; apply Hn; apply Hcol; [lia | exact Hlt]).
      lia. }
    destruct (Z.eq_dec player 0) as [Hp0|Hp0].
    + exists k. split; [exact Hk|]. intros r' Hr'.
      rewrite Hcell by lia. rewrite Z.eqb_refl, andb_true_r.
      destruct (Z.eqb_spec r' r) as [->|Hrr]; [|apply Hcol; exact Hr'].
      split; [lia | intros _; exact Hp0].
    + exists r. split; [lia|]. intros r' Hr'.
      rewrite Hcell by lia. rewrite Z.eqb_refl, andb_true_r.
      destruct (Z.eqb_spec r' r) as [->|Hrr]; [split; [contradiction | lia]|].
      rewrite (Hcol r' Hr'). lia.
  - (* any other column is untouched *)
    exists k. split; [exact Hk|]. intros r' Hr'.
    rewrite Hcell by lia.
    replace (c' =? c) with false by (symmetry; apply Z.eqb_neq; exact Hne).
    rewrite andb_false_r. apply Hcol. exact Hr'.
Qed.

(** C9. Every successor produced by [get_children] from a board that obeys
    gravity obeys gravity again (and keeps the 6x7 shape): the piece lands
    on the lowest empty cell of its column, so no piece floats. *)
Theorem get_children_gravity (b child : board) (player : Z) :
  wf_board b -> gravity b -> In child (get_children b player) ->
  wf_board child /\ gravity child.
Proof.
  intros Hwf Hg Hin. apply in_get_children in Hin.
  destruct Hin as [c [Hv Hp]]. split.
  - destruct (place_valid b c player Hwf Hv) as [r [b' [Hp' [Hwf' _]]]].
    rewrite Hp in Hp'. inversion Hp'. subst. exact Hwf'.
  - eapply place_gravity; eauto.
Qed.

Lemma gravity_create_board : gravity create_board.
Proof.
  intros c Hc. exists ROWS. split; [unfold ROWS; lia|].
  intros r Hr. split; [lia|]. intros _. unfold ROWS, COLS in *.
  assert (r = 0 \/ r = 1 \/ r = 2 \/ r = 3 \/ r = 4 \/ r = 5)
    as [-> | [-> | [-> | [-> | [-> | ->]]]]] by lia;
  assert (c = 0 \/ c = 1 \/ c = 2 \/ c = 3 \/ c = 4 \/ c = 5 \/ c = 6)
    as [-> | [-> | [-> | [-> | [-> | [-> | ->]]]]]] by lia; reflexivity.
Qed.

Lemma get_children_gravity_witness :
  let child := [[0; 0; 0; 0; 0; 0; 0]; [0; 0; 0; 0; 0; 0; 0]; [0; 0; 0; 0; 0; 0; 0];
                [0; 0; 0; 0; 0; 0; 0]; [0; 0; 0; 0; 0; 0; 0]; [0; 0; 0; 1; 0; 0; 0]] in
  wf_board child /\ gravity child.
Proof.
  intros child.
  apply (get_children_gravity create_board child 1 wf_create_board gravity_create_board).
  vm_compute. tauto.
Defined.

(** ** Scores of the terminal search are finite *)

Lemma zrange_cons (lo hi : Z) : lo < hi -> zrange lo hi = lo :: zrange (lo + 1) hi.
Proof.
  intros H. unfold zrange.
  replace (Z.to_nat (hi - lo)) with (S (Z.to_nat (hi - (lo + 1)))) by lia.
  simpl. f_equal; [lia|].
  rewrite <- seq_shift, map_map. apply map_ext. intros k. lia.
Qed.

Lemma zrange_nil (lo hi : Z) : hi <= lo -> zrange lo hi = [].
Proof.
  intros H. unfold zrange. replace (Z.to_nat (hi - lo)) with 0%nat by lia. reflexivity.
Qed.

Lemma ext_max_fin (a : ext) (z : Z) :
  a = NegInf \/ (exists x, a = Fin x) -> exists y, ext_max a (Fin z) = Fin y.
Proof.
  intros [-> | [x ->]]; unfold ext_max; simpl; [eauto|].
  destruct (x <? z); eauto.
Qed.

Lemma ext_min_fin (a : ext) (z : Z) :
  a = PosInf \/ (exists x, a = Fin x) -> exists y, ext_min a (Fin z) = Fin y.
Proof.
  intros [-> | [x ->]]; unfold ext_min; simpl; [eauto|].
  destruct (z <? x); eauto.
Qed.

Lemma max_loop_fin (rec : board -> ext -> ext -> ext) (beta : ext)
    (children : list board) :
  (forall child a be, In child children -> exists z, rec child a be = Fin z) ->
  forall alpha max_eval,
    (max_eval = NegInf /\ children <> []) \/ (exists x, max_eval = Fin x) ->
    exists z, AiTerminal.max_loop rec beta children alpha max_eval = Fin z.
Proof.
  induction children as [|child rest IH]; intros Hrec alpha max_eval Hm.
  - simpl. destruct Hm as [[_ H]|H]; [contradiction | exact H].
  - simpl. destruct (Hrec child alpha beta (or_introl eq_refl)) as [v Hv].
    rewrite Hv.
    assert (Hf : exists y, ext_max max_eval (Fin v) = Fin y).
    { apply ext_max_fin. destruct Hm as [[H _]|H]; auto. }
    destruct (ext_leb beta (ext_max alpha (Fin v))); [exact Hf|].
    apply IH; [intros; apply Hrec; right; assumption | right; exact Hf].
Qed.

Lemma min_loop_fin (rec : board -> ext -> ext -> ext) (alpha : ext)
    (children : list board) :
  (forall child a be, In child children -> exists z, rec child a be = Fin z) ->
  forall beta min_eval,
    (min_eval = PosInf /\ children <> []) \/ (exists x, min_eval = Fin x) ->
    exists z, AiTerminal.min_loop rec alpha children beta min_eval = Fin z.
Proof.
  induction children as [|child rest IH]; intros Hrec beta min_eval Hm.
  - simpl. destruct Hm as [[_ H]|H]; [contradiction | exact H].
  - simpl. destruct (Hrec child alpha beta (or_introl eq_refl)) as [v Hv].
    rewrite Hv.
    assert (Hf : exists y, ext_min min_eval (Fin v) = Fin y).
    { apply ext_min_fin. destruct Hm as [[H _]|H]; auto. }
    destruct (ext_leb (ext_min beta (Fin v)) alpha); [exact Hf|].
    apply IH; [intros; apply Hrec; right; assumption | right; exact Hf].
Qed.

Lemma get_children_wf (b child : board) (player : Z) :
  wf_board b -> In child (get_children b player) -> wf_board child.
Proof.
  intros Hwf Hin. apply in_get_children in Hin. destruct Hin as [c [Hv Hp]].
  destruct (place_valid b c player Hwf Hv) as [r [b' [Hp' [Hwf' _]]]].
  rewrite Hp in Hp'. inversion Hp'. subst. exact Hwf'.
Qed.

Lemma get_children_nonempty (b : board) (player : Z) :
  wf_board b -> is_draw b = false -> get_children b player <> [].
Proof.
  intros Hwf Hd. destruct (not_draw_valid b Hd) as [c Hv].
  destruct (place_valid b c player Hwf Hv) as [r [b' [Hp _]]].
  assert (Hin : In b' (get_children b player)) by (apply in_get_children; eauto).
  intros E. rewrite E in Hin. destruct Hin.
Qed.

Lemma minimax_S (d : nat) (b : board) (alpha beta : ext) (maximizing_player : bool) :
  AiTerminal.minimax (S d) b alpha beta maximizing_player =
    if is_terminal b then Fin (AiTerminal.heuristic b 1)
    else if maximizing_player then
      AiTerminal.max_loop (fun child a be => AiTerminal.minimax d child a be false)
        beta (get_children b 1) alpha NegInf
    else
      AiTerminal.min_loop (fun child a be => AiTerminal.minimax d child a be true)
        alpha (get_children b 2) beta PosInf.
Proof. reflexivity. Qed.

(** On a board the terminal search always returns an integer score. *)
Lemma minimax_fin (d : nat) :
  forall b alpha beta m, wf_board b ->
    exists z, AiTerminal.minimax d b alpha beta m = Fin z.
Proof.
  induction d as [|d IH]; intros b alpha beta m Hwf.
  - simpl. eauto.
  - rewrite minimax_S. destruct (is_terminal b) eqn:Ht; [eauto|].
    apply is_terminal_false in Ht. destruct Ht as [_ [_ Hd]].
    destruct m.
    + apply max_loop_fin.
      * intros child a be Hin. apply IH. eapply get_children_wf; eauto.
      * left. split; [reflexivity|]. apply get_children_nonempty; auto.
    + apply min_loop_fin.
      * intros child a be Hin. apply IH. eapply get_children_wf; eauto.
      * left. split; [reflexivity|]. apply get_children_nonempty; auto.
Qed.

(** ** Deciding order facts on scores *)

Lemma ltb_true (a b : ext) : ext_ltb a b = true -> ExtOrd.lt a b.
Proof. auto. Qed.
Lemma ltb_false (a b : ext) : ext_ltb a b = false -> ExtOrd.le b a.
Proof. unfold ExtOrd.le, ext_le, ext_leb. intros ->. reflexivity. Qed.
Lemma leb_true (a b : ext) : ext_leb a b = true -> ExtOrd.le a b.
Proof. auto. Qed.
Lemma leb_false (a b : ext) : ext_leb a b = false -> ExtOrd.lt b a.
Proof. unfold ExtOrd.lt, ext_lt, ext_leb. intros H. apply negb_false_iff in H. exact H. Qed.

Lemma neg_inf_least (a : ext) : ExtOrd.le NegInf a.
Proof. destruct a; reflexivity. Qed.

Lemma pos_inf_greatest (a : ext) : ExtOrd.le a PosInf.
Proof. destruct a; reflexivity. Qed.

(** [ext_order] settles a goal that follows from the order facts at hand:
    it splits the tests of [max], [min] and of implications into cases and
    calls [order]. *)
Ltac ext_atoms :=
  repeat match goal with
  | H : ext_ltb _ _ = true |- _ => apply ltb_true in H
  | H : ext_ltb _ _ = false |- _ => apply ltb_false in H
  | H : ext_leb _ _ = true |- _ => apply leb_true in H
  | H : ext_leb _ _ = false |- _ => apply leb_false in H
  | H : true = true -> _ |- _ => specialize (H eq_refl)
  | H : false = true -> _ |- _ => clear H
  | H : _ /\ _ |- _ => destruct H
  | H : @Logic.eq ext ?a ?b |- _ => change (ExtOrd.eq a b) in H
  end.

Ltac ext_goal :=
  lazymatch goal with
  | |- ext_ltb ?a ?b = true => change (ExtOrd.lt a b)
  | |- ext_leb ?a ?b = true => change (ExtOrd.le a b)
  | |- @Logic.eq ext ?a ?b => change (ExtOrd.eq a b)
  | |- _ => idtac
  end.

Ltac ext_split :=
  match goal with
  | |- context [if ext_ltb ?a ?b then _ else _] => destruct (ext_ltb a b) eqn:?
  | H : context [if ext_ltb ?a ?b then _ else _] |- _ => destruct (ext_ltb a b) eqn:?
  | H : ext_ltb ?a ?b = true -> _ |- _ => destruct (ext_ltb a b) eqn:?
  | H : ext_leb ?a ?b = true -> _ |- _ => destruct (ext_leb a b) eqn:?
  end.

Ltac ext_search :=
  ext_atoms; ext_goal;
  first [ solve [ExtTac.order] | ext_split; ext_search ].

Ltac ext_order :=
  unfold bounds, ext_le, ext_lt, ext_max, ext_min in *; intros;
  repeat match goal with
  | x : ext |- _ =>
      lazymatch goal with
      | _ : ExtOrd.le NegInf x |- _ => fail
      | _ => pose proof (neg_inf_least x); pose proof (pos_inf_greatest x)
      end
  end;
  ext_search.

(** ** The root loop of [play_game_vs_ai] *)

Section RootLoop.
Variable score : board -> ext.
Variable b : board.

(** Score reached by column [c] in the loop. *)
Let sc (c : Z) : ext :=
  match place b c 1 with
  | Some temp_board => score temp_board
  | None => NegInf
  end.

Hypothesis sc_fin : forall c, is_valid_location b c = true -> exists z, sc c = Fin z.

(** State of the loop once the columns below [lo] have been examined. *)
Let inv (lo : Z) (best_score : ext) (best_col : option Z) : Prop :=
  match best_col with
  | None => best_score = NegInf /\ forall c, c < lo -> is_valid_location b c = false
  | Some c0 =>
      c0 < lo /\ is_valid_location b c0 = true /\ sc c0 = best_score
      /\ (forall c, c < lo -> is_valid_location b c = true -> ext_le (sc c) best_score)
      /\ (forall c, c < c0 -> is_valid_location b c = true -> ext_lt (sc c) best_score)
  end.

Lemma root_loop_step (lo : Z) (best_score : ext) (best_col : option Z) (rest : list Z) :
  inv lo best_score best_col ->
  exists s' col',
    AiTerminal.root_loop score b (lo :: rest) best_score best_col
      = AiTerminal.root_loop score b rest s' col'
    /\ inv (lo + 1) s' col'.
Proof.
  intros Hinv. simpl.
  destruct (is_valid_location b lo) eqn:Hv.
  - destruct (sc_fin lo Hv) as [z Hz]. unfold sc in Hz.
    destruct (place b lo 1) as [t|] eqn:Hp; [|discriminate].
    destruct (ext_ltb best_score (score t)) eqn:Hlt.
    + exists (score t), (Some lo). split; [reflexivity|].
      unfold inv. repeat split; auto; try lia.
      * unfold sc. rewrite Hp. reflexivity.
      * intros c Hc Hvc. destruct (Z.eq_dec c lo) as [->|Hne].
        -- unfold sc. rewrite Hp. ext_order.
        -- assert (Hle : ext_le (sc c) best_score).
           { destruct best_col as [c0|]; unfold inv in Hinv.
             - apply Hinv; [lia | exact Hvc].
             - destruct Hinv as [_ Hnone]. rewrite Hnone in Hvc by lia. discriminate. }
           clear Hinv. ext_order.
      * intros c Hc Hvc.
        assert (Hle : ext_le (sc c) best_score).
        { destruct best_col as [c0|]; unfold inv in Hinv.
          - apply Hinv; [lia | exact Hvc].
          - destruct Hinv as [_ Hnone]. rewrite Hnone in Hvc by lia. discriminate. }
        clear Hinv. ext_order.
    + exists best_score, best_col. split; [reflexivity|].
      destruct best_col as [c0|]; unfold inv in *.
      * destruct Hinv as [H1 [H2 [H3 [H4 H5]]]]. repeat split; auto; try lia.
        intros c Hc Hvc. destruct (Z.eq_dec c lo) as [->|Hne].
        -- unfold sc at 1. rewrite Hp. clear H4 H5. ext_order.
        -- apply H4; [lia | exact Hvc].
      * destruct Hinv as [Hs _]. subst best_score. rewrite Hz in Hlt. discriminate.
  - exists best_score, best_col. split; [reflexivity|].
    destruct best_col as [c0|]; unfold inv in *.
    + destruct Hinv as [H1 [H2 [H3 [H4 H5]]]]. repeat split; auto; try lia.
      intros c Hc Hvc. destruct (Z.eq_dec c lo) as [->|Hne].
      * rewrite Hv in Hvc. discriminate.
      * apply H4; [lia | exact Hvc].
    + destruct Hinv as [Hs Hnone]. split; [exact Hs|].
      intros c Hc. destruct (Z.eq_dec c lo) as [->|Hne]; [exact Hv|].
      apply Hnone. lia.
Qed.

Lemma root_loop_range (n : nat) :
  forall lo best_score best_col,
    Z.to_nat (COLS - lo) = n -> lo <= COLS ->
    inv lo best_score best_col ->
    inv COLS
      (fst (AiTerminal.root_loop score b (zrange lo COLS) best_score best_col))
      (snd (AiTerminal.root_loop score b (zrange lo COLS) best_score best_col)).
Proof.
  induction n as [|n IH]; intros lo best_score best_col Hn Hlo Hinv.
  - assert (lo = COLS) as -> by lia. rewrite zrange_nil by lia. exact Hinv.
  - rewrite zrange_cons by lia.
    destruct (root_loop_step lo best_score best_col (zrange (lo + 1) COLS) Hinv)
      as [s' [col' [E Hinv']]].
    rewrite E. apply IH; [lia | lia | exact Hinv'].
Qed.

(** Outcome of the whole loop: no column when none is legal, otherwise the
    lowest-indexed legal column among those of maximal score. *)
Lemma root_loop_result :
  match snd (AiTerminal.root_loop score b (zrange 0 COLS) NegInf None) with
  | None => forall c, is_valid_location b c = false
  | Some c0 => lowest_best b sc c0
  end.
Proof.
  pose proof (root_loop_range (Z.to_nat COLS) 0 NegInf None) as H.
  specialize (H ltac:(unfold COLS; lia) ltac:(unfold COLS; lia)).
  assert (H0 : inv 0 NegInf None).
  { split; [reflexivity|]. intros c Hc.
    destruct (is_valid_location b c) eqn:E; [|reflexivity].
    apply is_valid_location_spec in E. lia. }
  specialize (H H0). clear H0.
  destruct (snd (AiTerminal.root_loop score b (zrange 0 COLS) NegInf None)) as [c0|].
  - destruct H as [H1 [H2 [H3 [H4 H5]]]]. unfold lowest_best.
    rewrite H3. split; [exact H2|]. split.
    + intros c Hc. apply H4; [|exact Hc]. apply is_valid_location_spec in Hc. lia.
    + intros c Hc Hlt. apply H5; auto.
  - destruct H as [_ H]. intros c.
    destruct (is_valid_location b c) eqn:E; [|reflexivity].
    rewrite <- E. apply H. apply is_valid_location_spec in E. lia.
Qed.
End RootLoop.

(** ** Alpha-beta loops against the exact value of a node *)

Section AlphaBetaLoops.
Variable rec : board -> ext -> ext -> ext.
Variable value_of : board -> ext.

Lemma max_loop_bounds (beta : ext) (cs : list board) :
  (forall child a be, In child cs -> ext_lt a be ->
     bounds a be (rec child a be) (value_of child)) ->
  forall alpha value, ext_lt alpha beta -> ext_le value alpha ->
    let r := AiTerminal.max_loop rec beta cs alpha value in
    ext_le value r
    /\ (ext_le r alpha -> ext_le (max_of value_of cs) r)
    /\ (ext_lt alpha r -> ext_lt r beta -> r = max_of value_of cs)
    /\ (ext_le beta r -> ext_le r (max_of value_of cs)).
Proof.
  induction cs as [|child rest IH]; intros Hrec alpha value Hab Hva; simpl.
  - (split; [|split; [|split]]); ext_order.
  - pose proof (Hrec child alpha beta (or_introl eq_refl) Hab) as Hv.
    unfold bounds in Hv.
    remember (rec child alpha beta) as v eqn:Ev. clear Ev.
    remember (value_of child) as mc eqn:Emc. clear Emc.
    remember (max_of value_of rest) as mrest eqn:Emr.
    remember (ext_max alpha v) as alpha' eqn:Ea.
    remember (ext_max value v) as value' eqn:Eval.
    destruct (ext_leb beta alpha') eqn:Hcut.
    + clear IH Hrec Emr. (split; [|split; [|split]]); ext_order.
    + assert (Hab' : ext_lt alpha' beta) by (clear IH Hrec Hv Emr; ext_order).
      assert (Hva' : ext_le value' alpha') by (clear IH Hrec Hv Emr; ext_order).
      specialize (IH (fun c a be Hin => Hrec c a be (or_intror Hin)) alpha' value'
                     Hab' Hva').
      simpl in IH. clear Emr Hrec.
      remember (AiTerminal.max_loop rec beta rest alpha' value') as r eqn:Er. clear Er.
      destruct IH as [I1 [I2 [I3 I4]]]. destruct Hv as [V1 [V2 V3]].
      (split; [|split; [|split]]); ext_order.
Qed.

Lemma min_loop_bounds (alpha : ext) (cs : list board) :
  (forall child a be, In child cs -> ext_lt a be ->
     bounds a be (rec child a be) (value_of child)) ->
  forall beta value, ext_lt alpha beta -> ext_le beta value ->
    let r := AiTerminal.min_loop rec alpha cs beta value in
    ext_le r value
    /\ (ext_le r alpha -> ext_le (min_of value_of cs) r)
    /\ (ext_lt alpha r -> ext_lt r beta -> r = min_of value_of cs)
    /\ (ext_le beta r -> ext_le r (min_of value_of cs)).
Proof.
  induction cs as [|child rest IH]; intros Hrec beta value Hab Hva; simpl.
  - (split; [|split; [|split]]); ext_order.
  - pose proof (Hrec child alpha beta (or_introl eq_refl) Hab) as Hv.
    unfold bounds in Hv.
    remember (rec child alpha beta) as v eqn:Ev. clear Ev.
    remember (value_of child) as mc eqn:Emc. clear Emc.
    remember (min_of value_of rest) as mrest eqn:Emr.
    remember (ext_min beta v) as beta' eqn:Eb.
    remember (ext_min value v) as value' eqn:Eval.
    destruct (ext_leb beta' alpha) eqn:Hcut.
    + clear IH Hrec Emr. (split; [|split; [|split]]); ext_order.
    + assert (Hab' : ext_lt alpha beta') by (clear IH Hrec Hv Emr; ext_order).
      assert (Hva' : ext_le beta' value') by (clear IH Hrec Hv Emr; ext_order).
      specialize (IH (fun c a be Hin => Hrec c a be (or_intror Hin)) beta' value'
                     Hab' Hva').
      simpl in IH. clear Emr Hrec.
      remember (AiTerminal.min_loop rec alpha rest beta' value') as r eqn:Er. clear Er.
      destruct IH as [I1 [I2 [I3 I4]]]. destruct Hv as [V1 [V2 V3]].
      (split; [|split; [|split]]); ext_order.
Qed.
End AlphaBetaLoops.

(** ** The pruned search computes the unpruned value *)

Lemma bounds_same (alpha beta r : ext) : bounds alpha beta r r.
Proof. unfold bounds. split; [|split]; intros; ext_order. Qed.

Lemma bounds_full_window (r m : ext) : bounds NegInf PosInf r m -> r = m.
Proof. intros H. ext_order. Qed.

Lemma ext_max_neg_inf (a : ext) : ext_max NegInf a = a.
Proof. destruct a; reflexivity. Qed.

Lemma ext_min_pos_inf (a : ext) : ext_min PosInf a = a.
Proof. destruct a; reflexivity. Qed.

Lemma minimax_ab_S (d : nat) (b : board) (alpha beta : ext) (m : bool) (counter : nat) :
  Evaluation.minimax_ab (S d) b alpha beta m counter =
    if is_terminal b then (Fin (AiTerminal.heuristic b 1), S counter)
    else if m then
      Evaluation.ab_max_loop (fun child a be k => Evaluation.minimax_ab d child a be false k)
        beta (get_children b 1) alpha NegInf (S counter)
    else
      Evaluation.ab_min_loop (fun child a be k => Evaluation.minimax_ab d child a be true k)
        alpha (get_children b 2) beta PosInf (S counter).
Proof. reflexivity. Qed.

Lemma minimax_no_pruning_S (d : nat) (b : board) (m : bool) (counter : nat) :
  Evaluation.minimax_no_pruning (S d) b m counter =
    if is_terminal b then (Fin (AiTerminal.heuristic b 1), S counter)
    else if m then
      Evaluation.np_max_loop (fun child k => Evaluation.minimax_no_pruning d child false k)
        (get_children b 1) NegInf (S counter)
    else
      Evaluation.np_min_loop (fun child k => Evaluation.minimax_no_pruning d child true k)
        (get_children b 2) PosInf (S counter).
Proof. reflexivity. Qed.

(** The score of [minimax_ab] does not depend on the counter: its loops are
    the loops of the terminal [minimax]. *)
Lemma ab_max_loop_value (rec : board -> ext -> ext -> nat -> ext * nat)
    (rec' : board -> ext -> ext -> ext) (beta : ext) (cs : list board) :
  (forall child a be k, fst (rec child a be k) = rec' child a be) ->
  forall alpha value k,
    fst (Evaluation.ab_max_loop rec beta cs alpha value k)
    = AiTerminal.max_loop rec' beta cs alpha value.
Proof.
  intros Hrec. induction cs as [|child rest IH]; intros alpha value k; simpl.
  - reflexivity.
  - rewrite <- (Hrec child alpha beta k).
    destruct (rec child alpha beta k) as [v k']. simpl.
    change (if ext_ltb value v then v else value) with (ext_max value v).
    destruct (ext_leb beta (ext_max alpha v)); [reflexivity | apply IH].
Qed.

Lemma ab_min_loop_value (rec : board -> ext -> ext -> nat -> ext * nat)
    (rec' : board -> ext -> ext -> ext) (alpha : ext) (cs : list board) :
  (forall child a be k, fst (rec child a be k) = rec' child a be) ->
  forall beta value k,
    fst (Evaluation.ab_min_loop rec alpha cs beta value k)
    = AiTerminal.min_loop rec' alpha cs beta value.
Proof.
  intros Hrec. induction cs as [|child rest IH]; intros beta value k; simpl.
  - reflexivity.
  - rewrite <- (Hrec child alpha beta k).
    destruct (rec child alpha beta k) as [v k']. simpl.
    change (if ext_ltb v value then v else value) with (ext_min value v).
    destruct (ext_leb (ext_min beta v) alpha); [reflexivity | apply IH].
Qed.

Lemma minimax_ab_value (d : nat) :
  forall b alpha beta m k,
    fst (Evaluation.minimax_ab d b alpha beta m k) = AiTerminal.minimax d b alpha beta m.
Proof.
  induction d as [|d IH]; intros b alpha beta m k; [reflexivity|].
  rewrite minimax_ab_S, minimax_S.
  destruct (is_terminal b); [reflexivity|]. destruct m.
  - apply ab_max_loop_value. intros; apply IH.
  - apply ab_min_loop_value. intros; apply IH.
Qed.

(** The loops of [minimax_no_pruning] compute the plain maximum (minimum) of
    the successors' values. *)
Lemma np_max_loop_value (rec : board -> nat -> ext * nat) (value_of : board -> ext)
    (cs : list board) :
  (forall child k, fst (rec child k) = value_of child) ->
  forall value k,
    fst (Evaluation.np_max_loop rec cs value k) = ext_max value (max_of value_of cs).
Proof.
  intros Hrec. induction cs as [|child rest IH]; intros value k; simpl.
  - destruct value; reflexivity.
  - rewrite <- (Hrec child k). destruct (rec child k) as [v k']. simpl.
    rewrite IH. change (if ext_ltb value v then v else value) with (ext_max value v).
    remember (max_of value_of rest) as mrest eqn:E. clear E. ext_order.
Qed.

Lemma np_min_loop_value (rec : board -> nat -> ext * nat) (value_of : board -> ext)
    (cs : list board) :
  (forall child k, fst (rec child k) = value_of child) ->
  forall value k,
    fst (Evaluation.np_min_loop rec cs value k) = ext_min value (min_of value_of cs).
Proof.
  intros Hrec. induction cs as [|child rest IH]; intros value k; simpl.
  - destruct value; reflexivity.
  - rewrite <- (Hrec child k). destruct (rec child k) as [v k']. simpl.
    rewrite IH. change (if ext_ltb v value then v else value) with (ext_min value v).
    remember (min_of value_of rest) as mrest eqn:E. clear E. ext_order.
Qed.

Lemma minimax_no_pruning_value (d : nat) :
  forall b m k,
    fst (Evaluation.minimax_no_pruning d b m k)
    = fst (Evaluation.minimax_no_pruning d b m 0).
Proof.
  induction d as [|d IH]; intros b m k; [reflexivity|].
  rewrite !minimax_no_pruning_S.
  destruct (is_terminal b); [reflexivity|]. destruct m.
  - rewrite !(np_max_loop_value _
               (fun child => fst (Evaluation.minimax_no_pruning d child false 0)))
      by (intros; apply IH).
    reflexivity.
  - rewrite !(np_min_loop_value _
               (fun child => fst (Evaluation.minimax_no_pruning d child true 0)))
      by (intros; apply IH).
    reflexivity.
Qed.

(** Fail-soft correctness of the pruned search for every window. *)
Lemma minimax_bounds (d : nat) :
  forall b alpha beta m, ext_lt alpha beta ->
    bounds alpha beta (AiTerminal.minimax d b alpha beta m)
      (fst (Evaluation.minimax_no_pruning d b m 0)).
Proof.
  induction d as [|d IH]; intros b alpha beta m Hab; [apply bounds_same|].
  rewrite minimax_S, minimax_no_pruning_S.
  destruct (is_terminal b); [apply bounds_same|]. destruct m.
  - rewrite (np_max_loop_value _
               (fun child => fst (Evaluation.minimax_no_pruning d child false 0)))
      by (intros; apply minimax_no_pruning_value).
    rewrite ext_max_neg_inf.
    pose proof (max_loop_bounds
      (fun child a be => AiTerminal.minimax d child a be false)
      (fun child => fst (Evaluation.minimax_no_pruning d child false 0))
      beta (get_children b 1) (fun child a be _ H => IH child a be false H)
      alpha NegInf Hab (neg_inf_least alpha)) as H.
    simpl in H. destruct H as [_ [H1 [H2 H3]]].
    unfold bounds. auto.
  - rewrite (np_min_loop_value _
               (fun child => fst (Evaluation.minimax_no_pruning d child true 0)))
      by (intros; apply minimax_no_pruning_value).
    rewrite ext_min_pos_inf.
    pose proof (min_loop_bounds
      (fun child a be => AiTerminal.minimax d child a be true)
      (fun child => fst (Evaluation.minimax_no_pruning d child true 0))
      alpha (get_children b 2) (fun child a be _ H => IH child a be true H)
      beta PosInf Hab (pos_inf_greatest beta)) as H.
    simpl in H. destruct H as [_ [H1 [H2 H3]]].
    unfold bounds. auto.
Qed.

(** C1. Started on the full window, the alpha-beta search returns exactly
    the score of the search without pruning, for every board, depth and
    side to move, whatever the counters hold. *)
Theorem minimax_ab_equals_no_pruning (b : board) (d : nat) (m : bool) (k k' : nat) :
  fst (Evaluation.minimax_ab d b NegInf PosInf m k)
  = fst (Evaluation.minimax_no_pruning d b m k').
Proof.
  rewrite minimax_ab_value, (minimax_no_pruning_value d b m k').
  apply bounds_full_window. apply minimax_bounds. reflexivity.
Qed.

(** ** Node counts *)

Lemma ab_trace_S (d : nat) (b : board) (alpha beta : ext) (m : bool) (st : Trace.stats) :
  Trace.ab_trace (S d) b alpha beta m st =
    if is_terminal b then (Fin (AiTerminal.heuristic b 1), Trace.tick st)
    else if m then
      Trace.tr_max_loop (fun child a be k => Trace.ab_trace d child a be false k)
        beta (get_children b 1) alpha NegInf (Trace.tick st)
    else
      Trace.tr_min_loop (fun child a be k => Trace.ab_trace d child a be true k)
        alpha (get_children b 2) beta PosInf (Trace.tick st).
Proof. reflexivity. Qed.

(** The instrumented search returns the score and the node counter of
    [minimax_ab]. *)
Lemma tr_max_loop_agrees (rt : board -> ext -> ext -> Trace.stats -> ext * Trace.stats)
    (rec : board -> ext -> ext -> nat -> ext * nat) (beta : ext) (cs : list board) :
  (forall child a be st,
     fst (rt child a be st) = fst (rec child a be (Trace.nodes st))
     /\ Trace.nodes (snd (rt child a be st)) = snd (rec child a be (Trace.nodes st))) ->
  forall alpha value st,
    fst (Trace.tr_max_loop rt beta cs alpha value st)
      = fst (Evaluation.ab_max_loop rec beta cs alpha value (Trace.nodes st))
    /\ Trace.nodes (snd (Trace.tr_max_loop rt beta cs alpha value st))
      = snd (Evaluation.ab_max_loop rec beta cs alpha value (Trace.nodes st)).
Proof.
  intros Hrec. induction cs as [|child rest IH]; intros alpha value st; simpl.
  - auto.
  - destruct (Hrec child alpha beta st) as [H1 H2].
    destruct (rt child alpha beta st) as [v st'].
    destruct (rec child alpha beta (Trace.nodes st)) as [v' k']. simpl in H1, H2.
    subst v' k'.
    destruct (ext_leb beta (ext_max alpha v)); [simpl; auto | apply IH].
Qed.

Lemma tr_min_loop_agrees (rt : board -> ext -> ext -> Trace.stats -> ext * Trace.stats)
    (rec : board -> ext -> ext -> nat -> ext * nat) (alpha : ext) (cs : list board) :
  (forall child a be st,
     fst (rt child a be st) = fst (rec child a be (Trace.nodes st))
     /\ Trace.nodes (snd (rt child a be st)) = snd (rec child a be (Trace.nodes st))) ->
  forall beta value st,
    fst (Trace.tr_min_loop rt alpha cs beta value st)
      = fst (Evaluation.ab_min_loop rec alpha cs beta value (Trace.nodes st))
    /\ Trace.nodes (snd (Trace.tr_min_loop rt alpha cs beta value st))
      = snd (Evaluation.ab_min_loop rec alpha cs beta value (Trace.nodes st)).
Proof.
  intros Hrec. induction cs as [|child rest IH]; intros beta value st; simpl.
  - auto.
  - destruct (Hrec child alpha beta st) as [H1 H2].
    destruct (rt child alpha beta st) as [v st'].
    destruct (rec child alpha beta (Trace.nodes st)) as [v' k']. simpl in H1, H2.
    subst v' k'.
    destruct (ext_leb (ext_min beta v) alpha); [simpl; auto | apply IH].
Qed.

Lemma ab_trace_agrees (d : nat) :
  forall b alpha beta m st,
    fst (Trace.ab_trace d b alpha beta m st)
      = fst (Evaluation.minimax_ab d b alpha beta m (Trace.nodes st))
    /\ Trace.nodes (snd (Trace.ab_trace d b alpha beta m st))
      = snd (Evaluation.minimax_ab d b alpha beta m (Trace.nodes st)).
Proof.
  induction d as [|d IH]; intros b alpha beta m st; [simpl; auto|].
  rewrite ab_trace_S, minimax_ab_S.
  destruct (is_terminal b); [simpl; auto|]. destruct m.
  - apply (tr_max_loop_agrees _ _ beta (get_children b 1)
             (fun child a be k => IH child a be false k) alpha NegInf (Trace.tick st)).
  - apply (tr_min_loop_agrees _ _ alpha (get_children b 2)
             (fun child a be k => IH child a be true k) beta PosInf (Trace.tick st)).
Qed.

(** Total number of nodes below a list of successors. *)
Lemma np_max_loop_count (rec : board -> nat -> ext * nat) (size : board -> nat)
    (cs : list board) :
  (forall child k, snd (rec child k) = (k + size child)%nat) ->
  forall value k,
    snd (Evaluation.np_max_loop rec cs value k)
    = (k + list_sum (map size cs))%nat.
Proof.
  intros Hrec. induction cs as [|child rest IH]; intros value k; simpl.
  - lia.
  - pose proof (Hrec child k) as H. destruct (rec child k) as [v k']. simpl in H.
    rewrite IH. lia.
Qed.

Lemma np_min_loop_count (rec : board -> nat -> ext * nat) (size : board -> nat)
    (cs : list board) :
  (forall child k, snd (rec child k) = (k + size child)%nat) ->
  forall value k,
    snd (Evaluation.np_min_loop rec cs value k)
    = (k + list_sum (map size cs))%nat.
Proof.
  intros Hrec. induction cs as [|child rest IH]; intros value k; simpl.
  - lia.
  - pose proof (Hrec child k) as H. destruct (rec child k) as [v k']. simpl in H.
    rewrite IH. lia.
Qed.

(** The unpruned search adds the size of its tree to the counter, and that
    size is at least one. *)
Lemma minimax_no_pruning_count (d : nat) :
  forall b m k,
    snd (Evaluation.minimax_no_pruning d b m k)
    = (k + snd (Evaluation.minimax_no_pruning d b m 0))%nat
    /\ (1 <= snd (Evaluation.minimax_no_pruning d b m 0))%nat.
Proof.
  induction d as [|d IH]; intros b m k; [simpl; lia|].
  rewrite !minimax_no_pruning_S.
  destruct (is_terminal b); [simpl; lia|]. destruct m.
  - rewrite !(np_max_loop_count _
               (fun child => snd (Evaluation.minimax_no_pruning d child false 0)))
      by (intros; apply IH).
    lia.
  - rewrite !(np_min_loop_count _
               (fun child => snd (Evaluation.minimax_no_pruning d child true 0)))
      by (intros; apply IH).
    lia.
Qed.

Lemma list_sum_ge_length (size : board -> nat) (cs : list board) :
  (forall child, (1 <= size child)%nat) ->
  (length cs <= list_sum (map size cs))%nat.
Proof.
  intros H. induction cs as [|child rest IH]; simpl; [lia|].
  specialize (H child). lia.
Qed.

(** Nodes visited plus successors skipped never exceed the nodes of the
    unpruned loop. *)
Lemma tr_max_loop_count (rt : board -> ext -> ext -> Trace.stats -> ext * Trace.stats)
    (size : board -> nat) (beta : ext) (cs : list board) :
  (forall child, (1 <= size child)%nat) ->
  (forall child a be st,
     (Trace.nodes (snd (rt child a be st)) + Trace.skipped (snd (rt child a be st))
      <= Trace.nodes st + Trace.skipped st + size child)%nat) ->
  forall alpha value st,
    (Trace.nodes (snd (Trace.tr_max_loop rt beta cs alpha value st))
     + Trace.skipped (snd (Trace.tr_max_loop rt beta cs alpha value st))
     <= Trace.nodes st + Trace.skipped st + list_sum (map size cs))%nat.
Proof.
  intros Hsize Hrec. induction cs as [|child rest IH]; intros alpha value st; simpl.
  - lia.
  - pose proof (Hrec child alpha beta st) as H.
    destruct (rt child alpha beta st) as [v st']. simpl in H.
    destruct (ext_leb beta (ext_max alpha v)).
    + simpl. pose proof (list_sum_ge_length size rest Hsize). lia.
    + specialize (IH (ext_max alpha v) (if ext_ltb value v then v else value) st'). lia.
Qed.

Lemma tr_min_loop_count (rt : board -> ext -> ext -> Trace.stats -> ext * Trace.stats)
    (size : board -> nat) (alpha : ext) (cs : list board) :
  (forall child, (1 <= size child)%nat) ->
  (forall child a be st,
     (Trace.nodes (snd (rt child a be st)) + Trace.skipped (snd (rt child a be st))
      <= Trace.nodes st + Trace.skipped st + size child)%nat) ->
  forall beta value st,
    (Trace.nodes (snd (Trace.tr_min_loop rt alpha cs beta value st))
     + Trace.skipped (snd (Trace.tr_min_loop rt alpha cs beta value st))
     <= Trace.nodes st + Trace.skipped st + list_sum (map size cs))%nat.
Proof.
  intros Hsize Hrec. induction cs as [|child rest IH]; intros beta value st; simpl.
  - lia.
  - pose proof (Hrec child alpha beta st) as H.
    destruct (rt child alpha beta st) as [v st']. simpl in H.
    destruct (ext_leb (ext_min beta v) alpha).
    + simpl. pose proof (list_sum_ge_length size rest Hsize). lia.
    + specialize (IH (ext_min beta v) (if ext_ltb v value then v else value) st'). lia.
Qed.

Lemma ab_trace_count (d : nat) :
  forall b alpha beta m st,
    (Trace.nodes (snd (Trace.ab_trace d b alpha beta m st))
     + Trace.skipped (snd (Trace.ab_trace d b alpha beta m st))
     <= Trace.nodes st + Trace.skipped st
        + snd (Evaluation.minimax_no_pruning d b m 0))%nat.
Proof.
  induction d as [|d IH]; intros b alpha beta m st; [simpl; lia|].
  rewrite ab_trace_S, minimax_no_pruning_S.
  destruct (is_terminal b); [simpl; lia|]. destruct m.
  - rewrite (np_max_loop_count _
               (fun child => snd (Evaluation.minimax_no_pruning d child false 0)))
      by (intros; apply minimax_no_pruning_count).
    pose proof (tr_max_loop_count
      (fun child a be k => Trace.ab_trace d child a be false k)
      (fun child => snd (Evaluation.minimax_no_pruning d child false 0))
      beta (get_children b 1)
      (fun child => proj2 (minimax_no_pruning_count d child false 0))
      (fun child a be k => IH child a be false k)
      alpha NegInf (Trace.tick st)) as H.
    simpl in H. simpl. lia.
  - rewrite (np_min_loop_count _
               (fun child => snd (Evaluation.minimax_no_pruning d child true 0)))
      by (intros; apply minimax_no_pruning_count).
    pose proof (tr_min_loop_count
      (fun child a be k => Trace.ab_trace d child a be true k)
      (fun child => snd (Evaluation.minimax_no_pruning d child true 0))
      alpha (get_children b 2)
      (fun child => proj2 (minimax_no_pruning_count d child true 0))
      (fun child a be k => IH child a be true k)
      beta PosInf (Trace.tick st)) as H.
    simpl in H. simpl. lia.
Qed.

(** C2 (amended). For every board, depth, side to move and window, the node
    count of the pruned search is at most the node count of the unpruned
    search; more precisely the nodes visited plus the successors left
    unvisited by the cutoffs are at most the unpruned count, so the pruned
    count is strictly smaller as soon as one cutoff leaves a successor
    unvisited.  (A cutoff taken after the last successor saves nothing.) *)
Theorem pruned_nodes_bounded (b : board) (d : nat) (alpha beta : ext) (m : bool) :
  let pruned := snd (Evaluation.minimax_ab d b alpha beta m 0) in
  let unpruned := snd (Evaluation.minimax_no_pruning d b m 0) in
  let left_out :=
    Trace.skipped (snd (Trace.ab_trace d b alpha beta m (Trace.mkStats 0 0 0))) in
  (pruned <= unpruned)%nat /\ (pruned + left_out <= unpruned)%nat.
Proof.
  intros pruned unpruned left_out.
  pose proof (ab_trace_count d b alpha beta m (Trace.mkStats 0 0 0)) as H.
  destruct (ab_trace_agrees d b alpha beta m (Trace.mkStats 0 0 0)) as [_ Hn].
  rewrite Hn in H. simpl in H.
  fold pruned in H. fold unpruned in H. fold left_out in H. lia.
Qed.

(** C2, as stated, fails: on [late_board] at depth 3 the pruned search takes
    the [beta <= alpha] cutoff twice, each time after the last successor, and
    visits as many nodes as the unpruned search. *)
Lemma cutoff_without_saving :
  Trace.breaks (snd (Trace.ab_trace 3 late_board NegInf PosInf true (Trace.mkStats 0 0 0)))
    = 2%nat
  /\ snd (Evaluation.minimax_ab 3 late_board NegInf PosInf true 0) = 9%nat
  /\ snd (Evaluation.minimax_no_pruning 3 late_board true 0) = 9%nat.
Proof. split; [|split]; vm_compute; reflexivity. Qed.

(** ** The move-returning search follows the same loops *)

(** Successors visited by the loops of [minimax_with_col]. *)
Lemma valid_locations_children (b : board) (mover : Z) :
  flat_map (fun col => match place b col mover with
                       | Some temp => [temp]
                       | None => []
                       end) (PygameGui.valid_locations b)
  = get_children b mover.
Proof.
  unfold PygameGui.valid_locations, get_children.
  induction (zrange 0 COLS) as [|c l IH]; simpl; [reflexivity|].
  destruct (is_valid_location b c); simpl; rewrite IH; reflexivity.
Qed.

Lemma in_valid_locations (b : board) (c : Z) :
  In c (PygameGui.valid_locations b) <-> is_valid_location b c = true.
Proof.
  unfold PygameGui.valid_locations. rewrite filter_In, In_zrange.
  split; [tauto|]. intros H. split; [|exact H].
  apply is_valid_location_spec in H. tauto.
Qed.

Lemma valid_locations_nonempty (b : board) :
  is_terminal b = false -> PygameGui.valid_locations b <> [].
Proof.
  intros Ht. apply is_terminal_false in Ht. destruct Ht as [_ [_ Hd]].
  destruct (not_draw_valid b Hd) as [c Hc]. apply in_valid_locations in Hc.
  intros E. rewrite E in Hc. destruct Hc.
Qed.

Lemma wc_max_loop_value (rec : board -> ext -> ext -> ext) (b : board) (mover : Z)
    (beta : ext) (cols : list Z) :
  forall alpha value best_col, ext_le value alpha ->
    snd (PygameGui.wc_max_loop rec b mover beta cols alpha value best_col)
    = AiTerminal.max_loop rec beta
        (flat_map (fun col => match place b col mover with
                              | Some temp => [temp]
                              | None => []
                              end) cols) alpha value.
Proof.
  induction cols as [|col rest IH]; intros alpha value best_col Hva; simpl.
  - reflexivity.
  - destruct (place b col mover) as [temp|]; simpl; [|apply IH; exact Hva].
    remember (rec temp alpha beta) as score eqn:E. clear E.
    assert (Ev : (if ext_ltb value score then (score, Some col) else (value, best_col))
                 = (ext_max value score,
                    if ext_ltb value score then Some col else best_col)).
    { unfold ext_max. destruct (ext_ltb value score); reflexivity. }
    rewrite Ev. clear Ev.
    assert (Ea : ext_max alpha (ext_max value score) = ext_max alpha score)
      by ext_order.
    rewrite Ea.
    destruct (ext_leb beta (ext_max alpha score)); [reflexivity|].
    apply IH. clear IH Ea. ext_order.
Qed.

Lemma wc_min_loop_value (rec : board -> ext -> ext -> ext) (b : board) (mover : Z)
    (alpha : ext) (cols : list Z) :
  forall beta value best_col, ext_le beta value ->
    snd (PygameGui.wc_min_loop rec b mover alpha cols beta value best_col)
    = AiTerminal.min_loop rec alpha
        (flat_map (fun col => match place b col mover with
                              | Some temp => [temp]
                              | None => []
                              end) cols) beta value.
Proof.
  induction cols as [|col rest IH]; intros beta value best_col Hva; simpl.
  - reflexivity.
  - destruct (place b col mover) as [temp|]; simpl; [|apply IH; exact Hva].
    remember (rec temp alpha beta) as score eqn:E. clear E.
    assert (Ev : (if ext_ltb score value then (score, Some col) else (value, best_col))
                 = (ext_min value score,
                    if ext_ltb score value then Some col else best_col)).
    { unfold ext_min. destruct (ext_ltb score value); reflexivity. }
    rewrite Ev. clear Ev.
    assert (Ea : ext_min beta (ext_min value score) = ext_min beta score)
      by ext_order.
    rewrite Ea.
    destruct (ext_leb (ext_min beta score) alpha); [reflexivity|].
    apply IH. clear IH Ea. ext_order.
Qed.

(** Score of a non-terminal node of [minimax_with_col], as a loop over the
    successors of the side to move. *)
Lemma minimax_with_col_score (d : nat) (b : board) (alpha beta : ext) (m : bool) (ai : Z) :
  is_terminal b = false ->
  snd (PygameGui.minimax_with_col (S d) b alpha beta m ai) =
    if m then
      AiTerminal.max_loop
        (fun temp a be => snd (PygameGui.minimax_with_col d temp a be false ai))
        beta (get_children b ai) alpha NegInf
    else
      AiTerminal.min_loop
        (fun temp a be => snd (PygameGui.minimax_with_col d temp a be true ai))
        alpha (get_children b (if ai =? 2 then 1 else 2)) beta PosInf.
Proof.
  intros Ht. rewrite minimax_with_col_S, Ht. destruct m.
  - rewrite wc_max_loop_value by apply neg_inf_least.
    rewrite valid_locations_children. reflexivity.
  - rewrite wc_min_loop_value by apply pos_inf_greatest.
    rewrite valid_locations_children. reflexivity.
Qed.

(** Fail-soft correctness of [minimax_with_col] against its own full-window
    score. *)
Lemma minimax_with_col_bounds (d : nat) (ai : Z) :
  forall b alpha beta m, ext_lt alpha beta ->
    bounds alpha beta
      (snd (PygameGui.minimax_with_col d b alpha beta m ai))
      (snd (PygameGui.minimax_with_col d b NegInf PosInf m ai)).
Proof.
  induction d as [|d IH]; intros b alpha beta m Hab; [apply bounds_same|].
  destruct (is_terminal b) eqn:Ht.
  - rewrite !minimax_with_col_S, Ht. apply bounds_same.
  - rewrite !minimax_with_col_score by exact Ht. destruct m.
    + pose proof (max_loop_bounds
        (fun temp a be => snd (PygameGui.minimax_with_col d temp a be false ai))
        (fun temp => snd (PygameGui.minimax_with_col d temp NegInf PosInf false ai)))
        as L.
      pose proof (L beta (get_children b ai)
                    (fun child a be _ H => IH child a be false H)
                    alpha NegInf Hab (neg_inf_least alpha)) as H1.
      pose proof (L PosInf (get_children b ai)
                    (fun child a be _ H => IH child a be false H)
                    NegInf NegInf eq_refl (neg_inf_least NegInf)) as H2.
      simpl in H1, H2. clear L IH.
      remember (AiTerminal.max_loop _ beta _ alpha NegInf) as r eqn:Er. clear Er.
      remember (AiTerminal.max_loop _ PosInf _ NegInf NegInf) as r0 eqn:Er0. clear Er0.
      remember (max_of _ _) as mx eqn:Em. clear Em.
      unfold bounds. split; [|split]; ext_order.
    + pose proof (min_loop_bounds
        (fun temp a be => snd (PygameGui.minimax_with_col d temp a be true ai))
        (fun temp => snd (PygameGui.minimax_with_col d temp NegInf PosInf true ai)))
        as L.
      pose proof (L alpha (get_children b (if ai =? 2 then 1 else 2))
                    (fun child a be _ H => IH child a be true H)
                    beta PosInf Hab (pos_inf_greatest beta)) as H1.
      pose proof (L NegInf (get_children b (if ai =? 2 then 1 else 2))
                    (fun child a be _ H => IH child a be true H)
                    PosInf PosInf eq_refl (pos_inf_greatest PosInf)) as H2.
      simpl in H1, H2. clear L IH.
      remember (AiTerminal.min_loop _ alpha _ beta PosInf) as r eqn:Er. clear Er.
      remember (AiTerminal.min_loop _ NegInf _ PosInf PosInf) as r0 eqn:Er0. clear Er0.
      remember (min_of _ _) as mx eqn:Em. clear Em.
      unfold bounds. split; [|split]; ext_order.
Qed.

(** On a board the score of [minimax_with_col] is an integer. *)
Lemma minimax_with_col_fin (d : nat) (ai : Z) :
  forall b alpha beta m, wf_board b ->
    exists z, snd (PygameGui.minimax_with_col d b alpha beta m ai) = Fin z.
Proof.
  induction d as [|d IH]; intros b alpha beta m Hwf; [simpl; eauto|].
  destruct (is_terminal b) eqn:Ht.
  - rewrite minimax_with_col_S, Ht. simpl. eauto.
  - rewrite minimax_with_col_score by exact Ht.
    apply is_terminal_false in Ht. destruct Ht as [_ [_ Hd]]. destruct m.
    + apply max_loop_fin.
      * intros child a be Hin. apply IH. eapply get_children_wf; eauto.
      * left. split; [reflexivity|]. apply get_children_nonempty; auto.
    + apply min_loop_fin.
      * intros child a be Hin. apply IH. eapply get_children_wf; eauto.
      * left. split; [reflexivity|]. apply get_children_nonempty; auto.
Qed.

(** ** The root of the move-returning search *)

Section GuiRoot.
Variable rec : board -> ext -> ext -> ext.
Variable b : board.
Variable mover : Z.
Variable best0 : option Z.

(** Full-window score of the position reached through column [c]. *)
Let gs (c : Z) : ext :=
  match place b c mover with
  | Some temp => rec temp NegInf PosInf
  | None => NegInf
  end.

Hypothesis rec_bounds : forall temp a be, ext_lt a be ->
  bounds a be (rec temp a be) (rec temp NegInf PosInf).
Hypothesis rec_fin : forall c temp a be, is_valid_location b c = true ->
  place b c mover = Some temp -> exists z, rec temp a be = Fin z.
Hypothesis place_some : forall c, is_valid_location b c = true ->
  exists temp, place b c mover = Some temp.

(** State of the root loop once the columns below [lo] have been examined;
    at the root [alpha] and [value] move together. *)
Let inv (lo : Z) (value : ext) (best_col : option Z) : Prop :=
  (value = NegInf /\ best_col = best0
   /\ forall c, c < lo -> is_valid_location b c = false)
  \/ (exists z c0, value = Fin z /\ best_col = Some c0
        /\ is_valid_location b c0 = true /\ gs c0 = value
        /\ (forall c, c < lo -> is_valid_location b c = true -> ext_le (gs c) value)
        /\ (forall c, c < c0 -> is_valid_location b c = true -> ext_lt (gs c) value)).

Lemma wc_root_step (lo : Z) (value : ext) (best_col : option Z) (rest : list Z) :
  inv lo value best_col ->
  exists value' best',
    PygameGui.wc_max_loop rec b mover PosInf
      (filter (is_valid_location b) (lo :: rest)) value value best_col
    = PygameGui.wc_max_loop rec b mover PosInf
        (filter (is_valid_location b) rest) value' value' best'
    /\ inv (lo + 1) value' best'.
Proof.
  intros Hinv. simpl filter.
  destruct (is_valid_location b lo) eqn:Hv.
  - destruct (place_some lo Hv) as [temp Hp]. simpl. rewrite Hp.
    destruct (rec_fin lo temp value PosInf Hv Hp) as [zs Hs].
    assert (Hgs : gs lo = rec temp NegInf PosInf) by (unfold gs; rewrite Hp; reflexivity).
    destruct Hinv as [[Hval [Hbest Hnone]] | [z [c0 [Hval [Hbest [Hv0 [Hg0 [Hle Hlt]]]]]]]].
    + subst value. rewrite Hs. simpl.
      exists (Fin zs), (Some lo). split; [reflexivity|].
      right. exists zs, lo. rewrite Hgs, Hs.
      split; [reflexivity|]. split; [reflexivity|]. split; [exact Hv|].
      split; [reflexivity|]. split.
      * intros c Hc Hvc. destruct (Z.eq_dec c lo) as [->|Hne].
        -- rewrite Hgs, Hs. unfold ext_le, ext_leb. simpl. rewrite Z.ltb_irrefl. reflexivity.
        -- rewrite Hnone in Hvc by lia. discriminate.
      * intros c Hc Hvc. rewrite Hnone in Hvc by lia. discriminate.
    + subst value.
      pose proof (rec_bounds temp (Fin z) PosInf eq_refl) as Hb.
      rewrite Hs in Hb. rewrite Hs.
      destruct (ext_ltb (Fin z) (Fin zs)) eqn:Hcmp.
      * assert (Ea : ext_max (Fin z) (Fin zs) = Fin zs) by (unfold ext_max; rewrite Hcmp; reflexivity).
        rewrite Ea. simpl ext_leb. cbv iota.
        exists (Fin zs), (Some lo). split; [reflexivity|].
        assert (Hexact : Fin zs = gs lo).
        { rewrite Hgs. destruct Hb as [_ [_ Hb]]. apply Hb; [exact Hcmp | reflexivity]. }
        right. exists zs, lo.
        split; [reflexivity|]. split; [reflexivity|]. split; [exact Hv|].
        split; [symmetry; exact Hexact|]. split.
        -- intros c Hc Hvc. destruct (Z.eq_dec c lo) as [->|Hne].
           ++ rewrite <- Hexact. clear. ext_order.
           ++ specialize (Hle c ltac:(lia) Hvc). clear - Hle Hcmp.
              remember (gs c) as g. clear Heqg. ext_order.
        -- intros c Hc Hvc. specialize (Hle c ltac:(lia) Hvc). clear - Hle Hcmp.
           remember (gs c) as g. clear Heqg. ext_order.
      * assert (Ea : ext_max (Fin z) (Fin z) = Fin z).
        { unfold ext_max. simpl. rewrite Z.ltb_irrefl. reflexivity. }
        rewrite Ea. simpl ext_leb. cbv iota.
        exists (Fin z), best_col. split; [reflexivity|].
        right. exists z, c0. subst best_col.
        split; [reflexivity|]. split; [reflexivity|]. split; [exact Hv0|].
        split; [exact Hg0|]. split; [|exact Hlt].
        intros c Hc Hvc. destruct (Z.eq_dec c lo) as [->|Hne].
        -- rewrite Hgs. destruct Hb as [Hb _]. clear - Hb Hcmp.
           remember (rec temp NegInf PosInf) as g. clear Heqg.
           remember (Fin z) as x. remember (Fin zs) as y. clear Heqx Heqy. ext_order.
        -- apply Hle; [lia | exact Hvc].
  - exists value, best_col. split; [reflexivity|].
    destruct Hinv as [[Hval [Hbest Hnone]] | [z [c0 [Hval [Hbest [Hv0 [Hg0 [Hle Hlt]]]]]]]].
    + left. split; [exact Hval|]. split; [exact Hbest|].
      intros c Hc. destruct (Z.eq_dec c lo) as [->|Hne]; [exact Hv | apply Hnone; lia].
    + right. exists z, c0. repeat (split; [assumption|]). split; [|exact Hlt].
      intros c Hc Hvc. destruct (Z.eq_dec c lo) as [->|Hne].
      * rewrite Hv in Hvc. discriminate.
      * apply Hle; [lia | exact Hvc].
Qed.

Lemma wc_root_range (n : nat) :
  forall lo value best_col,
    Z.to_nat (COLS - lo) = n -> lo <= COLS ->
    inv lo value best_col ->
    exists value' best',
      PygameGui.wc_max_loop rec b mover PosInf
        (filter (is_valid_location b) (zrange lo COLS)) value value best_col
      = (best', value')
      /\ inv COLS value' best'.
Proof.
  induction n as [|n IH]; intros lo value best_col Hn Hlo Hinv.
  - assert (lo = COLS) as -> by lia. rewrite zrange_nil by lia. simpl. eauto.
  - rewrite zrange_cons by lia.
    destruct (wc_root_step lo value best_col (zrange (lo + 1) COLS) Hinv)
      as [value' [best' [E Hinv']]].
    rewrite E. apply IH; [lia | lia | exact Hinv'].
Qed.

(** Outcome of the root loop over the full window: with a legal column the
    loop returns the lowest-indexed legal column of maximal full-window
    score, together with that score. *)
Lemma wc_root_result (c : Z) :
  is_valid_location b c = true ->
  exists c0,
    PygameGui.wc_max_loop rec b mover PosInf (PygameGui.valid_locations b)
      NegInf NegInf best0 = (Some c0, gs c0)
    /\ lowest_best b gs c0.
Proof.
  intros Hc.
  assert (H0 : inv 0 NegInf best0).
  { left. split; [reflexivity|]. split; [reflexivity|]. intros c' Hc'.
    destruct (is_valid_location b c') eqn:E; [|reflexivity].
    apply is_valid_location_spec in E. lia. }
  destruct (wc_root_range (Z.to_nat COLS) 0 NegInf best0
              ltac:(unfold COLS; lia) ltac:(unfold COLS; lia) H0)
    as [value' [best' [E Hinv]]].
  unfold PygameGui.valid_locations. rewrite E.
  destruct Hinv as [[_ [_ Hnone]] | [z [c0 [Hval [Hbest [Hv0 [Hg0 [Hle Hlt]]]]]]]].
  - rewrite Hnone in Hc; [discriminate|]. apply is_valid_location_spec in Hc. lia.
  - exists c0. subst best'. rewrite Hg0. split; [reflexivity|].
    split; [exact Hv0|]. split.
    + intros c' Hc'. rewrite Hg0. apply Hle; [|exact Hc'].
      apply is_valid_location_spec in Hc'. lia.
    + intros c' Hc' Hlt'. rewrite Hg0. apply Hlt; assumption.
Qed.
End GuiRoot.

(** Whatever the window, the column returned by a loop of
    [minimax_with_col] is the initial one or one of the columns examined. *)
Lemma wc_max_loop_column (rec : board -> ext -> ext -> ext) (b : board) (mover : Z)
    (beta : ext) (cols : list Z) :
  forall alpha value best_col c,
    fst (PygameGui.wc_max_loop rec b mover beta cols alpha value best_col) = Some c ->
    best_col = Some c \/ In c cols.
Proof.
  induction cols as [|col rest IH]; intros alpha value best_col c; simpl.
  - auto.
  - destruct (place b col mover) as [temp|].
    + destruct (ext_ltb value (rec temp alpha beta)).
      * destruct (ext_leb beta (ext_max alpha (rec temp alpha beta))).
        -- simpl. intros H. inversion H. auto.
        -- intros H. apply IH in H. destruct H as [H|H]; [inversion H|]; auto.
      * destruct (ext_leb beta (ext_max alpha value)).
        -- simpl. auto.
        -- intros H. apply IH in H. tauto.
    + intros H. apply IH in H. tauto.
Qed.

Lemma wc_min_loop_column (rec : board -> ext -> ext -> ext) (b : board) (mover : Z)
    (alpha : ext) (cols : list Z) :
  forall beta value best_col c,
    fst (PygameGui.wc_min_loop rec b mover alpha cols beta value best_col) = Some c ->
    best_col = Some c \/ In c cols.
Proof.
  induction cols as [|col rest IH]; intros beta value best_col c; simpl.
  - auto.
  - destruct (place b col mover) as [temp|].
    + destruct (ext_ltb (rec temp alpha beta) value).
      * destruct (ext_leb (ext_min beta (rec temp alpha beta)) alpha).
        -- simpl. intros H. inversion H. auto.
        -- intros H. apply IH in H. destruct H as [H|H]; [inversion H|]; auto.
      * destruct (ext_leb (ext_min beta value) alpha).
        -- simpl. auto.
        -- intros H. apply IH in H. tauto.
    + intros H. apply IH in H. tauto.
Qed.

Lemma hd_error_In {A : Type} (l : list A) (x : A) : hd_error l = Some x -> In x l.
Proof. destruct l; simpl; [discriminate|]. intros H. inversion H. auto. Qed.

Lemma minimax_with_col_column (d : nat) (b : board) (alpha beta : ext) (m : bool)
    (ai c : Z) :
  fst (PygameGui.minimax_with_col d b alpha beta m ai) = Some c ->
  is_valid_location b c = true.
Proof.
  destruct d as [|d]; [simpl; discriminate|].
  rewrite minimax_with_col_S. destruct (is_terminal b); [simpl; discriminate|].
  destruct m; intros H.
  - apply wc_max_loop_column in H. apply in_valid_locations.
    destruct H as [H|H]; [apply hd_error_In|]; exact H.
  - apply wc_min_loop_column in H. apply in_valid_locations.
    destruct H as [H|H]; [apply hd_error_In|]; exact H.
Qed.

(** ** Which column the two move selections return *)

Lemma terminal_root_score_fin (b : board) (depth : nat) (c : Z) :
  wf_board b -> is_valid_location b c = true ->
  exists z, terminal_root_score b depth c = Fin z.
Proof.
  intros Hwf Hv. unfold terminal_root_score.
  destruct (place_valid b c 1 Hwf Hv) as [r [b' [Hp [Hwf' _]]]].
  rewrite Hp. apply minimax_fin. exact Hwf'.
Qed.

Lemma choose_move_result (b : board) (depth : nat) :
  wf_board b ->
  match AiTerminal.choose_move b depth with
  | None => forall c, is_valid_location b c = false
  | Some c0 => lowest_best b (terminal_root_score b depth) c0
  end.
Proof.
  intros Hwf. unfold AiTerminal.choose_move.
  apply (root_loop_result
           (fun temp_board => AiTerminal.minimax (depth - 1) temp_board NegInf PosInf false)
           b).
  intros c Hv. apply (terminal_root_score_fin b depth c Hwf Hv).
Qed.

Lemma gui_root_result (b : board) (d : nat) (ai : Z) :
  wf_board b -> is_terminal b = false ->
  exists c0,
    PygameGui.minimax_with_col (S d) b NegInf PosInf true ai
      = (Some c0, gui_root_score b (S d) ai c0)
    /\ lowest_best b (gui_root_score b (S d) ai) c0.
Proof.
  intros Hwf Ht. rewrite minimax_with_col_S, Ht.
  pose proof Ht as Ht'. apply is_terminal_false in Ht'. destruct Ht' as [_ [_ Hd]].
  destruct (not_draw_valid b Hd) as [c Hc].
  unfold gui_root_score. replace (S d - 1)%nat with d by lia.
  apply (wc_root_result
           (fun temp a be => snd (PygameGui.minimax_with_col d temp a be false ai))
           b ai (hd_error (PygameGui.valid_locations b))) with (c := c).
  - intros temp a be Hab. apply minimax_with_col_bounds. exact Hab.
  - intros c' temp a be Hv Hp.
    destruct (place_valid b c' ai Hwf Hv) as [r [b' [Hp' [Hwf' _]]]].
    rewrite Hp in Hp'. inversion Hp'. subst b'.
    apply minimax_with_col_fin. exact Hwf'.
  - intros c' Hv. destruct (place_valid b c' ai Hwf Hv) as [r [b' [Hp' _]]]. eauto.
  - exact Hc.
Qed.

(** C4. With at least one legal column (terminal-play root loop), and on a
    board that is not terminal ([minimax_with_col] at the root), the move
    selection at depth >= 1 returns a legal column whose root score is
    maximal and strictly greater than the root score of every legal column
    of lower index: among the columns tied for the best score, the lowest
    index is returned. *)
Theorem lowest_column_on_ties (b : board) (depth : nat) (ai : Z) :
  wf_board b -> (1 <= depth)%nat ->
  ((exists c, is_valid_location b c = true) ->
     exists c0, AiTerminal.choose_move b depth = Some c0
                /\ lowest_best b (terminal_root_score b depth) c0)
  /\ (is_terminal b = false ->
     exists c0, fst (PygameGui.minimax_with_col depth b NegInf PosInf true ai) = Some c0
                /\ lowest_best b (gui_root_score b depth ai) c0).
Proof.
  intros Hwf Hd. split.
  - intros [c Hc]. pose proof (choose_move_result b depth Hwf) as H.
    destruct (AiTerminal.choose_move b depth) as [c0|].
    + exists c0. auto.
    + rewrite H in Hc. discriminate.
  - intros Ht. destruct depth as [|d]; [lia|].
    destruct (gui_root_result b d ai Hwf Ht) as [c0 [E H]].
    exists c0. rewrite E. auto.
Qed.

Lemma lowest_column_on_ties_witness :
  ((exists c, is_valid_location create_board c = true) ->
     exists c0, AiTerminal.choose_move create_board 2 = Some c0
                /\ lowest_best create_board (terminal_root_score create_board 2) c0)
  /\ (is_terminal create_board = false ->
     exists c0,
       fst (PygameGui.minimax_with_col 2 create_board NegInf PosInf true 1) = Some c0
       /\ lowest_best create_board (gui_root_score create_board 2 1) c0).
Proof.
  apply (lowest_column_on_ties create_board 2 1 wf_create_board). lia.
Defined.

(** C8. At depth >= 1 a column returned by the move selection is always
    legal on the board it was computed for, in the root loop of
    [play_game_vs_ai] and in [minimax_with_col] (whatever the window and the
    side); and a column is returned as soon as the board has a legal column
    (root loop) or is not terminal ([minimax_with_col]). *)
Theorem chosen_column_is_legal (b : board) (depth : nat) (ai : Z) :
  wf_board b -> (1 <= depth)%nat ->
  (forall c, AiTerminal.choose_move b depth = Some c -> is_valid_location b c = true)
  /\ ((exists c, is_valid_location b c = true) ->
      exists c, AiTerminal.choose_move b depth = Some c)
  /\ (forall alpha beta m c,
        fst (PygameGui.minimax_with_col depth b alpha beta m ai) = Some c ->
        is_valid_location b c = true)
  /\ (is_terminal b = false ->
      exists c, fst (PygameGui.minimax_with_col depth b NegInf PosInf true ai) = Some c).
Proof.
  intros Hwf Hd.
  pose proof (choose_move_result b depth Hwf) as H.
  split; [|split; [|split]].
  - intros c Hc. rewrite Hc in H. apply H.
  - intros [c Hc]. destruct (AiTerminal.choose_move b depth) as [c0|]; [eauto|].
    rewrite H in Hc. discriminate.
  - intros alpha beta m c. apply minimax_with_col_column.
  - intros Ht. destruct depth as [|d]; [lia|].
    destruct (gui_root_result b d ai Hwf Ht) as [c0 [E _]].
    exists c0. rewrite E. reflexivity.
Qed.

Lemma chosen_column_is_legal_witness :
  (forall c, AiTerminal.choose_move late_board 3 = Some c ->
             is_valid_location late_board c = true)
  /\ ((exists c, is_valid_location late_board c = true) ->
      exists c, AiTerminal.choose_move late_board 3 = Some c)
  /\ (forall alpha beta m c,
        fst (PygameGui.minimax_with_col 3 late_board alpha beta m 1) = Some c ->
        is_valid_location late_board c = true)
  /\ (is_terminal late_board = false ->
      exists c,
        fst (PygameGui.minimax_with_col 3 late_board NegInf PosInf true 1) = Some c).
Proof.
  apply (chosen_column_is_legal late_board 3 1).
  - split; [reflexivity|]. repeat constructor.
  - lia.
Defined.

(** ** Worked positions *)

Example score_window_table :
  AiTerminal.score_window [1; 1; 1; 1] 1 = 1000
  /\ AiTerminal.score_window [1; 1; 1; 0] 1 = 100
  /\ AiTerminal.score_window [1; 0; 1; 0] 1 = 10
  /\ AiTerminal.score_window [2; 2; 2; 2] 1 = -1500
  /\ AiTerminal.score_window [2; 0; 2; 2] 1 = -100
  /\ AiTerminal.score_window [0; 2; 2; 0] 1 = -10
  /\ AiTerminal.score_window [1; 1; 2; 0] 1 = 0
  /\ AiTerminal.score_window [1; 0; 0; 0] 1 = 0.
Proof. repeat (split; [reflexivity|]). reflexivity. Qed.

(** Completing a line and blocking one: column 3 in both positions. *)
Example complete_or_block :
  map (terminal_root_score three_for_1 1) (zrange 0 COLS)
    = [Fin 120; Fin 130; Fin 130; Fin 1110; Fin 210; Fin 120; Fin 110]
  /\ AiTerminal.choose_move three_for_1 1 = Some 3
  /\ PygameGui.minimax_with_col 2 three_for_1 NegInf PosInf true 1 = (Some 3, Fin 1110)
  /\ map (terminal_root_score three_for_2 2) (zrange 0 COLS)
    = [Fin (-1610); Fin (-1610); Fin (-1610); Fin (-20); Fin (-1500); Fin (-1600);
       Fin (-1610)]
  /\ AiTerminal.choose_move three_for_2 2 = Some 3.
Proof. repeat (split; [vm_compute; reflexivity|]). vm_compute. reflexivity. Qed.

(** The two searches of the benchmark on the empty board at depth 4. *)
Example empty_board_depth_4 :
  Evaluation.minimax_ab 4 create_board NegInf PosInf true 0 = (Fin 0, 482%nat)
  /\ Evaluation.minimax_no_pruning 4 create_board true 0 = (Fin 0, 2801%nat).
Proof. split; vm_compute; reflexivity. Qed.

Import Notions Counting GuiNotions.

(** * Further properties of the board operations *)

(** ** Writing and reading back *)

(** X1. A piece written by [drop_piece] at a position of the board is read back
    at that position, the board keeps its shape, and every other position
    reads as before. *)
Theorem drop_piece_then_read (b : board) (row col player : Z) :
  wf_board b -> 0 <= row < ROWS -> 0 <= col < COLS ->
  exists b',
    drop_piece b row col player = Ok b' /\ wf_board b'
    /\ getitem b' row col = Ok player
    /\ forall r c, 0 <= r < ROWS -> 0 <= c < COLS -> (r, c) <> (row, col) ->
         getitem b' r c = getitem b r c.
Proof.
  intros Hwf Hr Hc. unfold drop_piece.
  pose proof (setitem_ok b row col player Hwf Hr Hc) as E.
  eexists. split; [exact E|].
  assert (Hwf' : wf_board
    (list_set (Z.to_nat row)
       (list_set (Z.to_nat col) player (nth (Z.to_nat row) b [])) b))
    by (eapply wf_setitem; eauto).
  split; [exact Hwf'|]. split.
  - rewrite getitem_cell by auto. rewrite cell_list_set by (auto; lia).
    rewrite !Z.eqb_refl. reflexivity.
  - intros r c Hr' Hc' Hne. rewrite !getitem_cell by auto.
    rewrite cell_list_set by (auto; lia).
    destruct (Z.eqb_spec r row) as [->|]; [|reflexivity].
    destruct (Z.eqb_spec c col) as [->|]; [|reflexivity].
    exfalso. apply Hne. reflexivity.
Qed.

Lemma drop_piece_then_read_witness :
  exists b',
    drop_piece create_board 5 3 1 = Ok b' /\ wf_board b'
    /\ getitem b' 5 3 = Ok 1
    /\ forall r c, 0 <= r < ROWS -> 0 <= c < COLS -> (r, c) <> (5, 3) ->
         getitem b' r c = getitem create_board r c.
Proof.
  apply (drop_piece_then_read create_board 5 3 1 wf_create_board);
    unfold ROWS, COLS; lia.
Defined.

(** ** Negative indices *)

Lemma np_index_negative (len : nat) (i : Z) :
  - Z.of_nat len <= i < 0 -> np_index len i = np_index len (i + Z.of_nat len).
Proof.
  intros H. rewrite (np_index_in len (i + Z.of_nat len)) by lia.
  unfold np_index.
  replace ((0 <=? i) && (i <? Z.of_nat len)) with false
    by (symmetry; apply andb_false_iff; left; apply Z.leb_gt; lia).
  replace ((- Z.of_nat len <=? i) && (i <? 0)) with true; [reflexivity|].
  symmetry. apply andb_true_iff. split; [apply Z.leb_le | apply Z.ltb_lt]; lia.
Qed.

Lemma np_index_row_length (b : board) (r : Z) (i : nat) :
  wf_board b -> np_index (length b) r = Some i -> length (nth i b []) = 7%nat.
Proof.
  intros [Hl Hrows] Hi. rewrite Forall_forall in Hrows.
  apply Hrows. apply nth_In. eapply np_index_lt; eauto.
Qed.

(** X2. numpy counts a negative index from the end.  [is_valid_location] refuses
    every negative column, yet [get_next_open_row] and [drop_piece] accept
    the columns [-COLS .. -1] and work on column [col + COLS]; likewise a row
    in [-ROWS .. -1] given to [drop_piece] designates row [row + ROWS]. *)
Theorem negative_index_wraps (b : board) (row col player : Z) :
  wf_board b ->
  (- COLS <= col < 0 ->
     is_valid_location b col = false
     /\ get_next_open_row b col = get_next_open_row b (col + COLS)
     /\ drop_piece b row col player = drop_piece b row (col + COLS) player)
  /\ (- ROWS <= row < 0 ->
     drop_piece b row col player = drop_piece b (row + ROWS) col player).
Proof.
  intros Hwf. split.
  - intros Hc. split; [|split].
    + unfold is_valid_location.
      replace (col <? 0) with true by (symmetry; apply Z.ltb_lt; lia). reflexivity.
    + unfold get_next_open_row.
      induction (rev (zrange 0 ROWS)) as [|r rest IH]; simpl; [reflexivity|].
      assert (E : getitem b r col = getitem b r (col + COLS)).
      { unfold getitem. destruct (np_index (length b) r) as [i|] eqn:Hi; [|reflexivity].
        rewrite (np_index_row_length b r i Hwf Hi).
        rewrite (np_index_negative 7 col) by (unfold COLS in Hc; lia). reflexivity. }
      rewrite E, IH. reflexivity.
    + unfold drop_piece, setitem.
      destruct (np_index (length b) row) as [i|] eqn:Hi; [|reflexivity].
      rewrite (np_index_row_length b row i Hwf Hi).
      rewrite (np_index_negative 7 col) by (unfold COLS in Hc; lia). reflexivity.
  - intros Hr. unfold drop_piece, setitem.
    rewrite (wf_board_length b Hwf).
    rewrite (np_index_negative 6 row) by (unfold ROWS in Hr; lia). reflexivity.
Qed.

Lemma negative_index_wraps_witness :
  (- COLS <= -1 < 0 ->
     is_valid_location create_board (-1) = false
     /\ get_next_open_row create_board (-1) = get_next_open_row create_board (-1 + COLS)
     /\ drop_piece create_board (-6) (-1) 2
        = drop_piece create_board (-6) (-1 + COLS) 2)
  /\ (- ROWS <= -6 < 0 ->
     drop_piece create_board (-6) (-1) 2 = drop_piece create_board (-6 + ROWS) (-1) 2).
Proof.
  apply (negative_index_wraps create_board (-6) (-1) 2 wf_create_board).
Defined.

(** ** Landing rows and legality *)

(** X3. On a board and for a column in range, [get_next_open_row] never raises:
    it returns the lowest empty row of the column (every row below it is
    occupied), or [None] exactly when no cell of the column is empty. *)
Theorem landing_row_is_lowest_empty (b : board) (col : Z) :
  wf_board b -> 0 <= col < COLS ->
  match get_next_open_row b col with
  | Ok (Some r) =>
      0 <= r < ROWS /\ cell b r col = 0
      /\ forall r', r < r' < ROWS -> cell b r' col <> 0
  | Ok None => column_full b col
  | IndexError => False
  end.
Proof.
  intros Hwf Hc.
  destruct (get_next_open_row_spec b col Hwf Hc) as [[Hfull E]|[r [Hr [E [Hz Hb]]]]];
    rewrite E; auto.
Qed.

Lemma landing_row_is_lowest_empty_witness :
  match get_next_open_row late_board 0 with
  | Ok (Some r) =>
      0 <= r < ROWS /\ cell late_board r 0 = 0
      /\ forall r', r < r' < ROWS -> cell late_board r' 0 <> 0
  | Ok None => column_full late_board 0
  | IndexError => False
  end.
Proof.
  apply (landing_row_is_lowest_empty late_board 0).
  - split; [reflexivity|]. repeat constructor.
  - unfold COLS. lia.
Defined.

(** X4. Under gravity the top-cell test of [is_valid_location] is an exact
    fullness test: a column in range is legal exactly when
    [get_next_open_row] finds a row, and illegal exactly when every cell of
    the column is occupied. *)
Theorem legal_iff_landing_row (b : board) (col : Z) :
  wf_board b -> gravity b -> 0 <= col < COLS ->
  (is_valid_location b col = true <-> exists r, get_next_open_row b col = Ok (Some r))
  /\ (is_valid_location b col = false <-> column_full b col).
Proof.
  intros Hwf Hg Hc.
  assert (Hfull : is_valid_location b col = false <-> column_full b col).
  { split.
    - intros Hv r Hr Hz.
      destruct (Hg col Hc) as [k [Hk Hcol]].
      assert (Htop : cell b 0 col = 0).
      { apply Hcol; [unfold ROWS; lia|]. apply Hcol in Hz; [lia | exact Hr]. }
      assert (is_valid_location b col = true)
        by (apply is_valid_location_spec; auto).
      congruence.
    - intros Hfull. destruct (is_valid_location b col) eqn:E; [|reflexivity].
      apply is_valid_location_spec in E. exfalso.
      apply (Hfull 0); [unfold ROWS; lia | tauto]. }
  split; [|exact Hfull]. split.
  - intros Hv. destruct (place_valid b col 0 Hwf Hv) as [r [_ [_ [_ [_ [E _]]]]]]. eauto.
  - intros [r E].
    destruct (is_valid_location b col) eqn:Hv; [reflexivity|].
    assert (Hcf : column_full b col) by (apply Hfull; reflexivity).
    destruct (get_next_open_row_spec b col Hwf Hc) as [[_ E']|[r' [Hr' [E' [Hz _]]]]].
    + rewrite E' in E. discriminate.
    + exfalso. apply (Hcf r' Hr' Hz).
Qed.

Lemma legal_iff_landing_row_witness :
  (is_valid_location create_board 2 = true
     <-> exists r, get_next_open_row create_board 2 = Ok (Some r))
  /\ (is_valid_location create_board 2 = false <-> column_full create_board 2).
Proof.
  apply (legal_iff_landing_row create_board 2 wf_create_board gravity_create_board).
  unfold COLS. lia.
Defined.

(** Without gravity the two tests part: a piece floating on the top row makes
    the column illegal although a landing row exists. *)
Example floating_piece_column :
  let b := [[1; 0; 0; 0; 0; 0; 0]; empty_row; empty_row; empty_row; empty_row; empty_row] in
  is_valid_location b 0 = false /\ get_next_open_row b 0 = Ok (Some 5).
Proof. split; reflexivity. Qed.

(** ** Successors *)

(** X5. [get_children] returns one board per legal column, in increasing column
    order: the board obtained by writing the player's piece on the landing
    row of that column. *)
Theorem get_children_by_column (b : board) (player : Z) :
  wf_board b ->
  Forall2
    (fun c child =>
       is_valid_location b c = true
       /\ exists r, get_next_open_row b c = Ok (Some r)
                    /\ drop_piece b r c player = Ok child)
    (filter (is_valid_location b) (zrange 0 COLS))
    (get_children b player).
Proof.
  intros Hwf. unfold get_children.
  induction (zrange 0 COLS) as [|c l IH]; simpl; [constructor|].
  destruct (is_valid_location b c) eqn:Hv; [|exact IH].
  destruct (place_valid b c player Hwf Hv) as [r [b' [Hp [_ [_ [Hg _]]]]]].
  rewrite Hp. simpl. constructor; [|exact IH].
  split; [exact Hv|]. exists r. split; [exact Hg|].
  unfold place in Hp. rewrite Hg in Hp.
  destruct (drop_piece b r c player); [|discriminate].
  inversion Hp. reflexivity.
Qed.

Lemma get_children_by_column_witness :
  Forall2
    (fun c child =>
       is_valid_location late_board c = true
       /\ exists r, get_next_open_row late_board c = Ok (Some r)
                    /\ drop_piece late_board r c 2 = Ok child)
    (filter (is_valid_location late_board) (zrange 0 COLS))
    (get_children late_board 2).
Proof.
  apply (get_children_by_column late_board 2).
  split; [reflexivity|]. repeat constructor.
Defined.

(** ** Wins across a move *)

Lemma check_win_ext (b1 b2 : board) (p1 p2 : Z) :
  (forall r c, 0 <= r < ROWS -> 0 <= c < COLS ->
     (cell b1 r c = p1 <-> cell b2 r c = p2)) ->
  check_win b1 p1 = true -> check_win b2 p2 = true.
Proof.
  intros H. rewrite !check_win_cases. unfold ROWS, COLS in *.
  intros [W|[W|[W|W]]]; destruct W as [r [c [Hrc W]]];
    [left | right; left | right; right; left | right; right; right];
    exists r, c; (split; [exact Hrc|]); intros i Hi; apply H; try lia; apply W; exact Hi.
Qed.

Lemma place_check_win (b child : board) (c mover p : Z) :
  wf_board b -> is_valid_location b c = true -> place b c mover = Some child ->
  p <> 0 ->
  (check_win b p = true -> check_win child p = true)
  /\ (p <> mover -> check_win child p = check_win b p).
Proof.
  intros Hwf Hv Hpl Hp.
  destruct (place_valid b c mover Hwf Hv)
    as [r [b' [Hpl' [_ [Hr [_ [Hz [_ Hcell]]]]]]]].
  rewrite Hpl in Hpl'. inversion Hpl'. subst b'. clear Hpl'.
  split.
  - (* cells holding [p] are occupied, hence are not the landing cell *)
    rewrite !check_win_cases. unfold ROWS, COLS in *.
    assert (K : forall r' c', 0 <= r' -> 0 <= c' -> cell b r' c' = p -> cell child r' c' = p).
    { intros r' c' Hr' Hc' E. rewrite Hcell by lia.
      destruct (Z.eqb_spec r' r) as [->|]; [|exact E].
      destruct (Z.eqb_spec c' c) as [->|]; [|exact E].
      simpl. congruence. }
    intros [W|[W|[W|W]]]; destruct W as [r0 [c0 [Hrc W]]];
      [left | right; left | right; right; left | right; right; right];
      exists r0, c0; (split; [exact Hrc|]); intros i Hi; apply K; try lia; apply W; exact Hi.
  - intros Hne.
    assert (K : forall r' c', 0 <= r' < ROWS -> 0 <= c' < COLS ->
                 (cell child r' c' = p <-> cell b r' c' = p)).
    { intros r' c' Hr' Hc'. rewrite Hcell by lia.
      destruct (Z.eqb_spec r' r) as [->|]; [|reflexivity].
      destruct (Z.eqb_spec c' c) as [->|]; [|reflexivity].
      simpl. rewrite Hz. split; intros E; exfalso; [apply Hne | apply Hp]; congruence. }
    destruct (check_win b p) eqn:Eb.
    + apply (check_win_ext b child p p); [|exact Eb]. intros; symmetry; apply K; auto.
    + destruct (check_win child p) eqn:Ec; [|reflexivity].
      apply (check_win_ext child b p p K) in Ec. congruence.
Qed.

(** X6. A move never undoes a line and never gives one to the player who did
    not move: in every successor the mover keeps the four-in-a-row it had,
    and [check_win] answers for any other player exactly as before. *)
Theorem win_across_move (b child : board) (mover p : Z) :
  wf_board b -> In child (get_children b mover) -> p <> 0 ->
  (check_win b p = true -> check_win child p = true)
  /\ (p <> mover -> check_win child p = check_win b p).
Proof.
  intros Hwf Hin Hp. apply in_get_children in Hin. destruct Hin as [c [Hv Hpl]].
  apply (place_check_win b child c mover p Hwf Hv Hpl Hp).
Qed.

Lemma win_across_move_witness :
  (check_win three_for_1 1 = true ->
   check_win [empty_row; empty_row; empty_row; empty_row; empty_row;
              [1; 1; 1; 2; 0; 0; 0]] 1 = true)
  /\ (1 <> 2 ->
      check_win [empty_row; empty_row; empty_row; empty_row; empty_row;
                 [1; 1; 1; 2; 0; 0; 0]] 1 = check_win three_for_1 1).
Proof.
  apply (win_across_move three_for_1 _ 2 1).
  - split; [reflexivity|]. repeat constructor.
  - vm_compute. tauto.
  - lia.
Defined.

(** ** Range of the heuristic *)

Lemma score_window_range (window : list Z) (player : Z) :
  -1500 <= AiTerminal.score_window window player <= 1000.
Proof.
  unfold AiTerminal.score_window.
  destruct (AiTerminal.count player window =? 4);
    destruct ((AiTerminal.count player window =? 3) && (AiTerminal.count 0 window =? 1));
    destruct ((AiTerminal.count player window =? 2) && (AiTerminal.count 0 window =? 2));
    destruct (AiTerminal.count (if player =? 1 then 2 else 1) window =? 4);
    destruct ((AiTerminal.count (if player =? 1 then 2 else 1) window =? 3)
              && (AiTerminal.count 0 window =? 1));
    destruct ((AiTerminal.count (if player =? 1 then 2 else 1) window =? 2)
              && (AiTerminal.count 0 window =? 2)); lia.
Qed.

Lemma scan_range (rs cs : list Z) (f : Z -> Z -> Z) (score : Z) :
  (forall r c, -1500 <= f r c <= 1000) ->
  score - 1500 * Z.of_nat (length rs * length cs)
  <= AiTerminal.scan rs cs f score
  <= score + 1000 * Z.of_nat (length rs * length cs).
Proof.
  intros Hf. unfold AiTerminal.scan.
  assert (Inner : forall r l s,
    s - 1500 * Z.of_nat (length l)
    <= fold_left (fun s c => s + f r c) l s
    <= s + 1000 * Z.of_nat (length l)).
  { intros r l. induction l as [|c l IH]; intros s; simpl fold_left.
    - simpl. lia.
    - specialize (IH (s + f r c)). specialize (Hf r c).
      change (length (c :: l)) with (S (length l)). lia. }
  revert score. induction rs as [|r rs IH]; intros score; simpl fold_left.
  - simpl. lia.
  - specialize (IH (fold_left (fun s c => s + f r c) cs score)).
    specialize (Inner r cs score).
    change (length (r :: rs) * length cs)%nat with (length cs + length rs * length cs)%nat.
    lia.
Qed.

Lemma heuristic_bounds (b : board) (player : Z) :
  -103500 <= AiTerminal.heuristic b player <= 69000.
Proof.
  unfold AiTerminal.heuristic.
  pose proof (scan_range (zrange 0 ROWS) (zrange 0 (COLS - 3))
    (fun r c => AiTerminal.score_window
                  (map (fun i => cell b r (c + i)) (zrange 0 4)) player) 0
    (fun r c => score_window_range _ player)) as H1.
  remember (AiTerminal.scan (zrange 0 ROWS) (zrange 0 (COLS - 3)) _ 0) as s1 eqn:E1.
  clear E1.
  pose proof (scan_range (zrange 0 (ROWS - 3)) (zrange 0 COLS)
    (fun r c => AiTerminal.score_window
                  (map (fun i => cell b (r + i) c) (zrange 0 4)) player) s1
    (fun r c => score_window_range _ player)) as H2.
  remember (AiTerminal.scan (zrange 0 (ROWS - 3)) (zrange 0 COLS) _ s1) as s2 eqn:E2.
  clear E2.
  pose proof (scan_range (zrange 0 (ROWS - 3)) (zrange 0 (COLS - 3))
    (fun r c => AiTerminal.score_window
                  (map (fun i => cell b (r + i) (c + i)) (zrange 0 4)) player) s2
    (fun r c => score_window_range _ player)) as H3.
  remember (AiTerminal.scan (zrange 0 (ROWS - 3)) (zrange 0 (COLS - 3)) _ s2) as s3 eqn:E3.
  clear E3.
  pose proof (scan_range (zrange 3 ROWS) (zrange 0 (COLS - 3))
    (fun r c => AiTerminal.score_window
                  (map (fun i => cell b (r - i) (c + i)) (zrange 0 4)) player) s3
    (fun r c => score_window_range _ player)) as H4.
  remember (AiTerminal.scan (zrange 3 ROWS) (zrange 0 (COLS - 3)) _ s3) as s4 eqn:E4.
  clear E4.
  change (length (zrange 0 ROWS)) with 6%nat in *.
  change (length (zrange 0 (COLS - 3))) with 4%nat in *.
  change (length (zrange 0 (ROWS - 3))) with 3%nat in *.
  change (length (zrange 0 COLS)) with 7%nat in *.
  change (length (zrange 3 ROWS)) with 3%nat in *.
  simpl Z.of_nat in *. lia.
Qed.

(** X7. The heuristic sums 69 windows, each worth between -1500 and 1000: its
    value is an integer between -103500 and 69000 on every board and for
    every player, in the terminal player and in the GUI alike. *)
Theorem heuristic_range (b : board) (player : Z) :
  -103500 <= AiTerminal.heuristic b player <= 69000
  /\ -103500 <= PygameGui.heuristic b player <= 69000.
Proof.
  split; [|rewrite heuristic_copies_agree]; apply heuristic_bounds.
Qed.

(** ** Scores of the searches stay in the range of the heuristic *)

Lemma ext_max_in_range (a : ext) (z : Z) :
  -103500 <= z <= 69000 ->
  a = NegInf \/ score_in_range a -> score_in_range (ext_max a (Fin z)).
Proof.
  intros Hz [-> | [x [-> Hx]]]; unfold ext_max; simpl.
  - exists z. auto.
  - destruct (x <? z); [exists z | exists x]; auto.
Qed.

Lemma ext_min_in_range (a : ext) (z : Z) :
  -103500 <= z <= 69000 ->
  a = PosInf \/ score_in_range a -> score_in_range (ext_min a (Fin z)).
Proof.
  intros Hz [-> | [x [-> Hx]]]; unfold ext_min; simpl.
  - exists z. auto.
  - destruct (z <? x); [exists z | exists x]; auto.
Qed.

Lemma max_loop_in_range (rec : board -> ext -> ext -> ext) (beta : ext)
    (children : list board) :
  (forall child a be, In child children -> score_in_range (rec child a be)) ->
  forall alpha max_eval,
    (max_eval = NegInf /\ children <> []) \/ score_in_range max_eval ->
    score_in_range (AiTerminal.max_loop rec beta children alpha max_eval).
Proof.
  induction children as [|child rest IH]; intros Hrec alpha max_eval Hm.
  - simpl. destruct Hm as [[_ H]|H]; [contradiction | exact H].
  - simpl. destruct (Hrec child alpha beta (or_introl eq_refl)) as [v [Hv Hr]].
    rewrite Hv.
    assert (Hf : score_in_range (ext_max max_eval (Fin v))).
    { apply ext_max_in_range; [exact Hr|]. destruct Hm as [[H _]|H]; auto. }
    destruct (ext_leb beta (ext_max alpha (Fin v))); [exact Hf|].
    apply IH; [intros; apply Hrec; right; assumption | right; exact Hf].
Qed.

Lemma min_loop_in_range (rec : board -> ext -> ext -> ext) (alpha : ext)
    (children : list board) :
  (forall child a be, In child children -> score_in_range (rec child a be)) ->
  forall beta min_eval,
    (min_eval = PosInf /\ children <> []) \/ score_in_range min_eval ->
    score_in_range (AiTerminal.min_loop rec alpha children beta min_eval).
Proof.
  induction children as [|child rest IH]; intros Hrec beta min_eval Hm.
  - simpl. destruct Hm as [[_ H]|H]; [contradiction | exact H].
  - simpl. destruct (Hrec child alpha beta (or_introl eq_refl)) as [v [Hv Hr]].
    rewrite Hv.
    assert (Hf : score_in_range (ext_min min_eval (Fin v))).
    { apply ext_min_in_range; [exact Hr|]. destruct Hm as [[H _]|H]; auto. }
    destruct (ext_leb (ext_min beta (Fin v)) alpha); [exact Hf|].
    apply IH; [intros; apply Hrec; right; assumption | right; exact Hf].
Qed.

Lemma heuristic_in_range (b : board) (player : Z) :
  score_in_range (Fin (AiTerminal.heuristic b player)).
Proof. exists (AiTerminal.heuristic b player). split; [reflexivity | apply heuristic_bounds]. Qed.

Lemma minimax_in_range (d : nat) :
  forall b alpha beta m, wf_board b ->
    score_in_range (AiTerminal.minimax d b alpha beta m).
Proof.
  induction d as [|d IH]; intros b alpha beta m Hwf.
  - apply heuristic_in_range.
  - rewrite minimax_S. destruct (is_terminal b) eqn:Ht; [apply heuristic_in_range|].
    apply is_terminal_false in Ht. destruct Ht as [_ [_ Hd]].
    destruct m.
    + apply max_loop_in_range.
      * intros child a be Hin. apply IH. eapply get_children_wf; eauto.
      * left. split; [reflexivity|]. apply get_children_nonempty; auto.
    + apply min_loop_in_range.
      * intros child a be Hin. apply IH. eapply get_children_wf; eauto.
      * left. split; [reflexivity|]. apply get_children_nonempty; auto.
Qed.

Lemma minimax_with_col_in_range (d : nat) (ai : Z) :
  forall b alpha beta m, wf_board b ->
    score_in_range (snd (PygameGui.minimax_with_col d b alpha beta m ai)).
Proof.
  induction d as [|d IH]; intros b alpha beta m Hwf.
  - simpl. rewrite heuristic_copies_agree. apply heuristic_in_range.
  - destruct (is_terminal b) eqn:Ht.
    + rewrite minimax_with_col_S, Ht. simpl. rewrite heuristic_copies_agree.
      apply heuristic_in_range.
    + rewrite minimax_with_col_score by exact Ht.
      apply is_terminal_false in Ht. destruct Ht as [_ [_ Hd]]. destruct m.
      * apply max_loop_in_range.
        -- intros child a be Hin. apply IH. eapply get_children_wf; eauto.
        -- left. split; [reflexivity|]. apply get_children_nonempty; auto.
      * apply min_loop_in_range.
        -- intros child a be Hin. apply IH. eapply get_children_wf; eauto.
        -- left. split; [reflexivity|]. apply get_children_nonempty; auto.
Qed.

(** X8. On a board, whatever the depth, the window, the side to move and the
    counter, each of the four searches returns an integer score within the
    range of the heuristic: none of them ever returns an infinity. *)
Theorem search_scores_in_range (b : board) (d : nat) (alpha beta : ext) (m : bool)
    (k : nat) (ai : Z) :
  wf_board b ->
  score_in_range (AiTerminal.minimax d b alpha beta m)
  /\ score_in_range (fst (Evaluation.minimax_ab d b alpha beta m k))
  /\ score_in_range (fst (Evaluation.minimax_no_pruning d b m k))
  /\ score_in_range (snd (PygameGui.minimax_with_col d b alpha beta m ai)).
Proof.
  intros Hwf. split; [|split; [|split]].
  - apply minimax_in_range. exact Hwf.
  - rewrite minimax_ab_value. apply minimax_in_range. exact Hwf.
  - rewrite minimax_no_pruning_value.
    rewrite <- (bounds_full_window _ _ (minimax_bounds d b NegInf PosInf m eq_refl)).
    apply minimax_in_range. exact Hwf.
  - apply minimax_with_col_in_range. exact Hwf.
Qed.

Lemma search_scores_in_range_witness :
  score_in_range (AiTerminal.minimax 3 create_board (Fin 0) (Fin 5) true)
  /\ score_in_range (fst (Evaluation.minimax_ab 3 create_board (Fin 0) (Fin 5) true 4))
  /\ score_in_range (fst (Evaluation.minimax_no_pruning 3 create_board true 4))
  /\ score_in_range
       (snd (PygameGui.minimax_with_col 3 create_board (Fin 0) (Fin 5) true 2)).
Proof.
  apply (search_scores_in_range create_board 3 (Fin 0) (Fin 5) true 4 2 wf_create_board).
Defined.

(** ** Exchanging the colours *)

Lemma swap_player_eq (x p : Z) : (swap_player x =? swap_player p) = (x =? p).
Proof.
  unfold swap_player.
  destruct (Z.eqb_spec x 1), (Z.eqb_spec x 2), (Z.eqb_spec p 1), (Z.eqb_spec p 2);
    subst; try lia;
    try (symmetry; apply Z.eqb_neq; lia); try (apply Z.eqb_neq; lia);
    try reflexivity.
Qed.

Lemma swap_player_zero (x : Z) : (swap_player x =? 0) = (x =? 0).
Proof. apply (swap_player_eq x 0). Qed.

Lemma cell_swap_board (b : board) (r c : Z) :
  cell (swap_board b) r c = swap_player (cell b r c).
Proof.
  unfold cell, swap_board.
  change (@nil Z) with (map swap_player []) at 1. rewrite map_nth.
  change 0 with (swap_player 0) at 1. rewrite map_nth. reflexivity.
Qed.

Lemma count_swap (p : Z) (window : list Z) :
  AiTerminal.count (swap_player p) (map swap_player window) = AiTerminal.count p window.
Proof.
  unfold AiTerminal.count. f_equal.
  induction window as [|x w IH]; simpl; [reflexivity|].
  rewrite (swap_player_eq p x). destruct (p =? x); simpl; rewrite IH; reflexivity.
Qed.

Lemma count_swap_zero (window : list Z) :
  AiTerminal.count 0 (map swap_player window) = AiTerminal.count 0 window.
Proof. exact (count_swap 0 window). Qed.

Lemma score_window_swap (window : list Z) (p : Z) :
  p = 1 \/ p = 2 ->
  AiTerminal.score_window (map swap_player window) (swap_player p)
  = AiTerminal.score_window window p.
Proof.
  intros Hp. unfold AiTerminal.score_window.
  assert (Eo : (if swap_player p =? 1 then 2 else 1)
               = swap_player (if p =? 1 then 2 else 1))
    by (destruct Hp as [-> | ->]; reflexivity).
  rewrite Eo, !count_swap, !count_swap_zero. reflexivity.
Qed.

Lemma scan_same_ext (rs cs : list Z) (f g : Z -> Z -> Z) (score : Z) :
  (forall r c, f r c = g r c) ->
  AiTerminal.scan rs cs f score = AiTerminal.scan rs cs g score.
Proof.
  intros H. unfold AiTerminal.scan. revert score.
  induction rs as [|r rs IH]; intros score; simpl; [reflexivity|].
  rewrite <- IH. f_equal. clear IH. revert score.
  induction cs as [|c cs IHc]; intros score; simpl; [reflexivity|].
  rewrite H. apply IHc.
Qed.

Lemma heuristic_swap (b : board) (p : Z) :
  p = 1 \/ p = 2 ->
  AiTerminal.heuristic (swap_board b) (swap_player p) = AiTerminal.heuristic b p.
Proof.
  intros Hp. unfold AiTerminal.heuristic.
  assert (W : forall (g : Z -> Z * Z) (l : list Z),
    AiTerminal.score_window
      (map (fun i => cell (swap_board b) (fst (g i)) (snd (g i))) l) (swap_player p)
    = AiTerminal.score_window (map (fun i => cell b (fst (g i)) (snd (g i))) l) p).
  { intros g l. rewrite <- (score_window_swap _ p Hp). f_equal.
    rewrite map_map. apply map_ext. intros i. apply cell_swap_board. }
  rewrite (scan_same_ext (zrange 0 ROWS) (zrange 0 (COLS - 3)) _
    (fun r c => AiTerminal.score_window (map (fun i => cell b r (c + i)) (zrange 0 4)) p))
    by (intros r c; apply (W (fun i => (r, c + i)))).
  rewrite (scan_same_ext (zrange 0 (ROWS - 3)) (zrange 0 COLS) _
    (fun r c => AiTerminal.score_window (map (fun i => cell b (r + i) c) (zrange 0 4)) p))
    by (intros r c; apply (W (fun i => (r + i, c)))).
  rewrite (scan_same_ext (zrange 0 (ROWS - 3)) (zrange 0 (COLS - 3)) _
    (fun r c => AiTerminal.score_window
                  (map (fun i => cell b (r + i) (c + i)) (zrange 0 4)) p))
    by (intros r c; apply (W (fun i => (r + i, c + i)))).
  apply scan_same_ext. intros r c. apply (W (fun i => (r - i, c + i))).
Qed.

Lemma check_win_swap (b : board) (p : Z) :
  check_win (swap_board b) (swap_player p) = check_win b p.
Proof.
  assert (K : forall r c, cell (swap_board b) r c = swap_player p <-> cell b r c = p).
  { intros r c. rewrite cell_swap_board, <- !Z.eqb_eq, swap_player_eq. reflexivity. }
  destruct (check_win b p) eqn:Eb.
  - apply (check_win_ext b (swap_board b) p (swap_player p)); [|exact Eb].
    intros r c _ _. symmetry. apply K.
  - destruct (check_win (swap_board b) (swap_player p)) eqn:Es; [|reflexivity].
    apply (check_win_ext (swap_board b) b (swap_player p) p) in Es; [congruence|].
    intros r c _ _. apply K.
Qed.

Lemma is_draw_swap (b : board) : is_draw (swap_board b) = is_draw b.
Proof.
  unfold is_draw. induction (zrange 0 COLS) as [|c l IH]; simpl; [reflexivity|].
  rewrite cell_swap_board, swap_player_zero, IH. reflexivity.
Qed.

Lemma is_terminal_swap (b : board) : is_terminal (swap_board b) = is_terminal b.
Proof.
  unfold is_terminal.
  pose proof (check_win_swap b 2) as E1. pose proof (check_win_swap b 1) as E2.
  change (swap_player 2) with 1 in E1. change (swap_player 1) with 2 in E2.
  rewrite is_draw_swap, E1, E2.
  destruct (check_win b 1), (check_win b 2), (is_draw b); reflexivity.
Qed.

(** X9. The evaluation looks at roles, not at colours: exchanging the pieces of
    the two players and the player evaluated leaves [check_win] (for any
    player), [is_draw], [heuristic] and [evaluate_board] unchanged. *)
Theorem evaluation_colour_blind (b : board) (p : Z) :
  p = 1 \/ p = 2 ->
  check_win (swap_board b) (swap_player p) = check_win b p
  /\ is_draw (swap_board b) = is_draw b
  /\ AiTerminal.heuristic (swap_board b) (swap_player p) = AiTerminal.heuristic b p
  /\ AiTerminal.evaluate_board (swap_board b) (swap_player p)
     = AiTerminal.evaluate_board b p.
Proof.
  intros Hp. split; [apply check_win_swap|]. split; [apply is_draw_swap|].
  split; [apply heuristic_swap; exact Hp|].
  unfold AiTerminal.evaluate_board.
  assert (Eo : (if swap_player p =? 1 then 2 else 1)
               = swap_player (if p =? 1 then 2 else 1))
    by (destruct Hp as [-> | ->]; reflexivity).
  rewrite Eo, !check_win_swap, is_draw_swap, heuristic_swap by exact Hp.
  reflexivity.
Qed.

Lemma evaluation_colour_blind_witness :
  check_win (swap_board three_for_1) (swap_player 1) = check_win three_for_1 1
  /\ is_draw (swap_board three_for_1) = is_draw three_for_1
  /\ AiTerminal.heuristic (swap_board three_for_1) (swap_player 1)
     = AiTerminal.heuristic three_for_1 1
  /\ AiTerminal.evaluate_board (swap_board three_for_1) (swap_player 1)
     = AiTerminal.evaluate_board three_for_1 1.
Proof.
  apply (evaluation_colour_blind three_for_1 1). left. reflexivity.
Defined.

Lemma nth_swap_row (b : board) (i : nat) :
  nth i (swap_board b) [] = map swap_player (nth i b []).
Proof.
  unfold swap_board. change (@nil Z) with (map swap_player []) at 1.
  apply map_nth.
Qed.

Lemma getitem_swap (b : board) (r c : Z) :
  getitem (swap_board b) r c =
    match getitem b r c with
    | Ok v => Ok (swap_player v)
    | IndexError => IndexError
    end.
Proof.
  unfold getitem. unfold swap_board at 1. rewrite length_map.
  destruct (np_index (length b) r) as [i|]; [|reflexivity].
  rewrite nth_swap_row, length_map.
  destruct (np_index (length (nth i b [])) c) as [j|]; [|reflexivity].
  change 0 with (swap_player 0) at 1. rewrite map_nth. reflexivity.
Qed.

Lemma get_next_open_row_swap (b : board) (c : Z) :
  get_next_open_row (swap_board b) c = get_next_open_row b c.
Proof.
  unfold get_next_open_row.
  induction (rev (zrange 0 ROWS)) as [|r rest IH]; simpl; [reflexivity|].
  rewrite getitem_swap. destruct (getitem b r c) as [v|]; [|reflexivity].
  rewrite swap_player_zero, IH. reflexivity.
Qed.

Lemma map_list_set {A B : Type} (f : A -> B) (n : nat) (x : A) (l : list A) :
  map f (list_set n x l) = list_set n (f x) (map f l).
Proof.
  revert n. induction l as [|h t IH]; intros [|n]; simpl; try reflexivity.
  rewrite IH. reflexivity.
Qed.

Lemma drop_piece_swap (b : board) (r c v : Z) :
  drop_piece (swap_board b) r c (swap_player v) =
    match drop_piece b r c v with
    | Ok b' => Ok (swap_board b')
    | IndexError => IndexError
    end.
Proof.
  unfold drop_piece, setitem. unfold swap_board at 1. rewrite length_map.
  destruct (np_index (length b) r) as [i|]; [|reflexivity].
  rewrite nth_swap_row, length_map.
  destruct (np_index (length (nth i b [])) c) as [j|]; [|reflexivity].
  unfold swap_board. rewrite !map_list_set. reflexivity.
Qed.

Lemma place_swap (b : board) (c p : Z) :
  place (swap_board b) c (swap_player p) = option_map swap_board (place b c p).
Proof.
  unfold place. rewrite get_next_open_row_swap.
  destruct (get_next_open_row b c) as [[row|]|]; try reflexivity.
  rewrite drop_piece_swap. destruct (drop_piece b row c p); reflexivity.
Qed.

Lemma is_valid_location_swap (b : board) (c : Z) :
  is_valid_location (swap_board b) c = is_valid_location b c.
Proof.
  unfold is_valid_location. rewrite cell_swap_board, swap_player_zero. reflexivity.
Qed.

Lemma valid_locations_swap (b : board) :
  PygameGui.valid_locations (swap_board b) = PygameGui.valid_locations b.
Proof.
  unfold PygameGui.valid_locations. apply filter_ext. intros c.
  apply is_valid_location_swap.
Qed.

Lemma wc_max_loop_swap (rec rec' : board -> ext -> ext -> ext) (b : board)
    (mover : Z) (beta : ext) (cols : list Z) :
  (forall temp a be, rec' (swap_board temp) a be = rec temp a be) ->
  forall alpha value best_col,
    PygameGui.wc_max_loop rec' (swap_board b) (swap_player mover) beta cols
      alpha value best_col
    = PygameGui.wc_max_loop rec b mover beta cols alpha value best_col.
Proof.
  intros Hrec. induction cols as [|col rest IH]; intros alpha value best_col; simpl.
  - reflexivity.
  - rewrite place_swap. destruct (place b col mover) as [temp|]; simpl; [|apply IH].
    rewrite Hrec.
    destruct (ext_ltb value (rec temp alpha beta));
      destruct (ext_leb beta _); try reflexivity; apply IH.
Qed.

Lemma wc_min_loop_swap (rec rec' : board -> ext -> ext -> ext) (b : board)
    (mover : Z) (alpha : ext) (cols : list Z) :
  (forall temp a be, rec' (swap_board temp) a be = rec temp a be) ->
  forall beta value best_col,
    PygameGui.wc_min_loop rec' (swap_board b) (swap_player mover) alpha cols
      beta value best_col
    = PygameGui.wc_min_loop rec b mover alpha cols beta value best_col.
Proof.
  intros Hrec. induction cols as [|col rest IH]; intros beta value best_col; simpl.
  - reflexivity.
  - rewrite place_swap. destruct (place b col mover) as [temp|]; simpl; [|apply IH].
    rewrite Hrec.
    destruct (ext_ltb (rec temp alpha beta) value);
      destruct (ext_leb _ alpha); try reflexivity; apply IH.
Qed.

Lemma gui_heuristic_swap (b : board) (p : Z) :
  p = 1 \/ p = 2 ->
  PygameGui.heuristic (swap_board b) (swap_player p) = PygameGui.heuristic b p.
Proof.
  intros Hp.
  rewrite (heuristic_copies_agree (swap_board b) (swap_player p)).
  rewrite (heuristic_copies_agree b p).
  apply heuristic_swap. exact Hp.
Qed.

Lemma minimax_with_col_swap (d : nat) (ai : Z) :
  ai = 1 \/ ai = 2 ->
  forall b alpha beta m,
    PygameGui.minimax_with_col d (swap_board b) alpha beta m (swap_player ai)
    = PygameGui.minimax_with_col d b alpha beta m ai.
Proof.
  intros Hai. induction d as [|d IH]; intros b alpha beta m.
  - simpl. rewrite (gui_heuristic_swap b ai Hai). reflexivity.
  - rewrite (minimax_with_col_S d (swap_board b)), (minimax_with_col_S d b).
    rewrite is_terminal_swap, valid_locations_swap, (gui_heuristic_swap b ai Hai).
    destruct (is_terminal b); [reflexivity|]. destruct m.
    + apply wc_max_loop_swap. intros temp a be. rewrite IH. reflexivity.
    + assert (Eo : (if swap_player ai =? 2 then 1 else 2)
                   = swap_player (if ai =? 2 then 1 else 2))
        by (destruct Hai as [-> | ->]; reflexivity).
      rewrite Eo. apply wc_min_loop_swap. intros temp a be. rewrite IH. reflexivity.
Qed.

(** X10. The move-returning search is colour-blind: as player 2 on the board with
    the colours exchanged it returns the column and the score it returns as
    player 1 on the original board (and the other way round), for every
    depth, window and side to move. *)
Theorem minimax_with_col_colour_blind (b : board) (d : nat) (alpha beta : ext)
    (m : bool) (ai : Z) :
  ai = 1 \/ ai = 2 ->
  PygameGui.minimax_with_col d (swap_board b) alpha beta m (swap_player ai)
  = PygameGui.minimax_with_col d b alpha beta m ai.
Proof. intros Hai. apply minimax_with_col_swap. exact Hai. Qed.

Lemma minimax_with_col_colour_blind_witness :
  PygameGui.minimax_with_col 3 (swap_board three_for_2) NegInf PosInf true (swap_player 2)
  = PygameGui.minimax_with_col 3 three_for_2 NegInf PosInf true 2.
Proof.
  apply (minimax_with_col_colour_blind three_for_2 3 NegInf PosInf true 2).
  right. reflexivity.
Defined.

(** * Further properties of the searches *)

(** ** The terminal search against the unpruned search *)

(** X11. The alpha-beta search of the terminal player, [minimax], computes the
    value of the search without pruning: exactly on the full window, and for
    a window [alpha < beta] as an upper bound when it returns at most
    [alpha], a lower bound when it returns at least [beta], and exactly when
    it returns a score strictly inside the window. *)
Theorem terminal_minimax_exact (b : board) (d : nat) (alpha beta : ext) (m : bool)
    (k : nat) :
  let exact := fst (Evaluation.minimax_no_pruning d b m k) in
  AiTerminal.minimax d b NegInf PosInf m = exact
  /\ (ext_lt alpha beta ->
      let r := AiTerminal.minimax d b alpha beta m in
      (ext_le r alpha -> ext_le exact r)
      /\ (ext_le beta r -> ext_le r exact)
      /\ (ext_lt alpha r -> ext_lt r beta -> r = exact)).
Proof.
  intros exact. unfold exact. rewrite (minimax_no_pruning_value d b m k). split.
  - apply bounds_full_window. apply minimax_bounds. reflexivity.
  - intros Hab. apply (minimax_bounds d b alpha beta m Hab).
Qed.

Lemma terminal_minimax_exact_witness :
  let exact := fst (Evaluation.minimax_no_pruning 2 three_for_2 true 0) in
  AiTerminal.minimax 2 three_for_2 NegInf PosInf true = exact
  /\ (ext_lt (Fin (-50)) (Fin 50) ->
      let r := AiTerminal.minimax 2 three_for_2 (Fin (-50)) (Fin 50) true in
      (ext_le r (Fin (-50)) -> ext_le exact r)
      /\ (ext_le (Fin 50) r -> ext_le r exact)
      /\ (ext_lt (Fin (-50)) r -> ext_lt r (Fin 50) -> r = exact)).
Proof.
  apply (terminal_minimax_exact three_for_2 2 (Fin (-50)) (Fin 50) true 0).
Defined.

(** ** The counter is an accumulator *)

Lemma ab_max_loop_count (rec : board -> ext -> ext -> nat -> ext * nat)
    (beta : ext) (cs : list board) :
  (forall child a be k,
     rec child a be k = (fst (rec child a be 0%nat), (k + snd (rec child a be 0%nat))%nat)) ->
  forall alpha value k,
    snd (Evaluation.ab_max_loop rec beta cs alpha value k)
    = (k + snd (Evaluation.ab_max_loop rec beta cs alpha value 0%nat))%nat.
Proof.
  intros Hrec. induction cs as [|child rest IH]; intros alpha value k; simpl.
  - lia.
  - rewrite (Hrec child alpha beta k).
    destruct (rec child alpha beta 0%nat) as [v n]. simpl.
    destruct (ext_leb beta (ext_max alpha v)); simpl; [lia|].
    rewrite (IH _ _ (k + n)%nat), (IH _ _ n). lia.
Qed.

Lemma ab_min_loop_count (rec : board -> ext -> ext -> nat -> ext * nat)
    (alpha : ext) (cs : list board) :
  (forall child a be k,
     rec child a be k = (fst (rec child a be 0%nat), (k + snd (rec child a be 0%nat))%nat)) ->
  forall beta value k,
    snd (Evaluation.ab_min_loop rec alpha cs beta value k)
    = (k + snd (Evaluation.ab_min_loop rec alpha cs beta value 0%nat))%nat.
Proof.
  intros Hrec. induction cs as [|child rest IH]; intros beta value k; simpl.
  - lia.
  - rewrite (Hrec child alpha beta k).
    destruct (rec child alpha beta 0%nat) as [v n]. simpl.
    destruct (ext_leb (ext_min beta v) alpha); simpl; [lia|].
    rewrite (IH _ _ (k + n)%nat), (IH _ _ n). lia.
Qed.

Lemma minimax_ab_count (d : nat) :
  forall b alpha beta m k,
    Evaluation.minimax_ab d b alpha beta m k
    = (fst (Evaluation.minimax_ab d b alpha beta m 0),
       (k + snd (Evaluation.minimax_ab d b alpha beta m 0))%nat).
Proof.
  induction d as [|d IH]; intros b alpha beta m k.
  - simpl. f_equal. lia.
  - apply injective_projections; cbn [fst snd].
    + rewrite !minimax_ab_value. reflexivity.
    + rewrite !minimax_ab_S. destruct (is_terminal b); [simpl; lia|]. destruct m.
      * rewrite (ab_max_loop_count _ beta (get_children b 1)
                   (fun child a be k' => IH child a be false k') alpha NegInf (S k)).
        rewrite (ab_max_loop_count _ beta (get_children b 1)
                   (fun child a be k' => IH child a be false k') alpha NegInf 1%nat).
        lia.
      * rewrite (ab_min_loop_count _ alpha (get_children b 2)
                   (fun child a be k' => IH child a be true k') beta PosInf (S k)).
        rewrite (ab_min_loop_count _ alpha (get_children b 2)
                   (fun child a be k' => IH child a be true k') beta PosInf 1%nat).
        lia.
Qed.

(** X12. The node counter only accumulates: started with [k] in the counter, each
    search returns the score it returns with an empty counter, and leaves the
    counter at [k] plus the number of nodes it visits; the counter never
    influences the score. *)
Theorem counter_is_accumulator (b : board) (d : nat) (alpha beta : ext) (m : bool)
    (k : nat) :
  Evaluation.minimax_ab d b alpha beta m k
    = (fst (Evaluation.minimax_ab d b alpha beta m 0),
       (k + snd (Evaluation.minimax_ab d b alpha beta m 0))%nat)
  /\ Evaluation.minimax_no_pruning d b m k
    = (fst (Evaluation.minimax_no_pruning d b m 0),
       (k + snd (Evaluation.minimax_no_pruning d b m 0))%nat).
Proof.
  split; [apply minimax_ab_count|].
  apply injective_projections; cbn [fst snd].
  - apply minimax_no_pruning_value.
  - apply minimax_no_pruning_count.
Qed.

(** X13. The benchmark search [minimax_ab] and the terminal search [minimax]
    return the same score for every board, depth, window and side. *)
Theorem benchmark_search_is_terminal_search (b : board) (d : nat) (alpha beta : ext)
    (m : bool) (k : nat) :
  fst (Evaluation.minimax_ab d b alpha beta m k) = AiTerminal.minimax d b alpha beta m.
Proof. apply minimax_ab_value. Qed.

(** ** Size of the search trees *)

Lemma get_children_length (b : board) (player : Z) :
  (length (get_children b player) <= 7)%nat.
Proof.
  unfold get_children. rewrite zrange_cols.
  assert (H : forall l : list Z,
    (length (flat_map (fun c =>
       if is_valid_location b c then
         match place b c player with
         | Some new_board => [new_board]
         | None => []
         end
       else []) l) <= length l)%nat).
  { induction l as [|c l IH]; simpl; [lia|].
    rewrite length_app.
    destruct (is_valid_location b c); [destruct (place b c player)|]; simpl; lia. }
  apply (H [0; 1; 2; 3; 4; 5; 6]).
Qed.

Lemma list_sum_le_length (size : board -> nat) (cs : list board) (n : nat) :
  (forall child, (size child <= n)%nat) ->
  (list_sum (map size cs) <= length cs * n)%nat.
Proof.
  intros H. induction cs as [|child rest IH]; simpl; [lia|].
  specialize (H child). lia.
Qed.

Lemma minimax_no_pruning_size (d : nat) :
  forall b m,
    (6 * snd (Evaluation.minimax_no_pruning d b m 0) + 1 <= 7 ^ (S d))%nat.
Proof.
  induction d as [|d IH]; intros b m; [simpl; lia|].
  rewrite minimax_no_pruning_S.
  assert (Hpow : (7 ^ S (S d) = 7 * 7 ^ S d)%nat) by reflexivity.
  assert (Hpos : (1 <= 7 ^ S d)%nat) by (apply Nat.neq_0_lt_0, Nat.pow_nonzero; lia).
  destruct (is_terminal b); [simpl snd; lia|].
  assert (Hchild : forall f : bool, forall child,
            (snd (Evaluation.minimax_no_pruning d child f 0) <= (7 ^ S d - 1) / 6)%nat).
  { intros f child. specialize (IH child f).
    apply Nat.div_le_lower_bound; lia. }
  assert (Hdiv : (6 * ((7 ^ S d - 1) / 6) <= 7 ^ S d - 1)%nat)
    by (apply Nat.Div0.mul_div_le).
  destruct m.
  - rewrite (np_max_loop_count _
               (fun child => snd (Evaluation.minimax_no_pruning d child false 0)))
      by (intros; apply minimax_no_pruning_count).
    pose proof (list_sum_le_length
      (fun child => snd (Evaluation.minimax_no_pruning d child false 0))
      (get_children b 1) _ (Hchild false)) as Hs.
    pose proof (get_children_length b 1) as Hl.
    assert (length (get_children b 1) * ((7 ^ S d - 1) / 6)
            <= 7 * ((7 ^ S d - 1) / 6))%nat by (apply Nat.mul_le_mono_r; exact Hl).
    lia.
  - rewrite (np_min_loop_count _
               (fun child => snd (Evaluation.minimax_no_pruning d child true 0)))
      by (intros; apply minimax_no_pruning_count).
    pose proof (list_sum_le_length
      (fun child => snd (Evaluation.minimax_no_pruning d child true 0))
      (get_children b 2) _ (Hchild true)) as Hs.
    pose proof (get_children_length b 2) as Hl.
    assert (length (get_children b 2) * ((7 ^ S d - 1) / 6)
            <= 7 * ((7 ^ S d - 1) / 6))%nat by (apply Nat.mul_le_mono_r; exact Hl).
    lia.
Qed.

Lemma minimax_ab_at_least_one (d : nat) (b : board) (alpha beta : ext) (m : bool) :
  (1 <= snd (Evaluation.minimax_ab d b alpha beta m 0))%nat.
Proof.
  destruct d as [|d]; [simpl; lia|].
  rewrite minimax_ab_S. destruct (is_terminal b); [simpl; lia|]. destruct m.
  - rewrite ab_max_loop_count by (intros; apply minimax_ab_count). lia.
  - rewrite ab_min_loop_count by (intros; apply minimax_ab_count). lia.
Qed.

(** X14. Both searches visit at least the node they are called on, exactly that
    node at depth 0 and on a terminal board, and at most
    [1 + 7 + ... + 7^d = (7^(d+1) - 1) / 6] nodes at depth [d]; the pruned
    search never visits more nodes than the unpruned one. *)
Theorem node_count_bounds (b : board) (d : nat) (alpha beta : ext) (m : bool) :
  let pruned := snd (Evaluation.minimax_ab d b alpha beta m 0) in
  let unpruned := snd (Evaluation.minimax_no_pruning d b m 0) in
  (1 <= pruned <= unpruned)%nat
  /\ (6 * unpruned + 1 <= 7 ^ (S d))%nat
  /\ (d = 0%nat \/ is_terminal b = true -> pruned = 1%nat /\ unpruned = 1%nat).
Proof.
  intros pruned unpruned. split; [|split].
  - split; [apply minimax_ab_at_least_one|].
    pose proof (ab_trace_count d b alpha beta m (Trace.mkStats 0 0 0)) as H.
    destruct (ab_trace_agrees d b alpha beta m (Trace.mkStats 0 0 0)) as [_ Hn].
    rewrite Hn in H. simpl in H. unfold pruned, unpruned. lia.
  - apply minimax_no_pruning_size.
  - unfold pruned, unpruned. intros [-> | Ht]; [split; reflexivity|].
    destruct d as [|d]; [split; reflexivity|].
    rewrite minimax_ab_S, minimax_no_pruning_S, Ht. split; reflexivity.
Qed.

Lemma node_count_bounds_witness :
  let pruned := snd (Evaluation.minimax_ab 2 drawn_board NegInf PosInf true 0) in
  let unpruned := snd (Evaluation.minimax_no_pruning 2 drawn_board true 0) in
  (1 <= pruned <= unpruned)%nat
  /\ (6 * unpruned + 1 <= 7 ^ 3)%nat
  /\ (2%nat = 0%nat \/ is_terminal drawn_board = true ->
      pruned = 1%nat /\ unpruned = 1%nat).
Proof.
  apply (node_count_bounds drawn_board 2 NegInf PosInf true).
Defined.

(** ** The two players' searches agree *)

Lemma max_loop_ext (rec1 rec2 : board -> ext -> ext -> ext) (beta : ext)
    (cs : list board) :
  (forall child a be, rec1 child a be = rec2 child a be) ->
  forall alpha value,
    AiTerminal.max_loop rec1 beta cs alpha value
    = AiTerminal.max_loop rec2 beta cs alpha value.
Proof.
  intros H. induction cs as [|child rest IH]; intros alpha value; simpl.
  - reflexivity.
  - rewrite H. destruct (ext_leb beta _); [reflexivity | apply IH].
Qed.

Lemma min_loop_ext (rec1 rec2 : board -> ext -> ext -> ext) (alpha : ext)
    (cs : list board) :
  (forall child a be, rec1 child a be = rec2 child a be) ->
  forall beta value,
    AiTerminal.min_loop rec1 alpha cs beta value
    = AiTerminal.min_loop rec2 alpha cs beta value.
Proof.
  intros H. induction cs as [|child rest IH]; intros beta value; simpl.
  - reflexivity.
  - rewrite H. destruct (ext_leb _ alpha); [reflexivity | apply IH].
Qed.

Lemma gui_score_as_player_1 (d : nat) :
  forall b alpha beta m,
    snd (PygameGui.minimax_with_col d b alpha beta m 1)
    = AiTerminal.minimax d b alpha beta m.
Proof.
  induction d as [|d IH]; intros b alpha beta m.
  - simpl. rewrite (heuristic_copies_agree b 1). reflexivity.
  - destruct (is_terminal b) eqn:Ht.
    + rewrite minimax_with_col_S, minimax_S, Ht. simpl.
      rewrite (heuristic_copies_agree b 1). reflexivity.
    + rewrite minimax_with_col_score by exact Ht. rewrite minimax_S, Ht.
      change (if 1 =? 2 then 1 else 2) with 2. destruct m.
      * apply max_loop_ext. intros. apply IH.
      * apply min_loop_ext. intros. apply IH.
Qed.

Lemma lowest_best_unique (b : board) (s1 s2 : Z -> ext) (c1 c2 : Z) :
  (forall c, s1 c = s2 c) ->
  lowest_best b s1 c1 -> lowest_best b s2 c2 -> c1 = c2.
Proof.
  intros Hs [V1 [L1 S1]] [V2 [L2 S2]].
  destruct (Z.lt_trichotomy c1 c2) as [H|[H|H]]; [|exact H|].
  - pose proof (S2 c1 V1 H) as A. pose proof (L1 c2 V2) as B.
    rewrite !Hs in B. exfalso. clear - A B.
    remember (s2 c1) as x. remember (s2 c2) as y. clear Heqx Heqy. ext_order.
  - pose proof (S1 c2 V2 H) as A. pose proof (L2 c1 V1) as B.
    rewrite !Hs in A. exfalso. clear - A B.
    remember (s2 c1) as x. remember (s2 c2) as y. clear Heqx Heqy. ext_order.
Qed.

(** X15. Playing as player 1, the move-returning search of the GUI computes the
    score of the terminal search for every window; and on a board that is
    not terminal, at depth >= 1, it returns the very column the root loop of
    [play_game_vs_ai] selects. *)
Theorem gui_and_terminal_agree (b : board) (depth : nat) (alpha beta : ext) (m : bool) :
  snd (PygameGui.minimax_with_col depth b alpha beta m 1)
    = AiTerminal.minimax depth b alpha beta m
  /\ (wf_board b -> (1 <= depth)%nat -> is_terminal b = false ->
      fst (PygameGui.minimax_with_col depth b NegInf PosInf true 1)
      = AiTerminal.choose_move b depth).
Proof.
  split; [apply gui_score_as_player_1|].
  intros Hwf Hd Ht. destruct depth as [|d]; [lia|].
  destruct (gui_root_result b d 1 Hwf Ht) as [c0 [E Hbest]].
  rewrite E. simpl fst.
  pose proof (choose_move_result b (S d) Hwf) as Hc.
  destruct (AiTerminal.choose_move b (S d)) as [c1|].
  - f_equal. apply (lowest_best_unique b _ _ c0 c1) with (2 := Hbest) (3 := Hc).
    intros c. unfold gui_root_score, terminal_root_score.
    destruct (place b c 1); [apply gui_score_as_player_1 | reflexivity].
  - destruct Hbest as [V _]. rewrite Hc in V. discriminate.
Qed.

Lemma gui_and_terminal_agree_witness :
  snd (PygameGui.minimax_with_col 2 three_for_2 NegInf PosInf true 1)
    = AiTerminal.minimax 2 three_for_2 NegInf PosInf true
  /\ (wf_board three_for_2 -> (1 <= 2)%nat -> is_terminal three_for_2 = false ->
      fst (PygameGui.minimax_with_col 2 three_for_2 NegInf PosInf true 1)
      = AiTerminal.choose_move three_for_2 2).
Proof.
  apply (gui_and_terminal_agree three_for_2 2 NegInf PosInf true).
Defined.

(** X16. At the root, on a board that is not terminal, the score returned with
    the column is the full-window score of the position reached through that
    column, and no legal column has a greater one. *)
Theorem returned_score_is_column_score (b : board) (d : nat) (ai : Z) :
  wf_board b -> is_terminal b = false ->
  exists c,
    PygameGui.minimax_with_col (S d) b NegInf PosInf true ai
      = (Some c, gui_root_score b (S d) ai c)
    /\ is_valid_location b c = true
    /\ forall c', is_valid_location b c' = true ->
         ext_le (gui_root_score b (S d) ai c') (gui_root_score b (S d) ai c).
Proof.
  intros Hwf Ht. destruct (gui_root_result b d ai Hwf Ht) as [c [E [V [L _]]]].
  exists c. auto.
Qed.

Lemma returned_score_is_column_score_witness :
  exists c,
    PygameGui.minimax_with_col 2 three_for_1 NegInf PosInf true 2
      = (Some c, gui_root_score three_for_1 2 2 c)
    /\ is_valid_location three_for_1 c = true
    /\ forall c', is_valid_location three_for_1 c' = true ->
         ext_le (gui_root_score three_for_1 2 2 c') (gui_root_score three_for_1 2 2 c).
Proof.
  apply (returned_score_is_column_score three_for_1 1 2).
  - split; [reflexivity|]. repeat constructor.
  - vm_compute. reflexivity.
Defined.

(** * Counting pieces *)

Lemma list_set_nth_same {A : Type} (n : nat) (d : A) (l : list A) :
  list_set n (nth n l d) l = l.
Proof.
  revert n. induction l as [|h t IH]; intros [|n]; simpl; try reflexivity.
  rewrite IH. reflexivity.
Qed.

Lemma list_set_twice {A : Type} (n : nat) (x y : A) (l : list A) :
  list_set n x (list_set n y l) = list_set n x l.
Proof.
  revert n. induction l as [|h t IH]; intros [|n]; simpl; try reflexivity.
  rewrite IH. reflexivity.
Qed.

Lemma list_sum_list_set {A : Type} (f : A -> nat) (n : nat) (x d : A) (l : list A) :
  (n < length l)%nat ->
  (list_sum (map f (list_set n x l)) + f (nth n l d)
   = list_sum (map f l) + f x)%nat.
Proof.
  revert n. induction l as [|h t IH]; intros [|n] H; simpl in *; try lia.
  specialize (IH n ltac:(lia)). lia.
Qed.

Lemma count_row_set (v new : Z) (j : nat) (row : list Z) :
  (j < length row)%nat ->
  (length (filter (Z.eqb v) (list_set j new row))
     + (if Z.eqb v (nth j row 0%Z) then 1 else 0)
   = length (filter (Z.eqb v) row) + (if Z.eqb v new then 1 else 0))%nat.
Proof.
  revert j. induction row as [|h t IH]; intros [|j] H; simpl in *; try lia.
  - destruct (v =? new), (v =? h); simpl; lia.
  - specialize (IH j ltac:(lia)). destruct (v =? h); simpl; lia.
Qed.

Lemma count_cells_set (v new : Z) (b : board) (r c : Z) :
  wf_board b -> 0 <= r < ROWS -> 0 <= c < COLS ->
  (count_cells v
     (list_set (Z.to_nat r) (list_set (Z.to_nat c) new (nth (Z.to_nat r) b [])) b)
     + (if Z.eqb v (cell b r c) then 1 else 0)
   = count_cells v b + (if Z.eqb v new then 1 else 0))%nat.
Proof.
  intros Hwf Hr Hc. unfold count_cells, cell.
  pose proof (list_sum_list_set (fun row => length (filter (Z.eqb v) row))
    (Z.to_nat r) (list_set (Z.to_nat c) new (nth (Z.to_nat r) b [])) [] b) as H1.
  rewrite (wf_board_length b Hwf) in H1. unfold ROWS in Hr.
  specialize (H1 ltac:(lia)).
  pose proof (count_row_set v new (Z.to_nat c) (nth (Z.to_nat r) b [])) as H2.
  rewrite (wf_board_row b r Hwf Hr) in H2. unfold COLS in Hc.
  specialize (H2 ltac:(lia)). lia.
Qed.

Lemma place_shape (b : board) (c player : Z) :
  wf_board b -> is_valid_location b c = true ->
  exists r, 0 <= r < ROWS /\ 0 <= c < COLS /\ cell b r c = 0
    /\ get_next_open_row b c = Ok (Some r)
    /\ drop_piece b r c player
       = Ok (list_set (Z.to_nat r)
               (list_set (Z.to_nat c) player (nth (Z.to_nat r) b [])) b)
    /\ place b c player
       = Some (list_set (Z.to_nat r)
                 (list_set (Z.to_nat c) player (nth (Z.to_nat r) b [])) b).
Proof.
  intros Hwf Hv.
  destruct (place_valid b c player Hwf Hv) as [r [b' [_ [_ [Hr [Hg [Hz _]]]]]]].
  pose proof Hv as Hc. apply is_valid_location_spec in Hc. destruct Hc as [Hc _].
  exists r. repeat (split; [assumption|]).
  split; [apply (setitem_ok b r c player Hwf Hr Hc)|].
  unfold place, drop_piece. rewrite Hg, (setitem_ok b r c player Hwf Hr Hc). reflexivity.
Qed.

(** A move adds exactly one piece. *)
Lemma place_counts (b b' : board) (c player : Z) :
  wf_board b -> is_valid_location b c = true -> place b c player = Some b' ->
  player <> 0 ->
  count_cells player b' = S (count_cells player b)
  /\ S (count_cells 0 b') = count_cells 0 b
  /\ forall v, v <> player -> v <> 0 -> count_cells v b' = count_cells v b.
Proof.
  intros Hwf Hv Hp Hne.
  destruct (place_shape b c player Hwf Hv) as [r [Hr [Hc [Hz [_ [_ E]]]]]].
  rewrite Hp in E. inversion E. subst b'. clear E.
  split; [|split].
  - pose proof (count_cells_set player player b r c Hwf Hr Hc) as H.
    rewrite Hz, Z.eqb_refl in H.
    replace (player =? 0) with false in H by (symmetry; apply Z.eqb_neq; exact Hne).
    cbv iota in H. lia.
  - pose proof (count_cells_set 0 player b r c Hwf Hr Hc) as H.
    rewrite Hz, Z.eqb_refl in H.
    replace (0 =? player) with false in H by (symmetry; apply Z.eqb_neq; lia).
    cbv iota in H. lia.
  - intros v Hv1 Hv0.
    pose proof (count_cells_set v player b r c Hwf Hr Hc) as H.
    rewrite Hz in H.
    replace (v =? 0) with false in H by (symmetry; apply Z.eqb_neq; exact Hv0).
    replace (v =? player) with false in H by (symmetry; apply Z.eqb_neq; exact Hv1).
    cbv iota in H. lia.
Qed.

(** X17. Each board returned by [get_children] holds one more piece of the player
    who moved and one empty cell less than the board it comes from; the
    count of every other value is unchanged. *)
Theorem get_children_add_one_piece (b child : board) (player : Z) :
  wf_board b -> In child (get_children b player) -> player <> 0 ->
  count_cells player child = S (count_cells player b)
  /\ S (count_cells 0 child) = count_cells 0 b
  /\ forall v, v <> player -> v <> 0 -> count_cells v child = count_cells v b.
Proof.
  intros Hwf Hin Hne. apply in_get_children in Hin. destruct Hin as [c [Hv Hp]].
  apply (place_counts b child c player Hwf Hv Hp Hne).
Qed.

Lemma get_children_add_one_piece_witness :
  let child := [empty_row; empty_row; empty_row; empty_row;
                [2; 0; 0; 0; 0; 0; 0]; [1; 1; 1; 0; 0; 0; 0]] in
  count_cells 2 child = S (count_cells 2 three_for_1)
  /\ S (count_cells 0 child) = count_cells 0 three_for_1
  /\ forall v, v <> 2 -> v <> 0 -> count_cells v child = count_cells v three_for_1.
Proof.
  intros child. apply (get_children_add_one_piece three_for_1 child 2).
  - split; [reflexivity|]. repeat constructor.
  - vm_compute. tauto.
  - lia.
Defined.

(** * Random test boards *)

(** What holds of the board at each turn of the loop of
    [generate_random_board]. *)
Lemma sound_board_after_place (b b' : board) (c player : Z) :
  wf_board b -> gravity b -> check_win b 1 = false -> check_win b 2 = false ->
  player = 1 \/ player = 2 ->
  is_valid_location b c = true -> place b c player = Some b' ->
  check_win b' player = false ->
  wf_board b' /\ gravity b' /\ check_win b' 1 = false /\ check_win b' 2 = false.
Proof.
  intros Hwf Hg H1 H2 Hp Hv Hpl Hw.
  split; [|split].
  - destruct (place_valid b c player Hwf Hv) as [r [b0 [E [Hwf' _]]]].
    rewrite Hpl in E. inversion E. subst. exact Hwf'.
  - eapply place_gravity; eauto.
  - destruct Hp as [-> | ->].
    + split; [exact Hw|].
      destruct (place_check_win b b' c 1 2 Hwf Hv Hpl ltac:(lia)) as [_ K].
      rewrite K by lia. exact H2.
    + split; [|exact Hw].
      destruct (place_check_win b b' c 2 1 Hwf Hv Hpl ltac:(lia)) as [_ K].
      rewrite K by lia. exact H1.
Qed.

Lemma setitem_undo (b : board) (r c player : Z) :
  wf_board b -> 0 <= r < ROWS -> 0 <= c < COLS -> cell b r c = 0 ->
  setitem
    (list_set (Z.to_nat r) (list_set (Z.to_nat c) player (nth (Z.to_nat r) b [])) b)
    r c 0 = Ok b.
Proof.
  intros Hwf Hr Hc Hz.
  assert (Hwf' : wf_board
    (list_set (Z.to_nat r) (list_set (Z.to_nat c) player (nth (Z.to_nat r) b [])) b))
    by (eapply wf_setitem; [exact Hwf | apply (setitem_ok b r c player Hwf Hr Hc)]).
  rewrite (setitem_ok _ r c 0 Hwf' Hr Hc).
  rewrite nth_list_set_same
    by (rewrite (wf_board_length b Hwf); unfold ROWS in Hr; lia).
  rewrite !list_set_twice.
  unfold cell in Hz. rewrite <- Hz at 1.
  rewrite (list_set_nth_same (Z.to_nat c) 0 (nth (Z.to_nat r) b [])).
  rewrite (list_set_nth_same (Z.to_nat r) [] b). reflexivity.
Qed.

Section RandomBoardFacts.
Variable rng : Type.
Variable choice : rng -> list Z -> Z * rng.
Hypothesis choice_in : forall g l, l <> [] -> In (fst (choice g l)) l.

Lemma random_moves_sound (n : nat) :
  forall g b player,
    wf_board b -> gravity b -> check_win b 1 = false -> check_win b 2 = false ->
    player = 1 \/ player = 2 ->
    (count_cells player b <= count_cells (3 - player) b
     /\ count_cells (3 - player) b <= count_cells player b + 1)%nat ->
    let b' := TestBoards.random_moves rng choice g b player n in
    wf_board b' /\ gravity b' /\ check_win b' 1 = false /\ check_win b' 2 = false
    /\ (pieces b' <= pieces b + n)%nat
    /\ (count_cells 1 b' <= count_cells 2 b' + 1
        /\ count_cells 2 b' <= count_cells 1 b' + 1)%nat.
Proof.
  induction n as [|n IH]; intros g b player Hwf Hg H1 H2 Hp Hpar.
  - simpl. repeat (split; [assumption|]). split; [lia|].
    destruct Hp as [-> | ->]; simpl in Hpar; lia.
  - assert (Hstay : wf_board b /\ gravity b /\ check_win b 1 = false
              /\ check_win b 2 = false
              /\ (pieces b <= pieces b + S n)%nat
              /\ (count_cells 1 b <= count_cells 2 b + 1
                  /\ count_cells 2 b <= count_cells 1 b + 1)%nat).
    { repeat (split; [assumption|]). split; [lia|].
      destruct Hp as [-> | ->]; simpl in Hpar; lia. }
    cbn [TestBoards.random_moves].
    destruct (filter (is_valid_location b) (zrange 0 COLS)) as [|c0 l0] eqn:Ef;
      [exact Hstay|].
    pose proof (choice_in g (c0 :: l0) ltac:(discriminate)) as Hin.
    destruct (choice g (c0 :: l0)) as [col g']. cbn [fst] in Hin.
    rewrite <- Ef in Hin. apply filter_In in Hin. destruct Hin as [_ Hv].
    destruct (place_shape b col player Hwf Hv) as [r [Hr [Hc [Hz [Hrow [Hdrop Hpl]]]]]].
    rewrite Hrow, Hdrop.
    remember (list_set (Z.to_nat r)
                (list_set (Z.to_nat col) player (nth (Z.to_nat r) b [])) b) as moved.
    destruct (check_win moved player) eqn:Hw.
    + subst moved. rewrite (setitem_undo b r col player Hwf Hr Hc Hz). exact Hstay.
    + destruct (sound_board_after_place b moved col player Hwf Hg H1 H2 Hp Hv Hpl Hw)
        as [Hwf' [Hg' [H1' H2']]].
      assert (Hne : player <> 0) by (destruct Hp; lia).
      destruct (place_counts b moved col player Hwf Hv Hpl Hne) as [Cp [_ Co]].
      assert (Hother : (if player =? 2 then 1 else 2) = 3 - player)
        by (destruct Hp as [-> | ->]; reflexivity).
      rewrite Hother.
      assert (Co' : count_cells (3 - player) moved = count_cells (3 - player) b)
        by (apply Co; destruct Hp; lia).
      assert (Hp' : 3 - player = 1 \/ 3 - player = 2) by (destruct Hp; lia).
      specialize (IH g' moved (3 - player) Hwf' Hg' H1' H2' Hp').
      replace (3 - (3 - player)) with player in IH by lia.
      specialize (IH ltac:(lia)). cbv zeta in IH.
      destruct IH as [I1 [I2 [I3 [I4 [I5 I6]]]]].
      repeat (split; [assumption|]). split; [|exact I6].
      assert (pieces moved = S (pieces b)).
      { unfold pieces. destruct Hp as [-> | ->]; simpl in *; lia. }
      lia.
Qed.

Lemma generate_random_board_sound (g : rng) (moves : nat) :
  let b := TestBoards.generate_random_board rng choice g moves in
  wf_board b /\ gravity b /\ check_win b 1 = false /\ check_win b 2 = false
  /\ (pieces b <= moves)%nat
  /\ (count_cells 1 b <= count_cells 2 b + 1
      /\ count_cells 2 b <= count_cells 1 b + 1)%nat.
Proof.
  unfold TestBoards.generate_random_board.
  pose proof (choice_in g [1; 2] ltac:(discriminate)) as Hin.
  destruct (choice g [1; 2]) as [player g']. simpl in Hin.
  assert (Hp : player = 1 \/ player = 2) by (destruct Hin as [H|[H|[]]]; auto).
  apply (random_moves_sound moves g' create_board player wf_create_board
           gravity_create_board eq_refl eq_refl Hp).
  assert (Z1 : count_cells 1 create_board = 0%nat) by reflexivity.
  assert (Z2 : count_cells 2 create_board = 0%nat) by reflexivity.
  destruct Hp as [-> | ->]; [change (3 - 1) with 2 | change (3 - 2) with 1];
    rewrite Z1, Z2; lia.
Qed.

Lemma heatmap_score_in_range (g : rng) (moves d : nat) :
  score_in_range (TestBoards.heatmap_score rng choice g moves d).
Proof.
  unfold TestBoards.heatmap_score. rewrite minimax_ab_value.
  apply minimax_in_range. apply generate_random_board_sound.
Qed.
End RandomBoardFacts.

(** X18. Whatever the generator draws, [generate_random_board] returns a 6x7
    board that obeys gravity, on which neither player has four in a row (a
    winning move is taken back), that holds at most [moves] pieces, and on
    which the two players' piece counts differ by at most one. *)
Theorem random_board_sound (rng : Type) (choice : rng -> list Z -> Z * rng)
    (g : rng) (moves : nat) :
  (forall g l, l <> [] -> In (fst (choice g l)) l) ->
  let b := TestBoards.generate_random_board rng choice g moves in
  wf_board b /\ gravity b /\ check_win b 1 = false /\ check_win b 2 = false
  /\ (pieces b <= moves)%nat
  /\ (count_cells 1 b <= count_cells 2 b + 1
      /\ count_cells 2 b <= count_cells 1 b + 1)%nat.
Proof. intros H. apply generate_random_board_sound. exact H. Qed.

Lemma random_board_sound_witness :
  let b := TestBoards.generate_random_board unit (fun g l => (hd 0 l, g)) tt 8 in
  wf_board b /\ gravity b /\ check_win b 1 = false /\ check_win b 2 = false
  /\ (pieces b <= 8)%nat
  /\ (count_cells 1 b <= count_cells 2 b + 1
      /\ count_cells 2 b <= count_cells 1 b + 1)%nat.
Proof.
  apply (random_board_sound unit (fun g l => (hd 0 l, g)) tt 8).
  intros g l Hl. destruct l as [|x l]; [contradiction | left; reflexivity].
Defined.

(** X19. Every cell of the heat map of [run_experiments] is a finite score within
    the range of the heuristic, whatever boards the generator produces. *)
Theorem heatmap_scores_finite (rng : Type) (choice : rng -> list Z -> Z * rng)
    (g : rng) (moves d : nat) :
  (forall g l, l <> [] -> In (fst (choice g l)) l) ->
  score_in_range (TestBoards.heatmap_score rng choice g moves d).
Proof. intros H. apply heatmap_score_in_range. exact H. Qed.

Lemma heatmap_scores_finite_witness :
  score_in_range (TestBoards.heatmap_score unit (fun g l => (hd 0 l, g)) tt 8 3).
Proof.
  apply (heatmap_scores_finite unit (fun g l => (hd 0 l, g)) tt 8 3).
  intros g l Hl. destruct l as [|x l]; [contradiction | left; reflexivity].
Defined.

(** * Positions of a game in progress *)

Lemma legal_create_board : legal_position create_board.
Proof.
  split; [exact wf_create_board|]. split; [exact gravity_create_board|]. reflexivity.
Qed.

Lemma filter_length_pos (v : Z) (row : list Z) :
  length (filter (Z.eqb v) row) <> 0%nat ->
  exists j, (j < length row)%nat /\ nth j row 0 = v.
Proof.
  induction row as [|h t IH]; simpl; [congruence|].
  destruct (v =? h) eqn:E.
  - intros _. exists 0%nat. split; [lia|]. apply Z.eqb_eq in E. auto.
  - intros H. destruct (IH H) as [j [Hj Hn]]. exists (S j). split; [lia | exact Hn].
Qed.

Lemma list_sum_pos {A : Type} (f : A -> nat) (d : A) (l : list A) :
  list_sum (map f l) <> 0%nat ->
  exists i, (i < length l)%nat /\ f (nth i l d) <> 0%nat.
Proof.
  induction l as [|h t IH]; simpl; [congruence|].
  destruct (Nat.eq_dec (f h) 0) as [E|E].
  - intros H. destruct IH as [i [Hi Hn]]; [lia|].
    exists (S i). split; [lia | exact Hn].
  - intros _. exists 0%nat. split; [lia | exact E].
Qed.

Lemma count_cells_pos (v : Z) (b : board) :
  wf_board b -> count_cells v b <> 0%nat ->
  exists r c, 0 <= r < ROWS /\ 0 <= c < COLS /\ cell b r c = v.
Proof.
  intros Hwf H. unfold count_cells in H.
  destruct (list_sum_pos (fun row => length (filter (Z.eqb v) row)) [] b H)
    as [i [Hi Hn]].
  destruct (filter_length_pos v (nth i b []) Hn) as [j [Hj Hv]].
  destruct Hwf as [Hlen Hall].
  assert (Hrow : length (nth i b []) = Z.to_nat COLS).
  { rewrite Forall_forall in Hall. apply Hall. apply nth_In. exact Hi. }
  rewrite Hlen in Hi.
  exists (Z.of_nat i), (Z.of_nat j). unfold ROWS, COLS in *.
  split; [lia|]. split; [rewrite Hrow in Hj; lia|].
  unfold cell. rewrite !Nat2Z.id. exact Hv.
Qed.

Lemma empty_cell_counted (b : board) (r c : Z) :
  wf_board b -> 0 <= r < ROWS -> 0 <= c < COLS -> cell b r c = 0 ->
  (1 <= count_cells 0 b)%nat.
Proof.
  intros Hwf Hr Hc Hz.
  pose proof (count_cells_set 0 1 b r c Hwf Hr Hc) as H.
  rewrite Hz in H. cbn in H. lia.
Qed.

Lemma is_draw_top_row (b : board) (c : Z) :
  is_draw b = true -> 0 <= c < COLS -> cell b 0 c <> 0.
Proof.
  unfold is_draw. intros H Hc. rewrite forallb_forall in H.
  specialize (H c ltac:(apply In_zrange; lia)).
  apply negb_true_iff in H. apply Z.eqb_neq in H. exact H.
Qed.

(** With gravity, a full top row is a full board. *)
Lemma full_no_empty (b : board) :
  wf_board b -> gravity b -> is_draw b = true -> count_cells 0 b = 0%nat.
Proof.
  intros Hwf Hg Hd.
  destruct (Nat.eq_dec (count_cells 0 b) 0) as [E|E]; [exact E|exfalso].
  destruct (count_cells_pos 0 b Hwf E) as [r [c [Hr [Hc Hz]]]].
  destruct (Hg c Hc) as [k [Hk Hcol]].
  apply (is_draw_top_row b c Hd Hc).
  apply Hcol; [unfold ROWS; lia|]. apply Hcol in Hz; [lia | exact Hr].
Qed.

Lemma not_draw_has_empty (b : board) :
  wf_board b -> is_draw b = false -> (1 <= count_cells 0 b)%nat.
Proof.
  intros Hwf Hd. destruct (not_draw_valid b Hd) as [c Hv].
  apply is_valid_location_spec in Hv. destruct Hv as [Hc Hz].
  apply (empty_cell_counted b 0 c Hwf); [unfold ROWS; lia | exact Hc | exact Hz].
Qed.

(** One move of [p], whose turn it is, on a position that is not over. *)
Lemma move_board (b b' : board) (c p : Z) :
  legal_position b -> is_terminal b = false -> p = 1 \/ p = 2 -> on_move p b ->
  is_valid_location b c = true -> place b c p = Some b' ->
  legal_position b' /\ has_moved p b'
  /\ is_terminal b' = check_win b' p || is_draw b'
  /\ check_win b' (3 - p) = false
  /\ pieces b' = S (pieces b) /\ S (count_cells 0 b') = count_cells 0 b.
Proof.
  intros [Hwf [Hg Ht]] Hnt Hp Hon Hv Hpl.
  apply is_terminal_false in Hnt. destruct Hnt as [H1 [H2 _]].
  assert (Hne : p <> 0) by (destruct Hp; lia).
  destruct (place_counts b b' c p Hwf Hv Hpl Hne) as [Cp [C0 Co]].
  assert (Co' : count_cells (3 - p) b' = count_cells (3 - p) b)
    by (apply Co; destruct Hp; lia).
  assert (Hwf' : wf_board b').
  { destruct (place_valid b c p Hwf Hv) as [r [b0 [E [Hwf' _]]]].
    rewrite Hpl in E. inversion E. subst. exact Hwf'. }
  assert (Hother : check_win b' (3 - p) = false).
  { destruct (place_check_win b b' c p (3 - p) Hwf Hv Hpl ltac:(destruct Hp; lia))
      as [_ K].
    rewrite K by lia. destruct Hp as [-> | ->]; assumption. }
  assert (Hpieces : pieces b' = S (pieces b)).
  { unfold pieces. destruct Hp as [-> | ->]; simpl in *; lia. }
  split; [|split; [|split; [|split; [|split]]]]; try assumption.
  - split; [exact Hwf'|]. split; [exact (place_gravity b b' c p Hwf Hg Hv Hpl)|].
    rewrite Hpieces. lia.
  - unfold on_move, has_moved in *.
    destruct Hp as [-> | ->]; simpl in *; lia.
  - unfold is_terminal. destruct Hp as [-> | ->]; simpl in Hother; rewrite Hother.
    + rewrite orb_false_r. reflexivity.
    + reflexivity.
Qed.

(** A full board holds as many pieces of one colour as of the other only
    after the second player's move. *)
Lemma draw_after_second_player (b : board) :
  legal_position b -> is_draw b = true ->
  count_cells 1 b <> S (count_cells 2 b).
Proof.
  intros [Hwf [Hg Ht]] Hd E.
  rewrite (full_no_empty b Hwf Hg Hd) in Ht. unfold pieces in Ht.
  change (Z.to_nat (ROWS * COLS)) with 42%nat in Ht. lia.
Qed.

(** * The game in the terminal *)

Lemma read_column_valid (b : board) (answers rest : list (option Z)) (col : Z) :
  TerminalGame.read_column b answers = Some (col, rest) ->
  is_valid_location b col = true.
Proof.
  induction answers as [|[a|] t IH]; simpl; [discriminate| |exact IH].
  destruct (is_valid_location b a) eqn:E; [|exact IH].
  intros H. inversion H. subst. exact E.
Qed.

Lemma play_rounds_outcome (depth : nat) (fuel : nat) :
  forall b answers,
    legal_position b -> is_terminal b = false ->
    count_cells 1 b = count_cells 2 b ->
    match TerminalGame.play_rounds fuel depth b answers with
    | TerminalGame.AiWins b' =>
        legal_position b' /\ check_win b' 1 = true /\ check_win b' 2 = false
        /\ count_cells 1 b' = S (count_cells 2 b')
    | TerminalGame.HumanWins b' =>
        legal_position b' /\ check_win b' 2 = true /\ check_win b' 1 = false
        /\ count_cells 1 b' = count_cells 2 b'
    | TerminalGame.Draw b' =>
        legal_position b' /\ is_draw b' = true
        /\ check_win b' 1 = false /\ check_win b' 2 = false
        /\ count_cells 1 b' = count_cells 2 b'
    | TerminalGame.NoMove _ => False
    | TerminalGame.EndOfInput b' =>
        legal_position b' /\ is_terminal b' = false
        /\ count_cells 1 b' = S (count_cells 2 b')
    | TerminalGame.OutOfFuel b' =>
        legal_position b' /\ is_terminal b' = false
        /\ count_cells 1 b' = count_cells 2 b'
        /\ (count_cells 0 b' + 2 * fuel = count_cells 0 b)%nat
    end.
Proof.
  induction fuel as [|n IH]; intros b answers Hl Hnt Hc.
  - simpl. repeat (split; [assumption|]). lia.
  - cbn [TerminalGame.play_rounds].
    pose proof Hl as [Hwf _].
    pose proof (choose_move_result b depth Hwf) as Hch.
    destruct (AiTerminal.choose_move b depth) as [best_col|].
    2:{ pose proof Hnt as Hnt'. apply is_terminal_false in Hnt'.
        destruct Hnt' as [_ [_ Hd]]. destruct (not_draw_valid b Hd) as [c Hv].
        rewrite Hch in Hv. discriminate. }
    destruct Hch as [Hv _].
    destruct (place_valid b best_col 1 Hwf Hv) as [r1 [b1 [Hp1 _]]].
    rewrite Hp1.
    destruct (move_board b b1 best_col 1 Hl Hnt ltac:(auto) Hc Hv Hp1)
      as [Hl1 [Hm1 [Ht1 [Ho1 [_ Hz1]]]]].
    change (3 - 1) with 2 in Ho1. unfold has_moved in Hm1. simpl in Hm1.
    destruct (check_win b1 1) eqn:W1; [auto|].
    destruct (is_draw b1) eqn:D1;
      [exfalso; exact (draw_after_second_player b1 Hl1 D1 Hm1)|].
    simpl in Ht1.
    destruct (TerminalGame.read_column b1 answers) as [[col rest]|] eqn:Hread; [|auto].
    apply read_column_valid in Hread.
    pose proof Hl1 as [Hwf1 _].
    destruct (place_valid b1 col 2 Hwf1 Hread) as [r2 [b2 [Hp2 _]]].
    rewrite Hp2.
    destruct (move_board b1 b2 col 2 Hl1 Ht1 ltac:(auto) Hm1 Hread Hp2)
      as [Hl2 [Hm2 [Ht2 [Ho2 [_ Hz2]]]]].
    change (3 - 2) with 1 in Ho2. unfold has_moved in Hm2. simpl in Hm2.
    destruct (check_win b2 2) eqn:W2; [auto|].
    destruct (is_draw b2) eqn:D2; [repeat (split; [assumption|]); assumption|].
    simpl in Ht2.
    specialize (IH b2 rest Hl2 Ht2 Hm2).
    destruct (TerminalGame.play_rounds n depth b2 rest); try exact IH.
    destruct IH as [I1 [I2 [I3 I4]]]. repeat (split; [assumption|]). lia.
Qed.

(** X20. Every way [play_game_vs_ai] can stop, for a search depth of at least 1
    (below, the source calls [minimax] with a negative depth): the board is a
    legal position; after "AI wins!" player 1 has four in a row, player 2 has
    not, and the AI has moved once more than the human; after "You win!"
    player 2 has four in a row, player 1 has not, and both have moved as
    often; "It's a draw!" is only reached after the human's move, on a full
    top row with no winner.  The AI always finds a column to play. *)
Theorem terminal_game_outcome (fuel depth : nat) (answers : list (option Z)) :
  (1 <= depth)%nat ->
  match TerminalGame.play_game_vs_ai fuel depth answers with
  | TerminalGame.AiWins b =>
      legal_position b /\ check_win b 1 = true /\ check_win b 2 = false
      /\ count_cells 1 b = S (count_cells 2 b)
  | TerminalGame.HumanWins b =>
      legal_position b /\ check_win b 2 = true /\ check_win b 1 = false
      /\ count_cells 1 b = count_cells 2 b
  | TerminalGame.Draw b =>
      legal_position b /\ is_draw b = true
      /\ check_win b 1 = false /\ check_win b 2 = false
      /\ count_cells 1 b = count_cells 2 b
  | TerminalGame.NoMove _ => False
  | TerminalGame.EndOfInput b =>
      legal_position b /\ is_terminal b = false
      /\ count_cells 1 b = S (count_cells 2 b)
  | TerminalGame.OutOfFuel b =>
      legal_position b /\ is_terminal b = false
      /\ count_cells 1 b = count_cells 2 b
  end.
Proof.
  intros _. unfold TerminalGame.play_game_vs_ai.
  pose proof (play_rounds_outcome depth fuel create_board answers
                legal_create_board eq_refl eq_refl) as H.
  destruct (TerminalGame.play_rounds fuel depth create_board answers); try exact H.
  tauto.
Qed.

Lemma terminal_game_outcome_witness :
  (1 <= 1)%nat /\
  match TerminalGame.play_game_vs_ai 2 1 [Some 9; None; Some 0; Some 0] with
  | TerminalGame.AiWins b =>
      legal_position b /\ check_win b 1 = true /\ check_win b 2 = false
      /\ count_cells 1 b = S (count_cells 2 b)
  | TerminalGame.HumanWins b =>
      legal_position b /\ check_win b 2 = true /\ check_win b 1 = false
      /\ count_cells 1 b = count_cells 2 b
  | TerminalGame.Draw b =>
      legal_position b /\ is_draw b = true
      /\ check_win b 1 = false /\ check_win b 2 = false
      /\ count_cells 1 b = count_cells 2 b
  | TerminalGame.NoMove _ => False
  | TerminalGame.EndOfInput b =>
      legal_position b /\ is_terminal b = false
      /\ count_cells 1 b = S (count_cells 2 b)
  | TerminalGame.OutOfFuel b =>
      legal_position b /\ is_terminal b = false
      /\ count_cells 1 b = count_cells 2 b
  end.
Proof.
  split; [lia|].
  apply (terminal_game_outcome 2 1 [Some 9; None; Some 0; Some 0]). lia.
Defined.

(** X21. [play_game_vs_ai] stops within 21 rounds of one AI move and one human
    move each, whatever the human answers. *)
Theorem terminal_game_ends (fuel depth : nat) (answers : list (option Z)) (b : board) :
  (1 <= depth)%nat -> (21 <= fuel)%nat ->
  TerminalGame.play_game_vs_ai fuel depth answers <> TerminalGame.OutOfFuel b.
Proof.
  intros _ Hf E. unfold TerminalGame.play_game_vs_ai in E.
  pose proof (play_rounds_outcome depth fuel create_board answers
                legal_create_board eq_refl eq_refl) as H.
  rewrite E in H. destruct H as [[Hwf _] [Hnt [_ Hz]]].
  apply is_terminal_false in Hnt. destruct Hnt as [_ [_ Hd]].
  pose proof (not_draw_has_empty b Hwf Hd) as Hpos.
  change (count_cells 0 create_board) with 42%nat in Hz. lia.
Qed.

Lemma terminal_game_ends_witness :
  (1 <= 1)%nat /\ (21 <= 21)%nat /\
  TerminalGame.play_game_vs_ai 21 1 [] <> TerminalGame.OutOfFuel create_board.
Proof.
  split; [lia|]. split; [lia|].
  apply (terminal_game_ends 21 1 [] create_board); lia.
Defined.

(** * The graphical game *)

Lemma gui_roles (turn : Z) :
  (GuiGame.human_of turn = 1 /\ GuiGame.ai_of turn = 2)
  \/ (GuiGame.human_of turn = 2 /\ GuiGame.ai_of turn = 1).
Proof.
  unfold GuiGame.ai_of, GuiGame.human_of. destruct (turn =? 0); simpl; auto.
Qed.

(** The state left by a move of [p], the player the loop was waiting for;
    [next] is the value [current_turn] takes when the game goes on. *)
Lemma after_move_invariant (turn : Z) (st : GuiGame.state) (c p next : Z)
    (moved : board) :
  gui_invariant turn st -> GuiGame.game_over st = false ->
  p = to_move turn st -> next = 1 - GuiGame.current_turn st ->
  is_valid_location (GuiGame.board_of st) c = true ->
  place (GuiGame.board_of st) c p = Some moved ->
  let st' := GuiGame.after_move moved p next st in
  gui_invariant turn st'
  /\ pieces (GuiGame.board_of st') = S (pieces (GuiGame.board_of st))
  /\ (GuiGame.game_over st' = true \/ GuiGame.current_turn st' = next).
Proof.
  intros [Hl [Hturn [Hover [_ Hon]]]] Hgo Hp Hnext Hv Hpl.
  rewrite Hgo in Hover. symmetry in Hover. specialize (Hon Hgo).
  rewrite <- Hp in Hon.
  assert (Hp12 : p = 1 \/ p = 2).
  { subst p. unfold to_move.
    destruct (gui_roles turn) as [[-> ->]|[-> ->]];
      destruct (GuiGame.current_turn st =? 0); auto. }
  destruct (move_board _ moved c p Hl Hover Hp12 Hon Hv Hpl)
    as [Hl' [Hm [Ht [_ [Hpc _]]]]].
  assert (Hcounts : count_cells 1 moved = count_cells 2 moved
                    \/ count_cells 1 moved = S (count_cells 2 moved)).
  { unfold has_moved in Hm. destruct Hp12 as [-> | ->]; simpl in Hm; auto. }
  assert (Hnext01 : next = 0 \/ next = 1) by (destruct Hturn; lia).
  assert (Hnextmove : on_move (to_move turn (GuiGame.mkState moved next false)) moved).
  { unfold to_move, on_move, has_moved in *. cbn [GuiGame.current_turn].
    rewrite Hp in Hm. unfold to_move in Hm.
    destruct (gui_roles turn) as [[Eh Ea]|[Eh Ea]]; rewrite Eh, Ea in *;
      destruct Hturn as [E|E]; rewrite E in *; subst next; simpl in *; exact Hm. }
  cbv zeta. unfold GuiGame.after_move.
  destruct (check_win moved p) eqn:W; [|destruct (is_draw moved) eqn:D];
    cbn [GuiGame.board_of GuiGame.game_over GuiGame.current_turn];
    (split; [|split; [exact Hpc | auto]]);
    unfold gui_invariant;
    cbn [GuiGame.board_of GuiGame.game_over GuiGame.current_turn];
    (split; [exact Hl'|]); (split; [auto|]); (split; [rewrite Ht; reflexivity|]);
    (split; [exact Hcounts|]); try discriminate.
  intros _. exact Hnextmove.
Qed.

Lemma click_invariant (turn : Z) (st : GuiGame.state) (posx : Z) :
  gui_invariant turn st -> GuiGame.game_over st = false ->
  gui_invariant turn (GuiGame.click (GuiGame.human_of turn) st posx).
Proof.
  intros Hinv Hgo. unfold GuiGame.click.
  destruct (GuiGame.current_turn st =? 0) eqn:E; [|exact Hinv].
  destruct (is_valid_location (GuiGame.board_of st) (GuiGame.click_column posx)) eqn:Hv;
    [|exact Hinv].
  destruct (place (GuiGame.board_of st) (GuiGame.click_column posx)
              (GuiGame.human_of turn)) as [moved|] eqn:Hpl; [|exact Hinv].
  apply Z.eqb_eq in E.
  apply (after_move_invariant turn st (GuiGame.click_column posx)
           (GuiGame.human_of turn) 1 moved Hinv Hgo); auto.
  - unfold to_move. rewrite E. reflexivity.
  - lia.
Qed.

Lemma handle_events_invariant (turn : Z) (events : list GuiGame.event) :
  forall st st',
    gui_invariant turn st -> GuiGame.game_over st = false ->
    GuiGame.handle_events (GuiGame.human_of turn) st events = Some st' ->
    gui_invariant turn st'.
Proof.
  induction events as [|e rest IH]; intros st st' Hinv Hgo H; simpl in H.
  - inversion H. subst. exact Hinv.
  - destruct e as [| posx | posx |]; [discriminate | eauto | | eauto].
    pose proof (click_invariant turn st posx Hinv Hgo) as Hc.
    destruct (GuiGame.game_over (GuiGame.click (GuiGame.human_of turn) st posx)) eqn:G.
    + inversion H. subst. exact Hc.
    + eauto.
Qed.

(** With a depth of at least 1 the AI, when it is its turn, plays a piece. *)
Lemma ai_step_moves (depth : nat) (turn : Z) (st : GuiGame.state) :
  (1 <= depth)%nat -> gui_invariant turn st ->
  GuiGame.current_turn st = 1 -> GuiGame.game_over st = false ->
  let st' := GuiGame.ai_step depth (GuiGame.ai_of turn) st in
  gui_invariant turn st'
  /\ pieces (GuiGame.board_of st') = S (pieces (GuiGame.board_of st))
  /\ (GuiGame.game_over st' = true \/ GuiGame.current_turn st' = 0).
Proof.
  intros Hd Hinv Hturn Hgo. cbv zeta. unfold GuiGame.ai_step.
  rewrite Hturn, Hgo. cbn [Z.eqb Pos.eqb negb andb].
  pose proof Hinv as [[Hwf _] [_ [Hover _]]].
  rewrite Hgo in Hover. symmetry in Hover.
  destruct depth as [|d]; [lia|].
  destruct (gui_root_result (GuiGame.board_of st) d (GuiGame.ai_of turn) Hwf Hover)
    as [c0 [E [Hv _]]].
  rewrite E. cbn [fst]. rewrite Hv.
  destruct (place_valid (GuiGame.board_of st) c0 (GuiGame.ai_of turn) Hwf Hv)
    as [r [moved [Hpl _]]].
  rewrite Hpl.
  apply (after_move_invariant turn st c0 (GuiGame.ai_of turn) 0 moved Hinv Hgo); auto.
  - unfold to_move. rewrite Hturn. reflexivity.
  - lia.
Qed.

Lemma ai_step_invariant (depth : nat) (turn : Z) (st : GuiGame.state) :
  gui_invariant turn st ->
  gui_invariant turn (GuiGame.ai_step depth (GuiGame.ai_of turn) st).
Proof.
  intros Hinv. unfold GuiGame.ai_step.
  destruct (GuiGame.current_turn st =? 1) eqn:Et; [|exact Hinv].
  destruct (GuiGame.game_over st) eqn:Hgo; [exact Hinv|]. cbn [negb andb].
  destruct (fst (PygameGui.minimax_with_col depth (GuiGame.board_of st) NegInf PosInf
                   true (GuiGame.ai_of turn))) as [best_col|]; [|exact Hinv].
  destruct (is_valid_location (GuiGame.board_of st) best_col) eqn:Hv; [|exact Hinv].
  destruct (place (GuiGame.board_of st) best_col (GuiGame.ai_of turn))
    as [moved|] eqn:Hpl; [|exact Hinv].
  apply Z.eqb_eq in Et.
  apply (after_move_invariant turn st best_col (GuiGame.ai_of turn) 0 moved Hinv Hgo);
    auto.
  - unfold to_move. rewrite Et. reflexivity.
  - lia.
Qed.

Lemma initial_state_invariant (turn : Z) :
  gui_invariant turn (GuiGame.initial_state turn).
Proof.
  unfold gui_invariant, GuiGame.initial_state.
  cbn [GuiGame.board_of GuiGame.game_over GuiGame.current_turn].
  split; [exact legal_create_board|].
  split; [destruct (turn =? 0); auto|].
  split; [reflexivity|]. split; [left; reflexivity|].
  intros _. unfold to_move, on_move, GuiGame.ai_of, GuiGame.human_of.
  cbn [GuiGame.current_turn]. destruct (turn =? 0); reflexivity.
Qed.

Lemma reachable_invariant (depth : nat) (turn : Z) (st : GuiGame.state) :
  GuiGame.reachable depth turn st -> gui_invariant turn st.
Proof.
  induction 1 as [|st st' events _ IH Hgo Hf].
  - apply initial_state_invariant.
  - unfold GuiGame.frame in Hf.
    destruct (GuiGame.handle_events (GuiGame.human_of turn) st events) as [st1|] eqn:He;
      [|discriminate].
    inversion Hf. subst st'. apply ai_step_invariant.
    apply (handle_events_invariant turn events st st1 IH Hgo He).
Qed.

(** X22. Whatever the events, every state of the loop of [run_pygame_game] holds a
    legal position; [current_turn] is 0 or 1; [game_over] is set exactly when
    a player has four in a row or the top row is full; player 1 has as many
    pieces as player 2 or one more, and while the game goes on the player the
    loop waits for is player 1 exactly when the counts are equal. *)
Theorem gui_loop_invariant (depth : nat) (turn : Z) (st : GuiGame.state) :
  GuiGame.reachable depth turn st -> gui_invariant turn st.
Proof. apply reachable_invariant. Qed.

Lemma gui_loop_invariant_witness :
  let st := GuiGame.ai_step 2 (GuiGame.ai_of 0)
              (GuiGame.click (GuiGame.human_of 0) (GuiGame.initial_state 0) 415) in
  gui_invariant 0 st.
Proof.
  apply (gui_loop_invariant 2 0).
  apply (GuiGame.reach_frame 2 0 (GuiGame.initial_state 0) _
           [GuiGame.MouseMotion 400; GuiGame.MouseButtonDown 415]).
  - apply GuiGame.reach_initial.
  - reflexivity.
  - reflexivity.
Defined.

(** X23. With one of the depths the difficulty screen offers (any depth of at
    least 1), the AI never keeps the loop waiting.  Take any pass of the main
    loop, entered with the game not over, and the state [st1] its event loop
    leaves (after a click of the human as well as on the AI's opening move):
    the pass ends in the state the AI turn makes of [st1]; there the game is
    over or it is the human's turn; and when the AI turn is reached with
    [current_turn = 1] and the game not over, the board has gained one
    piece. *)
Theorem gui_ai_always_moves (depth : nat) (turn : Z) (st st1 : GuiGame.state)
    (events : list GuiGame.event) :
  (1 <= depth)%nat -> GuiGame.reachable depth turn st ->
  GuiGame.game_over st = false ->
  GuiGame.handle_events (GuiGame.human_of turn) st events = Some st1 ->
  let st' := GuiGame.ai_step depth (GuiGame.ai_of turn) st1 in
  GuiGame.frame depth turn st events = Some st'
  /\ (GuiGame.game_over st' = true \/ GuiGame.current_turn st' = 0)
  /\ (GuiGame.current_turn st1 = 1 -> GuiGame.game_over st1 = false ->
      pieces (GuiGame.board_of st') = S (pieces (GuiGame.board_of st1))).
Proof.
  intros Hd Hr Hgo He. cbv zeta.
  pose proof (handle_events_invariant turn events st st1
                (reachable_invariant depth turn st Hr) Hgo He) as Hinv.
  split; [unfold GuiGame.frame; rewrite He; reflexivity|].
  destruct (GuiGame.game_over st1) eqn:G1.
  - assert (E : GuiGame.ai_step depth (GuiGame.ai_of turn) st1 = st1)
      by (unfold GuiGame.ai_step; rewrite G1, andb_false_r; reflexivity).
    rewrite E. split; [left; exact G1 | intros _ Hc; discriminate].
  - pose proof Hinv as [_ [[T|T] _]].
    + assert (E : GuiGame.ai_step depth (GuiGame.ai_of turn) st1 = st1)
        by (unfold GuiGame.ai_step; rewrite T; reflexivity).
      rewrite E. split; [right; exact T | intros Hc; rewrite T in Hc; discriminate].
    + destruct (ai_step_moves depth turn st1 Hd Hinv T G1) as [_ [Hp Hn]].
      split; [exact Hn | intros _ _; exact Hp].
Qed.

Lemma gui_ai_always_moves_witness :
  let st1 := GuiGame.click (GuiGame.human_of 0) (GuiGame.initial_state 0) 415 in
  let st' := GuiGame.ai_step 2 (GuiGame.ai_of 0) st1 in
  GuiGame.frame 2 0 (GuiGame.initial_state 0)
    [GuiGame.MouseMotion 400; GuiGame.MouseButtonDown 415] = Some st'
  /\ (GuiGame.game_over st' = true \/ GuiGame.current_turn st' = 0)
  /\ (GuiGame.current_turn st1 = 1 -> GuiGame.game_over st1 = false ->
      pieces (GuiGame.board_of st') = S (pieces (GuiGame.board_of st1))).
Proof.
  apply (gui_ai_always_moves 2 0 (GuiGame.initial_state 0)
           (GuiGame.click (GuiGame.human_of 0) (GuiGame.initial_state 0) 415)
           [GuiGame.MouseMotion 400; GuiGame.MouseButtonDown 415]).
  - lia.
  - apply GuiGame.reach_initial.
  - reflexivity.
  - reflexivity.
Defined.

(** After a click of the human on column 3 of the empty board the AI turn is
    reached with [current_turn = 1] and the game not over, and the AI
    replies. *)
Example ai_replies_to_click :
  let st1 := GuiGame.click (GuiGame.human_of 0) (GuiGame.initial_state 0) 415 in
  let st' := GuiGame.ai_step 2 (GuiGame.ai_of 0) st1 in
  GuiGame.current_turn st1 = 1 /\ GuiGame.game_over st1 = false
  /\ pieces (GuiGame.board_of st1) = 1%nat /\ pieces (GuiGame.board_of st') = 2%nat
  /\ GuiGame.current_turn st' = 0 /\ GuiGame.game_over st' = false.
Proof. repeat (split; [reflexivity|]). reflexivity. Qed.

(** At depth 0 the search returns no column and the AI turn leaves the state
    as it is. *)
Lemma ai_step_depth_0 (ai : Z) (st : GuiGame.state) :
  GuiGame.ai_step 0 ai st = st.
Proof.
  unfold GuiGame.ai_step.
  destruct ((GuiGame.current_turn st =? 1) && negb (GuiGame.game_over st));
    reflexivity.
Qed.

(** * Pointer geometry *)

(** X24. A click selects column [c] exactly when it falls on the square
    [draw_board] draws for column [c]. *)
Theorem click_column_of_square (posx c : Z) :
  GuiGame.click_column posx = c
  <-> GuiGame.cell_x c <= posx < GuiGame.cell_x c + GuiGame.SQUARESIZE.
Proof.
  unfold GuiGame.click_column, GuiGame.cell_x, GuiGame.SQUARESIZE, GuiGame.SIDE_PADDING.
  pose proof (Z.div_mod (posx - 60) 100 ltac:(lia)) as Hdm.
  pose proof (Z.mod_pos_bound (posx - 60) 100 ltac:(lia)) as Hb.
  split; intros H.
  - subst c. lia.
  - symmetry. apply (Z.div_unique (posx - 60) 100 c (posx - 60 - 100 * c)); lia.
Qed.

(** X25. A click left or right of the seven squares is ignored, whoever is to
    move: a negative column is rejected, not wrapped around. *)
Theorem click_outside_ignored (human : Z) (st : GuiGame.state) (posx : Z) :
  posx < GuiGame.cell_x 0 \/ GuiGame.cell_x COLS <= posx ->
  GuiGame.click human st posx = st.
Proof.
  intros H. unfold GuiGame.click.
  destruct (GuiGame.current_turn st =? 0); [|reflexivity].
  assert (Hc : GuiGame.click_column posx < 0 \/ COLS <= GuiGame.click_column posx).
  { unfold GuiGame.click_column, GuiGame.cell_x, GuiGame.SQUARESIZE,
      GuiGame.SIDE_PADDING, COLS in *.
    destruct H as [H|H].
    - left. apply Z.div_lt_upper_bound; lia.
    - right. apply Z.div_le_lower_bound; lia. }
  unfold is_valid_location.
  destruct Hc as [Hc|Hc].
  - apply Z.ltb_lt in Hc. rewrite Hc. reflexivity.
  - apply Z.geb_le in Hc. rewrite Hc, orb_true_r. reflexivity.
Qed.

Lemma click_outside_ignored_witness :
  GuiGame.click 1 (GuiGame.initial_state 0) 59 = GuiGame.initial_state 0.
Proof.
  apply (click_outside_ignored 1 (GuiGame.initial_state 0) 59).
  left. unfold GuiGame.cell_x, GuiGame.SIDE_PADDING, GuiGame.SQUARESIZE. lia.
Defined.

(** X26. The hovering piece is always drawn over one of the seven columns: over
    the column a click would select when the pointer is on the board, over
    the nearest edge column otherwise; a click on its centre selects that
    column. *)
Theorem hover_column_clamped (posx : Z) :
  0 <= GuiGame.hover_column posx < COLS
  /\ (0 <= GuiGame.click_column posx < COLS ->
      GuiGame.hover_column posx = GuiGame.click_column posx)
  /\ (GuiGame.click_column posx < 0 -> GuiGame.hover_column posx = 0)
  /\ (COLS <= GuiGame.click_column posx -> GuiGame.hover_column posx = COLS - 1)
  /\ GuiGame.click_column
       (GuiGame.cell_x (GuiGame.hover_column posx) + GuiGame.SQUARESIZE / 2)
     = GuiGame.hover_column posx.
Proof.
  split; [|split; [|split; [|split]]];
    try (unfold GuiGame.hover_column, COLS; lia).
  remember (GuiGame.hover_column posx) as c eqn:E. clear E.
  unfold GuiGame.click_column, GuiGame.cell_x, GuiGame.SQUARESIZE, GuiGame.SIDE_PADDING.
  change (100 / 2) with 50. symmetry.
  apply (Z.div_unique (60 + c * 100 + 50 - 60) 100 c 50); lia.
Qed.

(** * The falling piece *)

Lemma animate_loop_steps (k : nat) :
  forall fuel y target_y,
    target_y = y + 20 * Z.of_nat k -> (k < fuel)%nat ->
    GuiGame.animate_loop fuel y target_y
    = Some (map (fun i => y + 20 * Z.of_nat i) (seq 1 k)).
Proof.
  induction k as [|k IH]; intros fuel y target_y Ht Hf;
    (destruct fuel as [|fuel]; [lia|]); cbn [GuiGame.animate_loop].
  - replace (y <? target_y) with false by (symmetry; apply Z.ltb_ge; lia).
    reflexivity.
  - replace (y <? target_y) with true by (symmetry; apply Z.ltb_lt; lia).
    replace (y + 20 >? target_y) with false
      by (symmetry; rewrite Z.gtb_ltb; apply Z.ltb_ge; lia).
    rewrite (IH fuel (y + 20) target_y) by lia.
    cbn [seq map]. apply f_equal. apply f_equal2; [lia|].
    rewrite <- (seq_shift k 1), map_map. apply map_ext. intros i. lia.
Qed.

(** X27. The animation of a piece falling to [row] in column [col] ends after
    [5 * (row + 1)] frames, moves 20 pixels a frame without ever being
    clamped, stays on the vertical through the centre of the column, and
    draws its last circle exactly where [draw_board] draws the piece. *)
Theorem animate_drop_lands (fuel : nat) (col row : Z) :
  0 <= row -> (5 * (Z.to_nat row + 1) < fuel)%nat ->
  exists frames,
    GuiGame.animate_drop fuel col row = Some frames
    /\ frames = map (fun i => (fst (GuiGame.piece_centre row col), 50 + 20 * Z.of_nat i))
                   (seq 1 (5 * (Z.to_nat row + 1)))
    /\ last frames (0, 0) = GuiGame.piece_centre row col.
Proof.
  intros Hr Hf. unfold GuiGame.animate_drop.
  rewrite (animate_loop_steps (5 * (Z.to_nat row + 1)))
    by (unfold GuiGame.HOVER_AREA_HEIGHT, GuiGame.SQUARESIZE;
        change (100 / 2) with 50; lia).
  eexists. split; [reflexivity|]. rewrite map_map.
  change (GuiGame.HOVER_AREA_HEIGHT / 2) with 50.
  split; [reflexivity|].
  replace (5 * (Z.to_nat row + 1))%nat with (S (5 * Z.to_nat row + 4))%nat by lia.
  rewrite seq_S, map_app. cbn [map]. rewrite last_last.
  unfold GuiGame.piece_centre, GuiGame.cell_x, GuiGame.cell_y,
    GuiGame.HOVER_AREA_HEIGHT, GuiGame.SQUARESIZE, GuiGame.SIDE_PADDING.
  change (100 / 2) with 50. f_equal. lia.
Qed.

Lemma animate_drop_lands_witness :
  exists frames,
    GuiGame.animate_drop 40 3 5 = Some frames
    /\ frames = map (fun i => (fst (GuiGame.piece_centre 5 3), 50 + 20 * Z.of_nat i))
                   (seq 1 (5 * (Z.to_nat 5 + 1)))
    /\ last frames (0, 0) = GuiGame.piece_centre 5 3.
Proof.
  apply (animate_drop_lands 40 3 5); [lia | simpl; lia].
Defined.
